(** * briefcase, Android Gradle backend: log classifier and run orchestration

    A shallow embedding of [src/briefcase/platforms/android/gradle.py]:

    - [Re]       : the backtracking semantics of the [re] patterns the module
                   compiles (priority-ordered list of successes);
    - [LogFilter]: [ANDROID_LOG_PREFIX_REGEX] and [android_log_clean_filter];
    - [Run]      : [GradleRunCommand.forward_ports] and
                   [GradleRunCommand.run_app] over an explicit history of the
                   calls made to the external collaborators (ADB, the SDK, the
                   console, the clock);
    - [Names]    : [safe_formal_name], through [re.sub] and [str.strip];
    - [Build]    : [GradleMixin.distribution_path] and [run_gradle],
                   [GradleBuildCommand.build_app] and
                   [GradlePackageCommand.package_app];
    - [Version]  : the version code of
                   [GradleCreateCommand.output_format_template_context];
    - [Permissions]: [GradleCreateCommand.permissions_context];
    - [Ports]    : what the facts on the other paths of [forward_ports] and
                   [run_app] speak of;
    - [Escapes]  : where an escape sequence starts in a line. *)

From Stdlib Require Import String Ascii ZArith NArith Bool Lia Arith List.
Import ListNotations.
Open Scope list_scope.

Set Implicit Arguments.

(** ** Text *)

(** A Python [str] is a sequence of Unicode code points. *)
Definition char := N.
Definition str := list char.

Definition of_string (s : string) : str :=
  map N_of_ascii (list_ascii_of_string s).

Definition ESC : char := 27%N.     (* \x1B *)
Definition NL : char := 10%N.      (* \n   *)
Definition COLON : char := 58%N.   (* :    *)
Definition SPACE : char := 32%N.   (* ' '  *)
Definition SLASH : char := 47%N.   (* /    *)

Definition str_eqb (a b : str) : bool :=
  if list_eq_dec N.eq_dec a b then true else false.

(** The first element of a list on which [f] answers. *)
Fixpoint first_some {A B : Type} (f : A -> option B) (l : list A) : option B :=
  match l with
  | [] => None
  | x :: l' => match f x with Some y => Some y | None => first_some f l' end
  end.

(** ** Regular expressions, as Python's [re] runs them *)

Module Re.

(** The constructs the module's patterns use. *)
Inductive regex : Type :=
| Lit (c : char)                       (* a literal character           *)
| Class (p : char -> bool)             (* [...] and .                   *)
| Cat (r1 r2 : regex)                  (* r1 r2                         *)
| Alt (r1 r2 : regex)                  (* r1|r2, left one preferred     *)
| Star (r : regex)                     (* (?:r)*   greedy               *)
| LazyStar (r : regex)                 (* (?:r)*?  lazy                 *)
| Named (name : string) (r : regex)    (* (?P<name>r)                   *)
| Ahead (r : regex)                    (* (?=r)                         *)
| Dollar.                              (* $ (no MULTILINE flag)         *)

(** Captured groups, latest binding first. *)
Definition caps := list (string * str).

(** A thread of the matcher: the text still to read and the captures. *)
Definition thread := (str * caps)%type.

Definition in_range (lo hi : N) (c : char) : bool :=
  (lo <=? c)%N && (c <=? hi)%N.

(** [.] without DOTALL: any character but a newline. *)
Definition dot : regex := Class (fun c => negb (c =? NL)%N).

(** Iteration of a star.  An iteration that consumes nothing is dropped, as
    the engine refuses to loop on an empty match; with that guard [fuel]
    equal to the length of the text is never exhausted. *)
Fixpoint star_aux (step : str -> caps -> list thread) (greedy : bool)
    (fuel : nat) (s : str) (c : caps) : list thread :=
  match fuel with
  | O => [(s, c)]
  | S fuel' =>
      let more :=
        flat_map (fun t : thread =>
                    if (length (fst t) <? length s)%nat
                    then star_aux step greedy fuel' (fst t) (snd t)
                    else [])
                 (step s c) in
      if greedy then more ++ [(s, c)] else (s, c) :: more
  end.

(** All the ways [r] matches a prefix of [s], in the order in which the
    backtracking engine tries them. *)
Fixpoint matches (r : regex) (s : str) (c : caps) : list thread :=
  match r with
  | Lit x =>
      match s with
      | y :: s' => if (x =? y)%N then [(s', c)] else []
      | [] => []
      end
  | Class p =>
      match s with
      | y :: s' => if p y then [(s', c)] else []
      | [] => []
      end
  | Cat r1 r2 =>
      flat_map (fun t : thread => matches r2 (fst t) (snd t)) (matches r1 s c)
  | Alt r1 r2 => matches r1 s c ++ matches r2 s c
  | Star r' => star_aux (matches r') true (length s) s c
  | LazyStar r' => star_aux (matches r') false (length s) s c
  | Named name r' =>
      map (fun t : thread =>
             (fst t, (name, firstn (length s - length (fst t)) s) :: snd t))
          (matches r' s c)
  | Ahead r' =>
      match matches r' s c with
      | [] => []
      | _ :: _ => [(s, c)]
      end
  | Dollar =>
      match s with
      | [] => [(s, c)]
      | [y] => if (y =? NL)%N then [(s, c)] else []
      | _ => []
      end
  end.

(** The captures of the first success. *)
Definition first_caps (r : regex) (s : str) (c : caps) : option caps :=
  option_map snd (hd_error (matches r s c)).

(** [pattern.match(line)]: the first success from the start of the line, or
    [None]. *)
Definition re_match (r : regex) (line : str) : option caps :=
  first_caps r line [].

(** [match.groupdict()[name]]; [None] is a group that took no part. *)
Fixpoint group (g : caps) (name : string) : option str :=
  match g with
  | [] => None
  | (n, v) :: g' => if String.eqb n name then Some v else group g' name
  end.

(** No capturing group inside. *)
Fixpoint no_groups (r : regex) : bool :=
  match r with
  | Lit _ | Class _ | Dollar => true
  | Cat r1 r2 | Alt r1 r2 => no_groups r1 && no_groups r2
  | Star r' | LazyStar r' | Ahead r' => no_groups r'
  | Named _ _ => false
  end.

End Re.

(** ** The log line classifier *)

Module LogFilter.
Import Re.

(** [[A-Z]] *)
Definition is_upper (c : char) : bool := in_range 65 90 c.

Section Pattern.

(** [ANSI_ESC_SEQ_RE_DEF] is imported from [briefcase.console], which is not
    part of the sources at hand: the pattern is built over any value of it. *)
Variable ANSI_ESC_SEQ_RE_DEF : regex.

(** [(?P<content>.*?(?=\x1B|$))] *)
Definition content_re : regex :=
  Named "content" (Cat (LazyStar dot) (Ahead (Alt (Lit ESC) Dollar))).

(** [(?P<content>...)(?:ANSI)*] *)
Definition tail_re : regex := Cat content_re (Star ANSI_ESC_SEQ_RE_DEF).

(** [: (?P<content>...)(?:ANSI)*] *)
Definition sep_re : regex := Cat (Lit COLON) (Cat (Lit SPACE) tail_re).

(** [(?P<tag>.*?): (?P<content>...)(?:ANSI)*] *)
Definition tag_re : regex := Cat (Named "tag" (LazyStar dot)) sep_re.

(** [[A-Z]/(?P<tag>.*?): (?P<content>...)(?:ANSI)*] *)
Definition line_re : regex := Cat (Class is_upper) (Cat (Lit SLASH) tag_re).

(** [(?:ANSI)*[A-Z]/(?P<tag>.*?): (?P<content>.*?(?=\x1B|$))(?:ANSI)*] *)
Definition ANDROID_LOG_PREFIX_REGEX : regex :=
  Cat (Star ANSI_ESC_SEQ_RE_DEF) line_re.

Definition python_stdout : str := of_string "python.stdout".
Definition python_stderr : str := of_string "python.stderr".

(** [tag in {"python.stdout", "python.stderr"}]; a group that took no part
    is Python's [None], which is not in the set. *)
Definition is_python_tag (tag : option str) : bool :=
  match tag with
  | Some t => str_eqb t python_stdout || str_eqb t python_stderr
  | None => false
  end.

(** The text of a group that took part in the match.  Both groups of the
    pattern take part in every match ([match_binds_groups] below), so the
    empty default is never what the filter returns. *)
Definition text_of (v : option str) : str :=
  match v with Some t => t | None => [] end.

Definition android_log_clean_filter (line : str) : str * bool :=
  match re_match ANDROID_LOG_PREFIX_REGEX line with
  | Some groups =>
      let include := is_python_tag (group groups "tag") in
      (text_of (group groups "content"), include)
  | None => (line, false)
  end.

End Pattern.

(** Modelled from the spec: the value of [ANSI_ESC_SEQ_RE_DEF], defined in
    [briefcase.console] and absent from the sources.  The spec speaks of
    "ANSI escape sequences (used by some log producers for coloring)" such as
    [\x1b[32m] and [\x1b[0m]; this is the ECMA-48 shape of them:
    [(?:\x1B[@-Z\\-_]|[\x80-\x9A\x9C-\x9F]|(?:\x1B\[|\x9B)[0-?]*[ -/]*[@-~])]. *)
Definition ansi_esc_seq : regex :=
  Alt (Cat (Lit ESC) (Class (fun c => in_range 64 90 c || in_range 92 95 c)))
 (Alt (Class (fun c => in_range 128 154 c || in_range 156 159 c))
      (Cat (Alt (Cat (Lit ESC) (Lit 91%N)) (Lit 155%N))
      (Cat (Star (Class (in_range 48 63)))
      (Cat (Star (Class (in_range 32 47)))
           (Class (in_range 64 126)))))).

(** The classifier of the reference system. *)
Definition classify : str -> str * bool := android_log_clean_filter ansi_esc_seq.

(** *** A direct scanner, for the proofs

    What the backtracking run of the pattern amounts to, written as plain
    recursion on the text.  The facts below show the pattern and the scanner
    agree, and the classifier's properties are then read off the scanner. *)

(** [(?=\x1B|$)] holds here. *)
Definition ahead_ok (s : str) : bool :=
  match s with
  | [] => true
  | [y] => (y =? ESC)%N || (y =? NL)%N
  | y :: _ => (y =? ESC)%N
  end.

(** The positions [.*?] stops at, shortest first. *)
Fixpoint lazy_dot (s : str) : list str :=
  s :: match s with
       | [] => []
       | x :: s' => if negb (x =? NL)%N then lazy_dot s' else []
       end.

(** The content and what follows it. *)
Fixpoint scan_content (s : str) : option (str * str) :=
  if ahead_ok s then Some ([], s)
  else match s with
       | [] => None
       | x :: s' =>
           if negb (x =? NL)%N
           then option_map (fun r : str * str => (x :: fst r, snd r))
                           (scan_content s')
           else None
       end.

(** Is the separator here, with a content after it? *)
Definition scan_sep (s : str) : option str :=
  match s with
  | a :: b :: s' =>
      if (COLON =? a)%N && (SPACE =? b)%N
      then option_map fst (scan_content s')
      else None
  | _ => None
  end.

(** The tag and the content. *)
Fixpoint scan_tag (s : str) : option (str * str) :=
  match scan_sep s with
  | Some c => Some ([], c)
  | None =>
      match s with
      | [] => None
      | x :: s' =>
          if negb (x =? NL)%N
          then option_map (fun r : str * str => (x :: fst r, snd r))
                          (scan_tag s')
          else None
      end
  end.

(** Level letter, slash, tag, separator, content. *)
Definition scan_line (s : str) : option (str * str) :=
  match s with
  | l :: sl :: s' =>
      if is_upper l && (SLASH =? sl)%N then scan_tag s' else None
  | _ => None
  end.

(** The whole pattern: the positions the leading [(?:ANSI)*] can hand over,
    in the order the engine tries them, and the first the line scans from. *)
Definition scan (ansi : regex) (line : str) : option (str * str) :=
  first_some (fun t : thread => scan_line (fst t)) (matches (Star ansi) line []).

(** An escape sequence never starts with an uppercase letter. *)
Definition skips_upper (ansi : regex) : Prop :=
  forall x s c, is_upper x = true -> matches ansi (x :: s) c = [].

(** A text the escape pattern reads whole, and in that way only, whatever
    comes after it. *)
Definition ansi_token (ansi : regex) (tok : str) : Prop :=
  tok <> [] /\ forall s c, matches ansi (tok ++ s) c = [(s, c)].

(** A run of such texts, one after the other. *)
Inductive ansi_run (ansi : regex) : str -> Prop :=
| ansi_run_nil : ansi_run ansi []
| ansi_run_cons tok rest :
    ansi_token ansi tok -> ansi_run ansi rest -> ansi_run ansi (tok ++ rest).

(** A control sequence in its 7-bit form: [ESC [], parameter bytes,
    intermediate bytes, a final byte; [ESC [ 3 2 m] sets the colour green. *)
Definition csi (params inter : str) (final : char) : str :=
  ESC :: 91%N :: params ++ inter ++ [final].

(** A character the content runs over: no escape, no newline. *)
Definition plain (x : char) : Prop := x <> ESC /\ x <> NL.

(** The text up to the first escape character, all of it if there is none. *)
Fixpoint up_to_escape (s : str) : str :=
  match s with
  | [] => []
  | x :: s' => if (x =? ESC)%N then [] else x :: up_to_escape s'
  end.

(** [sub] occurs in [s]. *)
Definition occurs (sub s : str) : Prop := exists a b, s = a ++ sub ++ b.

Definition SEP : str := [COLON; SPACE].

(** Does the separator occur in [s]? *)
Fixpoint has_sep (s : str) : bool :=
  match s with
  | a :: s' =>
      match s' with
      | b :: _ => (a =? COLON)%N && (b =? SPACE)%N || has_sep s'
      | [] => false
      end
  | [] => false
  end.

End LogFilter.

(** ** Running the app: [GradleRunCommand] *)

Module Run.

Open Scope string_scope.
Open Scope Z_scope.

(** What a call can raise. *)
Inductive exn : Type :=
| BriefcaseCommandError (msg : string)
| KeyboardInterrupt
| UnboundLocalError (name : string)
| OtherError (msg : string).

(** The calls [run_app] and [forward_ports] make to their collaborators: the
    Android SDK wrapper, the ADB wrapper of the device, the console, the
    host clock and the log streamer of the base command. *)
Inductive call : Type :=
| SelectTargetDevice (device_or_avd : option string)
| CreateEmulator
| VerifyAvd (avd : string)
| StartEmulator (avd : string) (extra_emulator_args : option (list string))
| ConsoleInfo (msg : string) (prefix : string)
| ConsoleError (msg : string) (prefix : option string)
| ForceStopApp (package : string)
| InstallApk (path : string)
| Forward (host_port device_port : Z)
| Reverse (device_port host_port : Z)
| AdbDatetime
| StartApp (package activity : string) (passthrough : list string)
| DatetimeNow
| Pidof (package : string)
| Sleep (microseconds : Z)
| Logcat (pid : option string)
| StreamAppLogs (pid : option string)
| LogcatTail (since : string)
| ForwardRemove (host_port : Z)
| ReverseRemove (device_port : Z)
| Kill.

(** A call that was made, and what it raised if it did. *)
Definition event := (call * option exn)%type.

(** Everything outside the command.  Each answer may depend on all that
    happened before the call. *)
Record world : Type := {
  raises : list event -> call -> option exn;
  target : list event -> option string * option string * option string;
  new_avd : list event -> string;
  emulator : list event -> string * string;
  device_clock : list event -> string;
  host_clock : list event -> Z;            (* microseconds *)
  pid_of : list event -> option string
}.

(** The calls made so far, oldest first, and the local variable [adb] of
    [run_app], unbound until line 431 assigns it. *)
Record state : Type := {
  history : list event;
  adb : option string
}.

Inductive outcome (A : Type) : Type :=
| Returns (a : A)
| Raises (e : exn)
| Unfinished.                  (* the polling loop was cut short *)

Arguments Returns {A} a.
Arguments Raises {A} e.
Arguments Unfinished {A}.

Definition M (A : Type) : Type := state -> outcome A * state.

Definition ret {A} (a : A) : M A := fun st => (Returns a, st).

Definition bind {A B} (m : M A) (k : A -> M B) : M B :=
  fun st =>
    match m st with
    | (Returns a, st') => k a st'
    | (Raises e, st') => (Raises e, st')
    | (Unfinished, st') => (Unfinished, st')
    end.

Definition raise {A} (e : exn) : M A := fun st => (Raises e, st).

Notation "x <- m ;; k" := (bind m (fun x => k))
  (at level 61, m at next level, right associativity).
Notation "m ;; k" := (bind m (fun _ => k))
  (at level 61, right associativity).

Definition log (st : state) (ev : event) : state :=
  {| history := history st ++ [ev]; adb := adb st |}.

(** A call to a collaborator: it is recorded, and it raises if the world
    says so, else it answers. *)
Definition extern {A} (w : world) (c : call) (answer : list event -> A) : M A :=
  fun st =>
    match raises w (history st) c with
    | Some e => (Raises e, log st (c, Some e))
    | None => (Returns (answer (history st)), log st (c, None))
    end.

Definition command (w : world) (c : call) : M unit := extern w c (fun _ => tt).

(** [try: body finally: final] *)
Definition try_finally {A} (body : M A) (final : M unit) : M A :=
  fun st =>
    match body st with
    | (Unfinished, st') => (Unfinished, st')
    | (r, st') =>
        match final st' with
        | (Returns _, st'') => (r, st'')
        | (Raises e, st'') => (Raises e, st'')
        | (Unfinished, st'') => (Unfinished, st'')
        end
    end.

(** A generator function made of the code before its single [yield] and the
    code after it, the [yield] standing outside any [try]. *)
Record generator : Type := {
  before_yield : M unit;
  after_yield : M unit
}.

(** [with contextlib.contextmanager(g)(...): body].  Entering runs the
    generator up to its [yield].  When the body ends normally the generator
    is resumed and runs to its end.  When the body raises, the exception is
    thrown into the generator at the [yield]; nothing there catches it, so it
    leaves the generator at once and the [with] statement raises it again:
    the code after the [yield] does not run. *)
Definition with_ {A} (g : generator) (body : M A) : M A :=
  fun st =>
    match before_yield g st with
    | (Returns _, st1) =>
        match body st1 with
        | (Returns a, st2) =>
            match after_yield g st2 with
            | (Returns _, st3) => (Returns a, st3)
            | (Raises e, st3) => (Raises e, st3)
            | (Unfinished, st3) => (Unfinished, st3)
            end
        | (Raises e, st2) => (Raises e, st2)
        | (Unfinished, st2) => (Unfinished, st2)
        end
    | (Raises e, st1) => (Raises e, st1)
    | (Unfinished, st1) => (Unfinished, st1)
    end.

(** [with self.console.wait_bar(msg): body]: the progress bar of the console
    changes neither the calls made nor the way the body ends. *)
Definition wait_bar {A} (msg : string) (body : M A) : M A := body.

(** [for port in ports: f(port)] *)
Fixpoint for_each (ports : list Z) (f : Z -> M unit) : M unit :=
  match ports with
  | [] => ret tt
  | port :: ports' => f port ;; for_each ports' f
  end.

(** Python's truth value of a pid: [None] and the empty text are false. *)
Definition truthy (pid : option string) : bool :=
  match pid with
  | Some s => negb (String.eqb s "")
  | None => false
  end.

Record AppConfig : Type := {
  app_name : string;
  package_name : string;
  module_name : string;
  test_mode : bool;
  bundle_path : string            (* [self.bundle_path(app)] *)
}.

(** [GradleMixin.binary_path] *)
Definition binary_path (app : AppConfig) : string :=
  bundle_path app ++ "/app/build/outputs/apk/debug/app-debug.apk".

Definition show (v : option string) : string :=
  match v with Some s => s | None => "None" end.

Section Command.

Variable w : world.

(** [GradleRunCommand.forward_ports] *)
Definition forward_ports (forward_ports reverse_ports : list Z) : generator :=
  {| before_yield :=
       for_each forward_ports (fun port => command w (Forward port port)) ;;
       for_each reverse_ports (fun port => command w (Reverse port port));
     after_yield :=
       for_each forward_ports (fun port => command w (ForwardRemove port)) ;;
       for_each reverse_ports (fun port => command w (ReverseRemove port)) |}.

(** [adb.kill()] in the [finally] clause: the name [adb] must be bound. *)
Definition adb_kill : M unit :=
  fun st =>
    match adb st with
    | Some _ => command w Kill st
    | None => (Raises (UnboundLocalError "adb"), st)
    end.

(** [adb = self.tools.android_sdk.adb(device=device)] *)
Definition bind_adb (device : string) : M unit :=
  fun st => (Returns tt, {| history := history st; adb := Some device |}).

(** Lines 463-468:
    [while not pid and datetime.datetime.now() < fail_time: ...].
    [fuel] bounds the number of rounds. *)
Fixpoint poll_pid (fuel : nat) (package : string) (fail_time : Z)
    (pid : option string) : M (option string) :=
  if truthy pid then ret pid
  else
    match fuel with
    | O => fun st => (Unfinished, st)
    | S fuel' =>
        now <- extern w DatetimeNow (host_clock w) ;;
        if now <? fail_time then
          pid' <- extern w (Pidof package) (pid_of w) ;;
          (if truthy pid' then ret tt else command w (Sleep 10000)) ;;
          poll_pid fuel' package fail_time pid'
        else ret pid
    end.

(** Lines 399-421: the device to run on, booting an emulator if need be. *)
Definition select_device (app : AppConfig) (device_or_avd : option string)
    (extra_emulator_args : option (list string)) : M (string * option string) :=
  t <- extern w (SelectTargetDevice device_or_avd) (target w) ;;
  let '(device, name, avd) := t in
  match device with
  | Some d => ret (d, name)
  | None =>
      avd' <- match avd with
              | None => extern w CreateEmulator (new_avd w)
              | Some a => command w (VerifyAvd a) ;; ret a
              end ;;
      let extra :=
        match extra_emulator_args with
        | Some ((_ :: _) as args) => " (with " ++ String.concat " " args ++ ")"
        | _ => ""
        end in
      command w (ConsoleInfo ("Starting emulator " ++ avd' ++ extra ++ "...")
                             (app_name app)) ;;
      e <- extern w (StartEmulator avd' extra_emulator_args) (emulator w) ;;
      ret (fst e, Some (snd e))
  end.

(** Lines 452-468: the device time, the launch, and the wait for the pid. *)
Definition launch (fuel : nat) (package : string) (passthrough : list string)
    : M (string * option string) :=
  device_start_time <- extern w AdbDatetime (device_clock w) ;;
  command w (StartApp package "org.beeware.android.MainActivity" passthrough) ;;
  now <- extern w DatetimeNow (host_clock w) ;;
  let fail_time := now + 5000000 in
  pid <- poll_pid fuel package fail_time None ;;
  ret (device_start_time, pid).

Definition problem_starting (app : AppConfig) : exn :=
  BriefcaseCommandError ("Problem starting app '" ++ app_name app ++ "'").

(** Lines 470-500: follow the log of the process, or show the log since the
    launch and give up. *)
Definition follow_or_fail (app : AppConfig) (device_start_time : string)
    (pid : option string) : M unit :=
  if truthy pid then
    command w (ConsoleInfo
      "Following device log output (type CTRL-C to stop log)..."
      (app_name app)) ;;
    command w (Logcat pid) ;;
    command w (StreamAppLogs pid)
  else
    command w (ConsoleError "Unable to find PID for app" (Some (app_name app))) ;;
    command w (ConsoleError "Logs for launch attempt follow..." None) ;;
    command w (ConsoleError
      "==========================================================================="
      None) ;;
    command w (LogcatTail device_start_time) ;;
    raise (problem_starting app).

Definition starting_message (app : AppConfig) (device : string)
    (name : option string) : string :=
  "Starting " ++ (if test_mode app then "test suite" else "app") ++ " on "
    ++ show name ++ " (device ID " ++ device ++ ")".

Definition package_of (app : AppConfig) : string :=
  package_name app ++ "." ++ module_name app.

(** Lines 438-444, after [adb] is bound: stop the old version, install the
    new one. *)
Definition install (app : AppConfig) : M unit :=
  command w (ConsoleInfo "Installing app..." (app_name app)) ;;
  wait_bar "Stopping old versions of the app..."
    (command w (ForceStopApp (package_of app))) ;;
  wait_bar "Installing new app version..."
    (command w (InstallApk (binary_path app))).

(** Lines 451-500: the body of the [with self.forward_ports(...)]. *)
Definition launch_and_follow (fuel : nat) (app : AppConfig)
    (passthrough : list string) : M unit :=
  r <- wait_bar ("Launching " ++ (if test_mode app then "test suite" else "app")
                   ++ "...")
         (launch fuel (package_of app) passthrough) ;;
  follow_or_fail app (fst r) (snd r).

Definition or_empty (ports : option (list Z)) : list Z :=
  match ports with Some l => l | None => [] end.

(** Lines 424-500: the body of the [try]. *)
Definition session (fuel : nat) (app : AppConfig) (passthrough : list string)
    (device : string) (name : option string)
    (forward reverse : option (list Z)) : M unit :=
  command w (ConsoleInfo (starting_message app device name) (app_name app)) ;;
  bind_adb device ;;
  install app ;;
  with_ (forward_ports (or_empty forward) (or_empty reverse))
    (launch_and_follow fuel app passthrough).

(** Lines 502-505: the [finally] clause. *)
Definition shutdown (shutdown_on_exit : bool) : M unit :=
  if shutdown_on_exit then wait_bar "Stopping emulator..." adb_kill else ret tt.

(** [GradleRunCommand.run_app] *)
Definition run_app (fuel : nat) (app : AppConfig) (passthrough : list string)
    (device_or_avd : option string) (extra_emulator_args : option (list string))
    (shutdown_on_exit : bool) (forward reverse : option (list Z)) : M unit :=
  d <- select_device app device_or_avd extra_emulator_args ;;
  try_finally
    (session fuel app passthrough (fst d) (snd d) forward reverse)
    (shutdown shutdown_on_exit).

End Command.

(** *** Reading a history *)

Inductive direction : Type := HostToDevice | DeviceToHost.

Definition mapping := (direction * Z)%type.

Definition mapping_eqb (a b : mapping) : bool :=
  match fst a, fst b with
  | HostToDevice, HostToDevice | DeviceToHost, DeviceToHost => snd a =? snd b
  | _, _ => false
  end.

(** The port mappings in place on the device after the calls of a history:
    a [forward] or [reverse] that returned puts one in place, a
    [forward_remove] or [reverse_remove] that returned takes it away. *)
Fixpoint active_from (acc : list mapping) (h : list event) : list mapping :=
  match h with
  | [] => acc
  | (Forward p _, None) :: h' => active_from (acc ++ [(HostToDevice, p)]) h'
  | (Reverse p _, None) :: h' => active_from (acc ++ [(DeviceToHost, p)]) h'
  | (ForwardRemove p, None) :: h' =>
      active_from (filter (fun m => negb (mapping_eqb m (HostToDevice, p))) acc) h'
  | (ReverseRemove p, None) :: h' =>
      active_from (filter (fun m => negb (mapping_eqb m (DeviceToHost, p))) acc) h'
  | _ :: h' => active_from acc h'
  end.

Definition active (h : list event) : list mapping := active_from [] h.

(** The calls of a history, whatever they raised. *)
Definition calls (h : list event) : list call := map fst h.

Definition is_kill (c : call) : bool :=
  match c with Kill => true | _ => false end.

(** Opening or following the log stream of the process. *)
Definition is_streaming (c : call) : bool :=
  match c with Logcat _ | StreamAppLogs _ => true | _ => false end.

(** The removals the teardown of [forward_ports] has to make, in its order. *)
Definition removals (forward reverse : list Z) : list call :=
  map ForwardRemove forward ++ map ReverseRemove reverse.

Definition fresh : state := {| history := []; adb := None |}.

(** The state after some more calls. *)
Definition extend (st : state) (d : list event) : state :=
  {| history := history st ++ d; adb := adb st |}.

(** [m] leaves [adb] alone and makes only calls that satisfy [q]. *)
Definition steps {A} (q : call -> bool) (m : M A) : Prop :=
  forall st r st', m st = (r, st') ->
  exists d, st' = extend st d /\ Forall (fun ev : event => q (fst ev) = true) d.

Definition is_removal (c : call) : bool :=
  match c with ForwardRemove _ | ReverseRemove _ => true | _ => false end.

Definition is_selection (c : call) : bool :=
  match c with SelectTargetDevice _ => true | _ => false end.

Definition is_sleeping (c : call) : bool :=
  match c with Sleep _ => true | _ => false end.

(** The removal of one given host port. *)
Definition removes_forward (port : Z) (c : call) : bool :=
  match c with ForwardRemove p => p =? port | _ => false end.

(** The calls of the shutdown step. *)
Definition shutdown_calls (shutdown_on_exit : bool) : list call :=
  if shutdown_on_exit then [Kill] else [].

(** Neither [adb.kill()] nor the log stream. *)
Definition quiet (c : call) : bool := negb (is_kill c) && negb (is_streaming c).

(** [m] comes to an end from every state. *)
Definition finishes {A} (m : M A) : Prop := forall st, fst (m st) <> Unfinished.

(** A call that returned. *)
Definition ok (c : call) : event := (c, None).

(** What the wait for the pid adds to a history [h], and the pid it ends
    with: rounds of a clock reading before [fail_time], a poll that finds
    nothing and a sleep of 10 ms; then either a clock reading at or past
    [fail_time], or a clock reading before it and a poll that answers. *)
Inductive waited (w : world) (package : string) (fail_time : Z)
  : list event -> option string -> list event -> option string -> Prop :=
| waited_timeout h pid :
    fail_time <= host_clock w h ->
    waited w package fail_time h pid (h ++ [ok DatetimeNow]) pid
| waited_found h pid :
    host_clock w h < fail_time ->
    truthy (pid_of w (h ++ [ok DatetimeNow])) = true ->
    waited w package fail_time h pid
           (h ++ [ok DatetimeNow; ok (Pidof package)])
           (pid_of w (h ++ [ok DatetimeNow]))
| waited_round h pid h' pid' :
    host_clock w h < fail_time ->
    truthy (pid_of w (h ++ [ok DatetimeNow])) = false ->
    waited w package fail_time
           (h ++ [ok DatetimeNow; ok (Pidof package); ok (Sleep 10000)])
           (pid_of w (h ++ [ok DatetimeNow])) h' pid' ->
    waited w package fail_time h pid h' pid'.

(** Lines 399-450 as they run when nothing raises: the device, the [adb]
    wrapper, the installation and the port mappings. *)
Definition setup (w : world) (app : AppConfig) (device_or_avd : option string)
    (extra_emulator_args : option (list string))
    (forward reverse : option (list Z)) : M unit :=
  d <- select_device w app device_or_avd extra_emulator_args ;;
  command w (ConsoleInfo (starting_message app (fst d) (snd d)) (app_name app)) ;;
  bind_adb (fst d) ;;
  install w app ;;
  before_yield (forward_ports w (or_empty forward) (or_empty reverse)).


(** The host clock never runs backwards, and a sleep of 10 ms that returns
    takes at least that long. *)
Definition clock_runs (w : world) : Prop :=
  (forall h ev, host_clock w h <= host_clock w (h ++ [ev])) /\
  (forall h, host_clock w h + 10000 <= host_clock w (h ++ [ok (Sleep 10000)])).

(** *** Some worlds *)

Definition is_sleep (ev : event) : bool :=
  match fst ev with Sleep _ => true | _ => false end.

Definition is_poll (ev : event) : bool :=
  match fst ev with Pidof _ => true | _ => false end.

(** A running emulator on which nothing fails and the app never shows up; the
    host clock moves on by [tick] microseconds over every sleep. *)
Definition silent_device (tick : Z) : world :=
  {| raises := fun _ _ => None;
     target := fun _ => (Some "emulator-5554", Some "Pixel", None);
     new_avd := fun _ => "beePhone";
     emulator := fun _ => ("emulator-5554", "@beePhone");
     device_clock := fun _ => "01-01 00:00:00.000";
     host_clock := fun h => tick * Z.of_nat (length (filter is_sleep h));
     pid_of := fun _ => None |}.

(** The same as [w], the app showing up once [polls] polls have missed it. *)
Definition starting (polls : nat) (pid : string) (w : world) : world :=
  {| raises := raises w;
     target := target w;
     new_avd := new_avd w;
     emulator := emulator w;
     device_clock := device_clock w;
     host_clock := host_clock w;
     pid_of := fun h =>
       if (polls <=? length (filter is_poll h))%nat then Some pid else None |}.

(** The same as [w], the calls that satisfy [p] raising [e]. *)
Definition failing (p : call -> bool) (e : exn) (w : world) : world :=
  {| raises := fun h c => if p c then Some e else raises w h c;
     target := target w;
     new_avd := new_avd w;
     emulator := emulator w;
     device_clock := device_clock w;
     host_clock := host_clock w;
     pid_of := pid_of w |}.

Definition helloworld : AppConfig :=
  {| app_name := "helloworld";
     package_name := "com.example";
     module_name := "helloworld";
     test_mode := false;
     bundle_path := "build/helloworld/android/gradle" |}.

End Run.

(** ** App names: [safe_formal_name] *)

Module Names.
Import Re.

(** [re.sub(pattern, repl, text)]: the text is read from the left; where the
    pattern matches, its first match is replaced and reading goes on after
    it; elsewhere the character is kept.  The patterns of this module match
    no empty text, and a match that reads nothing counts as none. *)
Fixpoint sub_from (fuel : nat) (r : regex) (repl s : str) : str :=
  match fuel with
  | O => s
  | S fuel' =>
      match s with
      | [] => []
      | x :: s' =>
          match hd_error (matches r s []) with
          | Some t =>
              if (length (fst t) <? length s)%nat
              then repl ++ sub_from fuel' r repl (fst t)
              else x :: sub_from fuel' r repl s'
          | None => x :: sub_from fuel' r repl s'
          end
      end
  end.

Definition re_sub (r : regex) (repl s : str) : str :=
  sub_from (length s) r repl s.

(** [text.lstrip()], [text.rstrip()] and [text.strip()] for a given notion
    of whitespace. *)
Fixpoint lstrip (space : char -> bool) (s : str) : str :=
  match s with
  | x :: s' => if space x then lstrip space s' else s
  | [] => []
  end.

Definition rstrip (space : char -> bool) (s : str) : str :=
  rev (lstrip space (rev s)).

Definition strip (space : char -> bool) (s : str) : str :=
  rstrip space (lstrip space s).

(** The class [[!/\\:<>"\?\*\|]]: the characters ! / \ : < > " ? * | *)
Definition forbidden (c : char) : bool :=
  existsb (N.eqb c) [33; 47; 92; 58; 60; 62; 34; 63; 42; 124]%N.

Section Whitespace.

(** What Python counts as whitespace: the characters [\s] matches in a text
    pattern, which are those [str.strip()] removes. *)
Variable isspace : char -> bool.

(** [\s+] *)
Definition spaces_re : regex := Cat (Class isspace) (Star (Class isspace)).

Definition safe_formal_name (name : str) : str :=
  strip isspace
    (re_sub spaces_re [SPACE] (re_sub (Class forbidden) [] name)).

(** A run of whitespace becomes one space: [in_run] says that the character
    before was whitespace. *)
Fixpoint squeeze (in_run : bool) (s : str) : str :=
  match s with
  | [] => []
  | x :: s' =>
      if isspace x
      then if in_run then squeeze true s' else SPACE :: squeeze true s'
      else x :: squeeze false s'
  end.

(** Whitespace comes one character at a time and is the space character;
    [after_space] says that the character before was whitespace (or that the
    text starts here). *)
Fixpoint single_spaced (after_space : bool) (s : str) : bool :=
  match s with
  | [] => true
  | x :: s' =>
      if isspace x
      then negb after_space && (x =? SPACE)%N && single_spaced true s'
      else single_spaced false s'
  end.

(** Not whitespace. *)
Definition visible (x : char) : bool := negb (isspace x).

(** A name [safe_formal_name] has nothing to do on. *)
Definition safe (s : str) : Prop :=
  Forall (fun x => forbidden x = false) s /\
  single_spaced true s = true /\
  (forall a x, s = a ++ [x] -> isspace x = false).

End Whitespace.

(** Python's whitespace characters ([str.isspace]). *)
Definition unicode_space (c : char) : bool :=
  in_range 9 13 c || in_range 28 32 c || (c =? 133)%N || (c =? 160)%N
  || (c =? 5760)%N || in_range 8192 8202 c || (c =? 8232)%N || (c =? 8233)%N
  || (c =? 8239)%N || (c =? 8287)%N || (c =? 12288)%N.

End Names.

(** ** Building and packaging: [GradleMixin], [GradleBuildCommand],
    [GradlePackageCommand] *)

Module Build.

Open Scope string_scope.

(** A dict literal with text keys, and [d[key]]: [None] stands for
    [KeyError]. *)
Fixpoint dict_get {V : Type} (d : list (string * V)) (key : string) : option V :=
  match d with
  | [] => None
  | (k, v) :: d' => if String.eqb k key then Some v else dict_get d' key
  end.

(** What the commands read of the app and of their surroundings. *)
Record App : Type := {
  app_name : string;
  formal_name : string;
  version : string;
  packaging_format : string;
  main_module : string;                (* [app.main_module()] *)
  bundle_path : string;                (* [self.bundle_path(app)] *)
  metadata_resource_path : string      (* [self.metadata_resource_path(app)] *)
}.

Record Tools : Type := {
  host_os : string;                    (* [self.tools.host_os] *)
  is_deep_debug : bool;                (* [self.tools.console.is_deep_debug] *)
  dist_path : string                   (* [self.dist_path] *)
}.

(** [GradleMixin.packaging_formats] and [default_packaging_format] *)
Definition packaging_formats : list string := ["aab"; "apk"; "debug-apk"].
Definition default_packaging_format : string := "aab".

(** The dict of [distribution_path]. *)
Definition extensions : list (string * string) :=
  [("aab", "aab"); ("apk", "apk"); ("debug-apk", "debug.apk")].

(** The dict of [package_app]: the Gradle task and the artefact it makes. *)
Definition release_builds : list (string * (string * string)) :=
  [("aab", ("bundleRelease", "bundle/release/app-release.aab"));
   ("apk", ("assembleRelease", "apk/release/app-release-unsigned.apk"));
   ("debug-apk", ("assembleDebug", "apk/debug/app-debug.apk"))].

(** [GradleMixin.distribution_path]; [None] is the [KeyError] of the
    lookup. *)
Definition distribution_path (tools : Tools) (app : App) : option string :=
  match dict_get extensions (packaging_format app) with
  | Some extension =>
      Some (dist_path tools ++ "/" ++ formal_name app ++ "-" ++ version app
              ++ "." ++ extension)
  | None => None
  end.

Inductive exn : Type :=
| CalledProcessError
| BriefcaseCommandError (msg : string)
| KeyError (key : string)
| OtherError (msg : string).

(** The calls to the console, the file system, the SDK and Gradle. *)
Inductive call : Type :=
| ConsoleInfo (msg prefix : string)
| WriteText (path content : string)
| VerifyEmulator
| SubprocessRun (args : list string) (cwd : string)
| Move (src dst : string).

Definition event := (call * option exn)%type.

(** Which calls raise, given the calls made before. *)
Definition world := list event -> call -> option exn.

Inductive outcome (A : Type) : Type :=
| Returns (a : A)
| Raises (e : exn).

Arguments Returns {A} a.
Arguments Raises {A} e.

(** A computation over the history of calls, oldest first. *)
Definition M (A : Type) : Type := list event -> outcome A * list event.

Definition ret {A} (a : A) : M A := fun h => (Returns a, h).

Definition raise {A} (e : exn) : M A := fun h => (Raises e, h).

Definition bind {A B} (m : M A) (k : A -> M B) : M B :=
  fun h =>
    match m h with
    | (Returns a, h') => k a h'
    | (Raises e, h') => (Raises e, h')
    end.

Notation "x <- m ;; k" := (bind m (fun x => k))
  (at level 61, m at next level, right associativity).
Notation "m ;; k" := (bind m (fun _ => k))
  (at level 61, right associativity).

Definition command (w : world) (c : call) : M unit :=
  fun h =>
    match w h c with
    | Some e => (Raises e, (h ++ [(c, Some e)])%list)
    | None => (Returns tt, (h ++ [(c, None)])%list)
    end.

(** [try: body except subprocess.CalledProcessError as e: raise error from e] *)
Definition reraise_called_process_error {A} (body : M A) (error : exn) : M A :=
  fun h =>
    match body h with
    | (Raises CalledProcessError, h') => (Raises error, h')
    | other => other
    end.

(** [d[key]] in a computation. *)
Definition lookup {V} (d : list (string * V)) (key : string) : M V :=
  match dict_get d key with
  | Some v => ret v
  | None => raise (KeyError key)
  end.

(** [with self.console.wait_bar(msg): body]: the progress bar changes
    neither the calls made nor the way the body ends. *)
Definition wait_bar {A} (msg : string) (body : M A) : M A := body.

Section Commands.

Variable w : world.
Variable tools : Tools.

(** The command line of [run_gradle]. *)
Definition gradle_command (app : App) (args : list string) : list string :=
  let gradlew :=
    if String.eqb (host_os tools) "Windows" then "gradlew.bat" else "gradlew" in
  ([(bundle_path app ++ "/" ++ gradlew)%string; "--console"; "plain"]
     ++ (if is_deep_debug tools then ["--debug"] else [])
     ++ args)%list.

(** [GradleMixin.run_gradle] *)
Definition run_gradle (app : App) (args : list string) : M unit :=
  command w VerifyEmulator ;;
  command w (SubprocessRun (gradle_command app args) (bundle_path app)).

(** The text [update_app_metadata] writes: three lines, the second one the
    [main_module] string resource. *)
Definition metadata_xml (main : string) : string :=
  "<resources>" ++ String (ascii_of_nat 10) "    <string name="
    ++ String (ascii_of_nat 34) "main_module" ++ String (ascii_of_nat 34) ">"
    ++ main ++ "</string>"
    ++ String (ascii_of_nat 10) "</resources>"
    ++ String (ascii_of_nat 10) "".

(** [GradleBuildCommand.update_app_metadata]: opening the file for writing
    and writing the text are one call. *)
Definition update_app_metadata (app : App) : M unit :=
  wait_bar "Setting main module..."
    (command w (WriteText (metadata_resource_path app)
                          (metadata_xml (main_module app)))).

Definition building_failed : exn :=
  BriefcaseCommandError "Error while building project.".

(** [GradleBuildCommand.build_app] *)
Definition build_app (app : App) : M unit :=
  command w (ConsoleInfo "Updating app metadata..." (app_name app)) ;;
  update_app_metadata app ;;
  command w (ConsoleInfo "Building Android APK..." (app_name app)) ;;
  wait_bar "Building..."
    (reraise_called_process_error (run_gradle app ["assembleDebug"])
                                  building_failed).

(** [GradlePackageCommand.package_app] *)
Definition package_app (app : App) : M unit :=
  command w
    (ConsoleInfo "Building Android App Bundle and APK in release mode..."
                 (app_name app)) ;;
  build <- wait_bar "Bundling..."
             (build <- lookup release_builds (packaging_format app) ;;
              reraise_called_process_error (run_gradle app [fst build])
                                           building_failed ;;
              ret build) ;;
  match distribution_path tools app with
  | Some destination =>
      command w
        (Move (bundle_path app ++ "/app/build/outputs/" ++ snd build) destination)
  | None => raise (KeyError (packaging_format app))
  end.

End Commands.

(** A call that returned. *)
Definition ok (c : call) : event := (c, None).

(** What the [except] clause of the commands makes of an error. *)
Definition reraised (e : exn) : exn :=
  match e with
  | CalledProcessError => BriefcaseCommandError "Error while building project."
  | _ => e
  end.

Definition is_gradle (c : call) : bool :=
  match c with VerifyEmulator | SubprocessRun _ _ => true | _ => false end.

Definition is_move (c : call) : bool :=
  match c with Move _ _ => true | _ => false end.

(** The calls of a history, whatever they raised. *)
Definition calls (h : list event) : list call := map fst h.

(** Only the SDK and Gradle raise [CalledProcessError]. *)
Definition subprocess_errors (w : world) : Prop :=
  forall h c, w h c = Some CalledProcessError -> is_gradle c = true.

(** A world where Gradle fails. *)
Definition gradle_fails : world :=
  fun _ c => match c with SubprocessRun _ _ => Some CalledProcessError | _ => None end.

(** A world where nothing fails. *)
Definition all_well : world := fun _ _ => None.

Definition linux : Tools :=
  {| host_os := "Linux"; is_deep_debug := false; dist_path := "dist" |}.

Definition hello (format : string) : App :=
  {| app_name := "helloworld";
     formal_name := "Hello World";
     version := "1.2.3";
     packaging_format := format;
     main_module := "helloworld";
     bundle_path := "build/helloworld/android/gradle";
     metadata_resource_path :=
       "build/helloworld/android/gradle/app/src/main/res/values/briefcase.xml" |}.

End Build.

(** ** The version code of the template context *)

Module Version.

Definition ZERO : char := 48%N.    (* 0 *)
Definition MINUS : char := 45%N.   (* - *)

(** The decimal digits of [n], most significant first, in front of [acc]. *)
Fixpoint decimal_aux (fuel : nat) (n : N) (acc : str) : str :=
  match fuel with
  | O => acc
  | S fuel' =>
      let acc' := (ZERO + n mod 10)%N :: acc in
      if (n / 10 =? 0)%N then acc' else decimal_aux fuel' (n / 10)%N acc'
  end.

(** [str(n)] for [n >= 0]: a number has no more decimal than binary
    digits. *)
Definition decimal (n : N) : str :=
  decimal_aux (S (N.to_nat (N.log2 n))) n [].

(** [format(z, "0<width>d")]: the sign, then zeros up to the width, then the
    digits; [format(z, "d")] is width 0. *)
Definition format_d (width : nat) (z : Z) : str :=
  let digits := decimal (Z.abs_N z) in
  let sign := if (z <? 0)%Z then [MINUS] else [] in
  sign ++ repeat ZERO (width - length sign - length digits) ++ digits.

(** [(list(parsed.release) + [0, 0])[:3]] *)
Definition version_triple (release : list N) : list N :=
  firstn 3 (release ++ [0; 0]%N).

(** The [version_code] of [output_format_template_context].  [explicit] is
    [app.version_code] where the app has one, [release] is
    [parsed_version(app.version).release] and [build] is
    [int(getattr(app, "build", "0"))]; [None] is the [IndexError] of [v[2]]. *)
Definition version_code (explicit : option str) (release : list N) (build : Z)
  : option str :=
  match explicit with
  | Some code => Some code
  | None =>
      let v := version_triple release in
      match nth_error v 0, nth_error v 1, nth_error v 2 with
      | Some v0, Some v1, Some v2 =>
          Some (Names.lstrip (N.eqb ZERO)
                  (format_d 0 (Z.of_N v0) ++ format_d 2 (Z.of_N v1)
                     ++ format_d 2 (Z.of_N v2) ++ format_d 2 build))
      | _, _, _ => None
      end
  end.

(** [int(code)] for a text of digits. *)
Definition value (s : str) : N :=
  fold_left (fun acc c => (acc * 10 + (c - ZERO))%N) s 0%N.

Definition is_digit (c : char) : bool := ((ZERO <=? c) && (c <=? 57))%N.

(** The order of versions: by major, minor, micro and then build number. *)
Definition older (a b : N * N * N * Z) : Prop :=
  let '(a0, a1, a2, ab) := a in
  let '(b0, b1, b2, bb) := b in
  (a0 < b0)%N \/
  (a0 = b0 /\ ((a1 < b1)%N \/
  (a1 = b1 /\ ((a2 < b2)%N \/
  (a2 = b2 /\ (ab < bb)%Z))))).

End Version.

(** ** The permissions of the template context *)

Module Permissions.

Open Scope string_scope.

(** A Python dict with text keys, in insertion order. *)
Definition dict (V : Type) : Type := list (string * V).

(** [d[key] = v]: a key the dict has keeps its place. *)
Fixpoint dict_set {V : Type} (d : dict V) (key : string) (v : V) : dict V :=
  match d with
  | [] => [(key, v)]
  | (k, v') :: d' =>
      if String.eqb k key then (k, v) :: d' else (k, v') :: dict_set d' key v
  end.

(** [d.update(other)] *)
Definition dict_update {V : Type} (d other : dict V) : dict V :=
  fold_left (fun d kv => dict_set d (fst kv) (snd kv)) other d.

(** The two dicts under construction: permissions and features. *)
Definition context : Type := (dict bool * dict bool)%type.

(** The result: the context, or the key of a [KeyError]. *)
Definition result : Type := (string + context)%type.

Definition and_then (r : result) (k : context -> result) : result :=
  match r with
  | inl key => inl key
  | inr c => k c
  end.

Local Notation "c <- r ;; k" := (and_then r (fun c => k))
  (at level 61, r at next level, right associativity).

Definition permit (permission : string) (c : context) : context :=
  (dict_set (fst c) permission true, snd c).

Definition feature_unrequired (feature : string) (c : context) : context :=
  (fst c, dict_set (snd c) feature false).

(** The block of the camera. *)
Definition camera (c : context) : context :=
  feature_unrequired "android.hardware.camera.autofocus"
    (feature_unrequired "android.hardware.camera.external"
       (feature_unrequired "android.hardware.camera.front"
          (feature_unrequired "android.hardware.camera.any"
             (feature_unrequired "android.hardware.camera"
                (permit "android.permission.CAMERA" c))))).

(** The block of each of the three location permissions. *)
Definition location (permission : string) (c : context) : context :=
  feature_unrequired "android.hardware.location.gps"
    (feature_unrequired "android.hardware.location.network"
       (permit permission c)).

(** [if b: block] *)
Definition apply_if (b : bool) (block : context -> context) (c : context)
  : context :=
  if b then block c else c.

Section Truth.

(** The values of [x_permissions] and their truth value ([bool(v)]). *)
Variable Value : Type.
Variable truthy : Value -> bool.

(** [if x_permissions[key]: block] *)
Definition when_ (x_permissions : dict Value) (key : string)
    (block : context -> context) (c : context) : result :=
  match Build.dict_get x_permissions key with
  | None => inl key
  | Some v => inr (apply_if (truthy v) block c)
  end.

(** The function up to the two [update] calls. *)
Definition cross_platform (x_permissions : dict Value) : result :=
  let permissions :=
    [("android.permission.INTERNET", true);
     ("android.permission.ACCESS_NETWORK_STATE", true)] in
  let features := [] in
  c <- when_ x_permissions "camera" camera (permissions, features) ;;
  c <- when_ x_permissions "microphone"
         (permit "android.permission.RECORD_AUDIO") c ;;
  c <- when_ x_permissions "fine_location"
         (location "android.permission.ACCESS_FINE_LOCATION") c ;;
  c <- when_ x_permissions "coarse_location"
         (location "android.permission.ACCESS_COARSE_LOCATION") c ;;
  c <- when_ x_permissions "background_location"
         (location "android.permission.ACCESS_BACKGROUND_LOCATION") c ;;
  when_ x_permissions "photo_library"
    (permit "android.permission.READ_MEDIA_VISUAL_USER_SELECTED") c.

(** [GradleCreateCommand.permissions_context]: [permission] is
    [app.permission] and [feature] is [app.feature] where the app has the
    attribute. *)
Definition permissions_context (permission : dict bool)
    (feature : option (dict bool)) (x_permissions : dict Value) : result :=
  c <- cross_platform x_permissions ;;
  inr (dict_update (fst c) permission,
       dict_update (snd c) (match feature with Some d => d | None => [] end)).

(** The keys of [x_permissions] the function reads, in the order it reads
    them. *)
Definition cross_platform_keys : list string :=
  ["camera"; "microphone"; "fine_location"; "coarse_location";
   "background_location"; "photo_library"].

(** Whether the cross-platform permission [key] is asked for. *)
Definition asked (x_permissions : dict Value) (key : string) : bool :=
  match Build.dict_get x_permissions key with
  | Some v => truthy v
  | None => false
  end.

End Truth.

(** The Android permission each cross-platform permission stands for. *)
Definition android_permission : list (string * string) :=
  [("camera", "android.permission.CAMERA");
   ("microphone", "android.permission.RECORD_AUDIO");
   ("fine_location", "android.permission.ACCESS_FINE_LOCATION");
   ("coarse_location", "android.permission.ACCESS_COARSE_LOCATION");
   ("background_location", "android.permission.ACCESS_BACKGROUND_LOCATION");
   ("photo_library", "android.permission.READ_MEDIA_VISUAL_USER_SELECTED")].

Definition camera_features : list string :=
  ["android.hardware.camera"; "android.hardware.camera.any";
   "android.hardware.camera.front"; "android.hardware.camera.external";
   "android.hardware.camera.autofocus"].

Definition location_feature_names : list string :=
  ["android.hardware.location.network"; "android.hardware.location.gps"].

Definition keys {V : Type} (d : dict V) : list string := map fst d.

(** The value a dict built by assignments in the order of [d] has at
    [key]: the last one assigned. *)
Definition assigned {V : Type} (d : dict V) (key : string) : option V :=
  Build.dict_get (rev d) key.

(** An app that asks for the camera and the fine location, takes the camera
    permission back, adds a permission of its own and requires GPS. *)
Definition sample_x : dict bool :=
  [("camera", true); ("microphone", false); ("fine_location", true);
   ("coarse_location", false); ("background_location", false);
   ("photo_library", false)].

Definition sample_permission : dict bool :=
  [("android.permission.CAMERA", false); ("android.permission.NFC", true)].

Definition sample_feature : dict bool :=
  [("android.hardware.location.gps", true)].

Definition sample_permissions : dict bool :=
  [("android.permission.INTERNET", true);
   ("android.permission.ACCESS_NETWORK_STATE", true);
   ("android.permission.CAMERA", false);
   ("android.permission.ACCESS_FINE_LOCATION", true);
   ("android.permission.NFC", true)].

Definition sample_features : dict bool :=
  [("android.hardware.camera", false);
   ("android.hardware.camera.any", false);
   ("android.hardware.camera.front", false);
   ("android.hardware.camera.external", false);
   ("android.hardware.camera.autofocus", false);
   ("android.hardware.location.network", false);
   ("android.hardware.location.gps", true)].

End Permissions.

(** ** The port mappings and the run on their other paths *)

Module Ports.
Import Run.

Open Scope string_scope.
Open Scope Z_scope.

(** The calls the generator of [forward_ports] makes before its [yield], in
    its order. *)
Definition establishments (forward reverse : list Z) : list call :=
  map (fun port => Forward port port) forward
    ++ map (fun port => Reverse port port) reverse.

(** Is the mapping one of those [forward_ports] is asked for? *)
Definition requested (forward reverse : list Z) (m : mapping) : bool :=
  match fst m with
  | HostToDevice => existsb (Z.eqb (snd m)) forward
  | DeviceToHost => existsb (Z.eqb (snd m)) reverse
  end.

(** The calls of lines 471-486, which follow the log of the process. *)
Definition following (app : AppConfig) (pid : option string) : list call :=
  [ConsoleInfo "Following device log output (type CTRL-C to stop log)..."
               (app_name app);
   Logcat pid;
   StreamAppLogs pid].

(** Creating, checking or booting an emulator. *)
Definition is_emulator_call (c : call) : bool :=
  match c with
  | CreateEmulator | VerifyAvd _ | StartEmulator _ _ => true
  | _ => false
  end.

(** The calls a computation has added to the history of [st]. *)
Definition added (st st' : state) : list event :=
  skipn (length (history st)) (history st').

(** The message of line 426, which announces the start of the app or of
    the test suite. *)
Definition is_start_announcement (c : call) : bool :=
  match c with
  | ConsoleInfo msg _ =>
      String.prefix "Starting app on " msg
      || String.prefix "Starting test suite on " msg
  | _ => false
  end.

(** The same as [w], but no device is running and no AVD is chosen. *)
Definition without_device (w : world) : world :=
  {| raises := raises w;
     target := fun _ => (None, None, None);
     new_avd := new_avd w;
     emulator := emulator w;
     device_clock := device_clock w;
     host_clock := host_clock w;
     pid_of := pid_of w |}.

End Ports.

(** ** Escape sequences in a line *)

Module Escapes.
Import Re.

(** The text from each position of [s] on, the whole of it first. *)
Fixpoint tails (s : str) : list str :=
  s :: match s with
       | [] => []
       | _ :: s' => tails s'
       end.

(** Does [s] start with a text the escape pattern matches? *)
Definition starts_escape_sequence (ansi : regex) (s : str) : bool :=
  match matches ansi s [] with
  | [] => false
  | _ :: _ => true
  end.

(** No escape sequence starts at any position of [s]. *)
Definition no_escape_sequence (ansi : regex) (s : str) : bool :=
  forallb (fun t => negb (starts_escape_sequence ansi t)) (tails s).

End Escapes.

(** * Facts *)

Lemma str_eqb_eq (a b : str) : str_eqb a b = true <-> a = b.
Proof.
  unfold str_eqb. destruct (list_eq_dec N.eq_dec a b); split; congruence.
Qed.

Lemma first_some_app {A B} (f : A -> option B) (l1 l2 : list A) :
  first_some f (l1 ++ l2) =
  match first_some f l1 with Some y => Some y | None => first_some f l2 end.
Proof.
  induction l1 as [|x l1 IH]; simpl; [reflexivity|].
  destruct (f x); [reflexivity | exact IH].
Qed.

Lemma first_some_map {A B C} (g : A -> B) (f : B -> option C) (l : list A) :
  first_some f (map g l) = first_some (fun x => f (g x)) l.
Proof.
  induction l as [|x l IH]; simpl; [reflexivity|].
  destruct (f (g x)); [reflexivity | exact IH].
Qed.

Lemma first_some_ext {A B} (f g : A -> option B) (l : list A) :
  (forall x, In x l -> f x = g x) -> first_some f l = first_some g l.
Proof.
  induction l as [|x l IH]; simpl; intros H; [reflexivity|].
  rewrite (H x) by (left; reflexivity).
  destruct (g x); [reflexivity|]. apply IH. intros y Hy. apply H. right. exact Hy.
Qed.

Lemma first_some_In {A B} (f : A -> option B) (l : list A) (y : B) :
  first_some f l = Some y -> exists x, In x l /\ f x = Some y.
Proof.
  induction l as [|x l IH]; simpl; [discriminate|].
  destruct (f x) eqn:E.
  - intros H. inversion H; subst. exists x. split; [left; reflexivity | exact E].
  - intros H. destruct (IH H) as [x' [Hin Hf]]. exists x'. split; [right|]; assumption.
Qed.

Lemma hd_error_flat_map {A B} (f : A -> list B) (l : list A) :
  hd_error (flat_map f l) = first_some (fun x => hd_error (f x)) l.
Proof.
  induction l as [|x l IH]; simpl; [reflexivity|].
  destruct (f x) as [|y ys]; simpl; [exact IH | reflexivity].
Qed.

Lemma hd_error_map {A B} (g : A -> B) (l : list A) :
  hd_error (map g l) = option_map g (hd_error l).
Proof. destruct l; reflexivity. Qed.

Lemma option_map_first_some {A B C} (g : B -> C) (f : A -> option B) (l : list A) :
  option_map g (first_some f l) = first_some (fun x => option_map g (f x)) l.
Proof.
  induction l as [|x l IH]; simpl; [reflexivity|].
  destruct (f x); simpl; [reflexivity | exact IH].
Qed.

Module ReFacts.
Import Re.

Lemma first_caps_cat (r1 r2 : regex) (s : str) (c : caps) :
  first_caps (Cat r1 r2) s c =
  first_some (fun t : thread => first_caps r2 (fst t) (snd t)) (matches r1 s c).
Proof.
  unfold first_caps. simpl. rewrite hd_error_flat_map.
  apply option_map_first_some.
Qed.

Lemma first_caps_lit (x : char) (r : regex) (s : str) (c : caps) :
  first_caps (Cat (Lit x) r) s c =
  match s with
  | y :: s' => if (x =? y)%N then first_caps r s' c else None
  | [] => None
  end.
Proof.
  rewrite first_caps_cat. simpl. destruct s as [|y s']; [reflexivity|].
  destruct (x =? y)%N; simpl; [|reflexivity].
  destruct (first_caps r s' c); reflexivity.
Qed.

Lemma first_caps_class (p : char -> bool) (r : regex) (s : str) (c : caps) :
  first_caps (Cat (Class p) r) s c =
  match s with
  | y :: s' => if p y then first_caps r s' c else None
  | [] => None
  end.
Proof.
  rewrite first_caps_cat. simpl. destruct s as [|y s']; [reflexivity|].
  destruct (p y); simpl; [|reflexivity].
  destruct (first_caps r s' c); reflexivity.
Qed.

Lemma matches_cat (r1 r2 : regex) (s : str) (c : caps) :
  matches (Cat r1 r2) s c =
  flat_map (fun t : thread => matches r2 (fst t) (snd t)) (matches r1 s c).
Proof. reflexivity. Qed.

Lemma matches_alt (r1 r2 : regex) (s : str) (c : caps) :
  matches (Alt r1 r2) s c = matches r1 s c ++ matches r2 s c.
Proof. reflexivity. Qed.

Lemma matches_star (r : regex) (s : str) (c : caps) :
  matches (Star r) s c = star_aux (matches r) true (length s) s c.
Proof. reflexivity. Qed.

Lemma matches_named (name : string) (r : regex) (s : str) (c : caps) :
  matches (Named name r) s c =
  map (fun t : thread =>
         (fst t, (name, firstn (length s - length (fst t)) s) :: snd t))
      (matches r s c).
Proof. reflexivity. Qed.

(** A star leaves through the position it entered at, whatever else. *)
Lemma star_aux_last (step : str -> caps -> list thread) (g : bool) (fuel : nat)
    (s : str) (c : caps) :
  In (s, c) (star_aux step g fuel s c).
Proof.
  destruct fuel; simpl; [left; reflexivity|].
  destruct g; [apply in_or_app; right|]; left; reflexivity.
Qed.

Lemma star_aux_caps (step : str -> caps -> list thread) (g : bool) :
  (forall s c t, In t (step s c) -> snd t = c) ->
  forall fuel s c t, In t (star_aux step g fuel s c) -> snd t = c.
Proof.
  intros Hstep. induction fuel as [|fuel IH]; simpl; intros s c t Hin.
  - destruct Hin as [<-|[]]. reflexivity.
  - assert (Hmore : In t (flat_map (fun t0 : thread =>
                if (length (fst t0) <? length s)%nat
                then star_aux step g fuel (fst t0) (snd t0) else []) (step s c))
              -> snd t = c).
    { intros H. apply in_flat_map in H. destruct H as [t0 [H0 H1]].
      destruct (length (fst t0) <? length s)%nat; [|contradiction].
      apply IH in H1. rewrite H1. eapply Hstep; eassumption. }
    destruct g.
    + apply in_app_or in Hin. destruct Hin as [H|[<-|[]]]; auto.
    + destruct Hin as [<-|H]; auto.
Qed.

(** Without capturing groups a run leaves the captures as they were. *)
Lemma no_groups_caps (r : regex) :
  no_groups r = true ->
  forall s c t, In t (matches r s c) -> snd t = c.
Proof.
  induction r as [x|p|r1 IHr1 r2 IHr2|r1 IHr1 r2 IHr2|r IHr|r IHr|name r IHr|r IHr|];
    simpl; intros Hng s c t Hin.
  - destruct s as [|y s']; [contradiction|].
    destruct (x =? y)%N; [|contradiction]. destruct Hin as [<-|[]]. reflexivity.
  - destruct s as [|y s']; [contradiction|].
    destruct (p y); [|contradiction]. destruct Hin as [<-|[]]. reflexivity.
  - apply andb_prop in Hng. destruct Hng as [H1 H2].
    apply in_flat_map in Hin. destruct Hin as [t1 [Ht1 Ht]].
    apply (IHr2 H2) in Ht. rewrite Ht. eapply IHr1; eassumption.
  - apply andb_prop in Hng. destruct Hng as [H1 H2].
    apply in_app_or in Hin. destruct Hin; [eapply IHr1 | eapply IHr2]; eassumption.
  - eapply star_aux_caps; [|eassumption]. apply IHr. exact Hng.
  - eapply star_aux_caps; [|eassumption]. apply IHr. exact Hng.
  - discriminate.
  - destruct (matches r s c); [contradiction|]. destruct Hin as [<-|[]]. reflexivity.
  - destruct s as [|y [|z s']]; try contradiction.
    + destruct Hin as [<-|[]]. reflexivity.
    + destruct (y =? NL)%N; [|contradiction]. destruct Hin as [<-|[]]. reflexivity.
Qed.

(** A star without groups always succeeds and changes no capture. *)
Lemma first_caps_star (r : regex) (s : str) (c : caps) :
  no_groups r = true -> first_caps (Star r) s c = Some c.
Proof.
  intros Hng. unfold first_caps.
  destruct (matches (Star r) s c) as [|t l] eqn:E.
  - exfalso. pose proof (star_aux_last (matches r) true (length s) s c) as H.
    simpl in E. rewrite E in H. exact H.
  - simpl. f_equal. apply (@no_groups_caps (Star r) Hng s c). rewrite E. left. reflexivity.
Qed.

(** Every success reads a prefix of the text. *)
Lemma star_aux_suffix (step : str -> caps -> list thread) (g : bool) :
  (forall s c t, In t (step s c) -> exists p, s = p ++ fst t) ->
  forall fuel s c t, In t (star_aux step g fuel s c) -> exists p, s = p ++ fst t.
Proof.
  intros Hstep. induction fuel as [|fuel IH]; simpl; intros s c t Hin.
  - destruct Hin as [<-|[]]. exists []. reflexivity.
  - assert (Hmore : In t (flat_map (fun t0 : thread =>
                if (length (fst t0) <? length s)%nat
                then star_aux step g fuel (fst t0) (snd t0) else []) (step s c))
              -> exists p, s = p ++ fst t).
    { intros H. apply in_flat_map in H. destruct H as [t0 [H0 H1]].
      destruct (length (fst t0) <? length s)%nat; [|contradiction].
      apply IH in H1. destruct H1 as [p1 Hp1].
      apply Hstep in H0. destruct H0 as [p0 Hp0].
      exists (p0 ++ p1). rewrite <- app_assoc, <- Hp1. exact Hp0. }
    destruct g.
    + apply in_app_or in Hin. destruct Hin as [H|[<-|[]]]; auto. exists []. reflexivity.
    + destruct Hin as [<-|H]; auto. exists []. reflexivity.
Qed.

Lemma matches_suffix (r : regex) :
  forall s c t, In t (matches r s c) -> exists p, s = p ++ fst t.
Proof.
  induction r as [x|p|r1 IHr1 r2 IHr2|r1 IHr1 r2 IHr2|r IHr|r IHr|name r IHr|r IHr|];
    simpl; intros s c t Hin.
  - destruct s as [|y s']; [contradiction|].
    destruct (x =? y)%N; [|contradiction]. destruct Hin as [<-|[]]. exists [y]. reflexivity.
  - destruct s as [|y s']; [contradiction|].
    destruct (p y); [|contradiction]. destruct Hin as [<-|[]]. exists [y]. reflexivity.
  - apply in_flat_map in Hin. destruct Hin as [t1 [Ht1 Ht]].
    apply IHr1 in Ht1. apply IHr2 in Ht. destruct Ht1 as [p1 H1]. destruct Ht as [p2 H2].
    exists (p1 ++ p2). rewrite <- app_assoc, <- H2. exact H1.
  - apply in_app_or in Hin. destruct Hin; [eapply IHr1 | eapply IHr2]; eassumption.
  - eapply star_aux_suffix; [|eassumption]. exact IHr.
  - eapply star_aux_suffix; [|eassumption]. exact IHr.
  - apply in_map_iff in Hin. destruct Hin as [t0 [<- H0]]. simpl. eapply IHr; eassumption.
  - destruct (matches r s c); [contradiction|]. destruct Hin as [<-|[]]. exists []. reflexivity.
  - destruct s as [|y [|z s']]; try contradiction.
    + destruct Hin as [<-|[]]. exists []. reflexivity.
    + destruct (y =? NL)%N; [|contradiction]. destruct Hin as [<-|[]]. exists []. reflexivity.
Qed.

Lemma flat_map_nil {A B} (f : A -> list B) (l : list A) :
  (forall x, In x l -> f x = []) -> flat_map f l = [].
Proof.
  induction l as [|x l IH]; intros H; [reflexivity|]. simpl.
  rewrite (H x) by (left; reflexivity). apply IH. intros y Hy. apply H. right. exact Hy.
Qed.

Lemma flat_map_ext_in {A B} (f g : A -> list B) (l : list A) :
  (forall x, In x l -> f x = g x) -> flat_map f l = flat_map g l.
Proof.
  induction l as [|x l IH]; intros H; [reflexivity|]. simpl.
  rewrite (H x) by (left; reflexivity). f_equal. apply IH.
  intros y Hy. apply H. right. exact Hy.
Qed.

(** Fuel beyond the length of the text changes nothing. *)
Lemma star_aux_fuel (step : str -> caps -> list thread) (g : bool) :
  forall fuel1 fuel2 s c,
    (length s <= fuel1)%nat -> (length s <= fuel2)%nat ->
    star_aux step g fuel1 s c = star_aux step g fuel2 s c.
Proof.
  assert (Hzero : forall fuel s c, (length s <= 0)%nat ->
            star_aux step g fuel s c = [(s, c)]).
  { intros fuel s c Hs. destruct fuel as [|fuel]; [reflexivity|]. cbn [star_aux].
    rewrite flat_map_nil.
    - destruct g; reflexivity.
    - intros t _. destruct (length (fst t) <? length s)%nat eqn:E; [|reflexivity].
      apply Nat.ltb_lt in E. lia. }
  induction fuel1 as [|fuel1 IH]; intros fuel2 s c H1 H2.
  - rewrite (Hzero 0%nat), (Hzero fuel2) by assumption. reflexivity.
  - destruct fuel2 as [|fuel2].
    + rewrite (Hzero (S fuel1)), (Hzero 0%nat) by assumption. reflexivity.
    + cbn [star_aux].
      rewrite (flat_map_ext_in
                 (fun t : thread =>
                    if (length (fst t) <? length s)%nat
                    then star_aux step g fuel1 (fst t) (snd t) else [])
                 (fun t : thread =>
                    if (length (fst t) <? length s)%nat
                    then star_aux step g fuel2 (fst t) (snd t) else [])).
      * reflexivity.
      * intros t _. destruct (length (fst t) <? length s)%nat eqn:E; [|reflexivity].
        apply Nat.ltb_lt in E. apply IH; lia.
Qed.

(** A greedy star over a class, followed by [K]: when the class stops at
    [r] and [K] fails wherever the text starts with a character of the
    class, only the longest run counts. *)
Lemma star_class_then (p : char -> bool) (K : thread -> list thread)
    (r : str) (c : caps) :
  matches (Class p) r c = [] ->
  (forall x t, p x = true -> K (x :: t, c) = []) ->
  forall u, Forall (fun x => p x = true) u ->
  flat_map K (matches (Star (Class p)) (u ++ r) c) = K (r, c).
Proof.
  intros Hr HK. induction u as [|x u IH]; intros Hu.
  - cbn [app]. rewrite matches_star. destruct (length r) eqn:El; cbn [star_aux].
    + cbn [flat_map]. apply app_nil_r.
    + rewrite Hr. cbn [flat_map app]. apply app_nil_r.
  - inversion Hu as [|x' u' Hx Hu']; subst.
    rewrite matches_star. cbn [app length star_aux].
    assert (Hstep : matches (Class p) (x :: u ++ r) c = [(u ++ r, c)])
      by (cbn [matches]; rewrite Hx; reflexivity).
    rewrite Hstep. cbn [flat_map fst snd].
    assert (Hlt : (length (u ++ r) <? S (length (u ++ r)))%nat = true)
      by (apply Nat.ltb_lt; lia).
    rewrite Hlt, app_nil_r, <- matches_star.
    rewrite flat_map_app, (IH Hu'). cbn [flat_map].
    match goal with |- _ ++ ?k ++ [] = _ =>
      replace k with (@nil thread) by (symmetry; apply HK; exact Hx) end.
    rewrite !app_nil_r. reflexivity.
Qed.

End ReFacts.

Module LogFilterFacts.
Import Re ReFacts LogFilter.

Lemma lazy_dot_star (c : caps) :
  forall fuel s, (length s <= fuel)%nat ->
  star_aux (matches dot) false fuel s c = map (fun s' => (s', c)) (lazy_dot s).
Proof.
  induction fuel as [|fuel IH]; intros s Hlen.
  - destruct s; simpl in *; [reflexivity | lia].
  - destruct s as [|x s']; [reflexivity|].
    simpl. f_equal. destruct (negb (x =? NL)%N); simpl; [|reflexivity].
    assert (Hlt : (length s' <? S (length s'))%nat = true) by (apply Nat.ltb_lt; lia).
    rewrite Hlt, app_nil_r. apply IH. simpl in Hlen. lia.
Qed.

Lemma lazy_dot_matches (s : str) (c : caps) :
  matches (LazyStar dot) s c = map (fun s' => (s', c)) (lazy_dot s).
Proof. simpl. apply lazy_dot_star. lia. Qed.

Lemma ahead_matches (s : str) (c : caps) :
  matches (Ahead (Alt (Lit ESC) Dollar)) s c = if ahead_ok s then [(s, c)] else [].
Proof.
  destruct s as [|y [|z s']]; cbn [matches ahead_ok app]; [reflexivity| |].
  - rewrite (N.eqb_sym y ESC). destruct (ESC =? y)%N; cbn [app orb]; [reflexivity|].
    destruct (y =? NL)%N; reflexivity.
  - rewrite (N.eqb_sym y ESC). destruct (ESC =? y)%N; reflexivity.
Qed.

Lemma lazy_dot_suffix (s s' : str) :
  In s' (lazy_dot s) -> exists p, s = p ++ s'.
Proof.
  revert s'. induction s as [|x s IH]; simpl; intros s' H.
  - destruct H as [<-|[]]. exists []. reflexivity.
  - destruct H as [<-|H]; [exists []; reflexivity|].
    destruct (negb (x =? NL)%N); [|contradiction].
    destruct (IH _ H) as [p Hp]. exists (x :: p). simpl. f_equal. exact Hp.
Qed.

Lemma firstn_consumed (p s : str) :
  firstn (length (p ++ s) - length s) (p ++ s) = p.
Proof.
  rewrite length_app. replace (length p + length s - length s)%nat with (length p) by lia.
  rewrite firstn_app, Nat.sub_diag, firstn_all. simpl. apply app_nil_r.
Qed.

(** *** The scanner's results, taken apart *)

Lemma scan_content_eq (s : str) :
  scan_content s =
  if ahead_ok s then Some ([], s)
  else match s with
       | [] => None
       | x :: s' =>
           if negb (x =? NL)%N
           then option_map (fun r : str * str => (x :: fst r, snd r))
                           (scan_content s')
           else None
       end.
Proof. destruct s; reflexivity. Qed.

Lemma scan_tag_eq (s : str) :
  scan_tag s =
  match scan_sep s with
  | Some c => Some ([], c)
  | None =>
      match s with
      | [] => None
      | x :: s' =>
          if negb (x =? NL)%N
          then option_map (fun r : str * str => (x :: fst r, snd r))
                          (scan_tag s')
          else None
      end
  end.
Proof. destruct s; reflexivity. Qed.

Lemma lazy_dot_eq (s : str) :
  lazy_dot s =
  s :: match s with
       | [] => []
       | x :: s' => if negb (x =? NL)%N then lazy_dot s' else []
       end.
Proof. destruct s; reflexivity. Qed.

Lemma scan_content_split (s a b : str) :
  scan_content s = Some (a, b) -> s = a ++ b.
Proof.
  revert a b. induction s as [|x s IH]; intros a b H; rewrite scan_content_eq in H.
  - destruct (ahead_ok []); inversion H. reflexivity.
  - destruct (ahead_ok (x :: s)); [inversion H; reflexivity|].
    destruct (negb (x =? NL)%N); [|discriminate].
    destruct (scan_content s) as [[a' b']|]; [|discriminate].
    simpl in H. inversion H; subst. simpl. f_equal. apply IH. reflexivity.
Qed.

Lemma scan_content_first (s : str) (c : caps) :
  first_some (fun s' => if ahead_ok s' then Some (s', c) else None) (lazy_dot s) =
  option_map (fun r : str * str => (snd r, c)) (scan_content s).
Proof.
  induction s as [|x s IH]; [reflexivity|].
  rewrite lazy_dot_eq, scan_content_eq. cbn [first_some].
  destruct (ahead_ok (x :: s)); [reflexivity|].
  destruct (negb (x =? NL)%N); [|reflexivity].
  rewrite IH. destruct (scan_content s); reflexivity.
Qed.

Lemma first_some_total {A B} (g : A -> B) (l : list A) :
  first_some (fun x => Some (g x)) l = option_map g (hd_error l).
Proof. destruct l; reflexivity. Qed.

(** *** What the scanner returns *)

Lemma ahead_ok_cases (s : str) :
  ahead_ok s = true <-> s = [] \/ s = [NL] \/ exists s', s = ESC :: s'.
Proof.
  destruct s as [|y [|z s']]; cbn [ahead_ok].
  - split; auto.
  - rewrite orb_true_iff, !N.eqb_eq. split.
    + intros [->| ->]; [right; right; exists []|right; left]; reflexivity.
    + intros [H|[H|[s' H]]]; inversion H; auto.
  - rewrite N.eqb_eq. split.
    + intros ->. right; right. exists (z :: s'). reflexivity.
    + intros [H|[H|[s'' H]]]; inversion H; auto.
Qed.

Lemma ahead_ok_plain (x : char) (s : str) : plain x -> ahead_ok (x :: s) = false.
Proof.
  intros [H1 H2]. apply not_true_is_false. intros H.
  apply ahead_ok_cases in H. destruct H as [H|[H|[s' H]]]; inversion H; congruence.
Qed.

Lemma scan_content_sound (s a b : str) :
  scan_content s = Some (a, b) ->
  s = a ++ b /\ Forall plain a /\ ahead_ok b = true.
Proof.
  revert a b. induction s as [|x s IH]; intros a b H; rewrite scan_content_eq in H.
  - cbn [ahead_ok] in H. inversion H. repeat split; auto.
  - destruct (ahead_ok (x :: s)) eqn:Ea; [inversion H; subst; repeat split; auto|].
    destruct (x =? NL)%N eqn:En; [discriminate|]. cbn [negb] in H.
    destruct (scan_content s) as [[a' b']|]; [|discriminate].
    cbn [option_map fst snd] in H. inversion H; subst.
    destruct (IH a' b eq_refl) as [-> [Hp Hb]].
    repeat split; auto. constructor; [|exact Hp]. split.
    + intros ->. destruct (a' ++ b); discriminate Ea.
    + apply N.eqb_neq. exact En.
Qed.

Lemma scan_content_complete (a b : str) :
  Forall plain a -> ahead_ok b = true -> scan_content (a ++ b) = Some (a, b).
Proof.
  intros Ha Hb. induction Ha as [|x a Hx Ha IH]; rewrite scan_content_eq.
  - cbn [app]. rewrite Hb. reflexivity.
  - cbn [app]. rewrite (ahead_ok_plain _ Hx). destruct Hx as [_ Hx].
    apply N.eqb_neq in Hx. rewrite Hx. cbn [negb]. rewrite IH. reflexivity.
Qed.

(** Once the content cannot be read, dropping a character that is not a
    newline does not help. *)
Lemma scan_content_none_tail (x : char) (s : str) :
  scan_content (x :: s) = None -> x <> NL -> scan_content s = None.
Proof.
  rewrite scan_content_eq. destruct (ahead_ok (x :: s)); [discriminate|].
  intros H Hx. apply N.eqb_neq in Hx. rewrite Hx in H. cbn [negb] in H.
  destruct (scan_content s); [discriminate | reflexivity].
Qed.

Lemma scan_content_none_app (u s : str) :
  scan_content (u ++ s) = None -> Forall (fun x => x <> NL) u -> scan_content s = None.
Proof.
  intros H Hu. induction Hu as [|x u Hx Hu IH]; [exact H|].
  apply IH. eapply scan_content_none_tail; eassumption.
Qed.

Lemma scan_sep_sound (s c : str) :
  scan_sep s = Some c ->
  exists r b, s = SEP ++ r /\ scan_content r = Some (c, b).
Proof.
  unfold scan_sep. destruct s as [|a [|b s]]; try discriminate.
  destruct (COLON =? a)%N eqn:Ea; [|discriminate].
  destruct (SPACE =? b)%N eqn:Eb; [|discriminate]. cbn [andb].
  apply N.eqb_eq in Ea, Eb. subst a b.
  destruct (scan_content s) as [[c' b']|] eqn:E; [|discriminate].
  cbn [option_map fst]. intros H. inversion H; subst. exists s, b'.
  split; [reflexivity | exact E].
Qed.

Lemma scan_sep_here (r : str) :
  scan_sep (SEP ++ r) = option_map fst (scan_content r).
Proof. reflexivity. Qed.

Lemma scan_tag_sound (s t c : str) :
  scan_tag s = Some (t, c) ->
  exists b, s = t ++ SEP ++ c ++ b /\ scan_content (c ++ b) = Some (c, b) /\
            Forall (fun x => x <> NL) t.
Proof.
  revert t c. induction s as [|x s IH]; intros t c H; rewrite scan_tag_eq in H.
  - discriminate.
  - destruct (scan_sep (x :: s)) as [c'|] eqn:Es.
    + inversion H; subst. apply scan_sep_sound in Es.
      destruct Es as [r [b [-> Hr]]]. pose proof (scan_content_sound _ Hr) as [-> _].
      exists b. repeat split; auto.
    + destruct (x =? NL)%N eqn:En; [discriminate|]. cbn [negb] in H.
      destruct (scan_tag s) as [[t' c']|]; [|discriminate].
      cbn [option_map fst snd] in H. inversion H; subst.
      destruct (IH t' c eq_refl) as [b [-> [Hc Ht]]].
      exists b. repeat split; auto. constructor; [apply N.eqb_neq; exact En | exact Ht].
Qed.

(** The tag ends at the first separator: it holds none. *)
Lemma scan_tag_first_sep (s t c : str) :
  scan_tag s = Some (t, c) -> ~ occurs SEP t.
Proof.
  revert t c. induction s as [|x s IH]; intros t c H; rewrite scan_tag_eq in H.
  - discriminate.
  - destruct (scan_sep (x :: s)) as [c'|] eqn:Es.
    + inversion H; subst. intros [a [b Hab]]. destruct a; discriminate Hab.
    + destruct (x =? NL)%N eqn:En; [discriminate|]. cbn [negb] in H.
      destruct (scan_tag s) as [[t' c']|] eqn:Et; [|discriminate].
      cbn [option_map fst snd] in H. inversion H; subst.
      intros [a [b Hab]]. destruct a as [|y a].
      * cbn [app SEP] in Hab. inversion Hab; subst.
        destruct (scan_tag_sound _ Et) as [b' [Hs [Hc Ht]]]. subst s.
        change (scan_sep (COLON :: SPACE :: b ++ SEP ++ c ++ b') = None) in Es.
        change (COLON :: SPACE :: b ++ SEP ++ c ++ b')
          with (SEP ++ (b ++ SEP ++ c ++ b')) in Es.
        rewrite scan_sep_here in Es.
        assert (Hn : scan_content ((b ++ SEP) ++ c ++ b') = None).
        { rewrite <- app_assoc. destruct (scan_content (b ++ SEP ++ c ++ b'));
            [discriminate Es | reflexivity]. }
        apply scan_content_none_app in Hn; [congruence|].
        inversion Ht; subst. apply Forall_app. split; [assumption|].
        repeat constructor; discriminate.
      * cbn [app] in Hab. inversion Hab; subst.
        apply (IH _ _ eq_refl). exists a, b. reflexivity.
Qed.

Lemma scan_tag_complete (t r c b : str) :
  Forall (fun x => x <> NL) t -> ~ occurs SEP t ->
  scan_content r = Some (c, b) ->
  scan_tag (t ++ SEP ++ r) = Some (t, c).
Proof.
  intros Ht Hsep Hr. induction Ht as [|x t Hx Ht IH]; rewrite scan_tag_eq.
  - cbn [app]. rewrite scan_sep_here, Hr. reflexivity.
  - assert (Es : scan_sep ((x :: t) ++ SEP ++ r) = None).
    { destruct (scan_sep ((x :: t) ++ SEP ++ r)) as [c'|] eqn:Es; [|reflexivity].
      exfalso. apply scan_sep_sound in Es. destruct Es as [r' [b' [Heq _]]].
      destruct t as [|y t]; cbn [app SEP] in Heq; inversion Heq; subst.
      apply Hsep. exists [], t. reflexivity. }
    rewrite Es. cbn [app]. apply N.eqb_neq in Hx. rewrite Hx. cbn [negb].
    rewrite IH; [reflexivity|].
    intros [a [b' Hab]]. apply Hsep. exists (x :: a), b'. rewrite Hab. reflexivity.
Qed.

Lemma scan_line_sound (s t c : str) :
  scan_line s = Some (t, c) ->
  exists level s', s = level :: SLASH :: s' /\ is_upper level = true /\
                   scan_tag s' = Some (t, c).
Proof.
  unfold scan_line. destruct s as [|l [|sl s]]; try discriminate.
  destruct (is_upper l) eqn:El; [|discriminate].
  destruct (SLASH =? sl)%N eqn:Es; [|discriminate]. cbn [andb].
  apply N.eqb_eq in Es. subst sl. intros H. exists l, s. repeat split; auto.
Qed.

Lemma scan_line_here (level : char) (s : str) :
  is_upper level = true -> scan_line (level :: SLASH :: s) = scan_tag s.
Proof. intros H. unfold scan_line. rewrite H. reflexivity. Qed.

(** *** The pattern runs as the scanner does *)

Lemma content_re_first (s : str) (c : caps) :
  hd_error (matches content_re s c) =
  option_map (fun r : str * str => (snd r, ("content"%string, fst r) :: c))
             (scan_content s).
Proof.
  unfold content_re. rewrite matches_named, matches_cat.
  rewrite hd_error_map, hd_error_flat_map.
  rewrite lazy_dot_matches, first_some_map.
  rewrite (first_some_ext _ (fun s' => if ahead_ok s' then Some (s', c) else None)).
  2:{ intros s' _. cbn [fst snd]. rewrite ahead_matches.
      destruct (ahead_ok s'); reflexivity. }
  rewrite scan_content_first.
  destruct (scan_content s) as [[a b]|] eqn:E; [|reflexivity].
  apply scan_content_split in E. subst s. cbn [option_map fst snd].
  rewrite firstn_consumed. reflexivity.
Qed.

Section Pattern.

Variable ansi : regex.
Hypothesis ansi_no_groups : no_groups ansi = true.

Lemma tail_re_caps (s : str) (c : caps) :
  first_caps (tail_re ansi) s c =
  option_map (fun r : str * str => ("content"%string, fst r) :: c) (scan_content s).
Proof.
  unfold tail_re. rewrite first_caps_cat.
  rewrite (first_some_ext _ (fun t : thread => Some (snd t))).
  2:{ intros t _. apply first_caps_star. exact ansi_no_groups. }
  rewrite first_some_total, content_re_first.
  destruct (scan_content s); reflexivity.
Qed.

Lemma sep_re_caps (s : str) (c : caps) :
  first_caps (sep_re ansi) s c =
  option_map (fun cont : str => ("content"%string, cont) :: c) (scan_sep s).
Proof.
  unfold sep_re, scan_sep. rewrite first_caps_lit.
  destruct s as [|a s]; [reflexivity|].
  destruct (COLON =? a)%N; [|destruct s; reflexivity].
  rewrite first_caps_lit. destruct s as [|b s]; [reflexivity|].
  cbn [andb]. destruct (SPACE =? b)%N; [|reflexivity].
  rewrite tail_re_caps. destruct (scan_content s); reflexivity.
Qed.

Lemma tag_scan_first (c : caps) (s pre : str) :
  first_some
    (fun s' : str =>
       option_map (fun cont : str =>
                     ("content"%string, cont)
                       :: ("tag"%string,
                           firstn (length (pre ++ s) - length s') (pre ++ s)) :: c)
                  (scan_sep s'))
    (lazy_dot s) =
  option_map (fun r : str * str =>
                ("content"%string, snd r) :: ("tag"%string, pre ++ fst r) :: c)
             (scan_tag s).
Proof.
  revert pre. induction s as [|x s IH]; intros pre.
  - reflexivity.
  - rewrite lazy_dot_eq, scan_tag_eq. cbn [first_some].
    rewrite firstn_consumed.
    destruct (scan_sep (x :: s)) as [cont|]; cbn [option_map fst snd].
    + rewrite app_nil_r. reflexivity.
    + destruct (negb (x =? NL)%N); [|reflexivity].
      replace (pre ++ x :: s) with ((pre ++ [x]) ++ s)
        by (rewrite <- app_assoc; reflexivity).
      rewrite IH. destruct (scan_tag s) as [[t cont]|]; cbn [option_map fst snd];
        [|reflexivity].
      rewrite <- app_assoc. reflexivity.
Qed.

Lemma tag_re_caps (s : str) (c : caps) :
  first_caps (tag_re ansi) s c =
  option_map (fun r : str * str =>
                ("content"%string, snd r) :: ("tag"%string, fst r) :: c)
             (scan_tag s).
Proof.
  unfold tag_re. rewrite first_caps_cat, matches_named.
  rewrite lazy_dot_matches, !first_some_map. cbn [fst snd].
  rewrite (first_some_ext _ (fun s' : str =>
       option_map (fun cont : str =>
                     ("content"%string, cont)
                       :: ("tag"%string,
                           firstn (length ([] ++ s) - length s') ([] ++ s)) :: c)
                  (scan_sep s'))).
  2:{ intros s' _. apply sep_re_caps. }
  apply (tag_scan_first c s []).
Qed.

Lemma line_re_caps (s : str) (c : caps) :
  first_caps (line_re ansi) s c =
  option_map (fun r : str * str =>
                ("content"%string, snd r) :: ("tag"%string, fst r) :: c)
             (scan_line s).
Proof.
  unfold line_re, scan_line. rewrite first_caps_class.
  destruct s as [|l s]; [reflexivity|].
  destruct (is_upper l); [|destruct s; reflexivity].
  rewrite first_caps_lit. destruct s as [|sl s]; [reflexivity|].
  cbn [andb]. destruct (SLASH =? sl)%N; [|reflexivity].
  apply tag_re_caps.
Qed.

(** The compiled pattern and the scanner agree on every line. *)
Lemma re_match_scan (line : str) :
  re_match (ANDROID_LOG_PREFIX_REGEX ansi) line =
  option_map (fun r : str * str =>
                [("content"%string, snd r); ("tag"%string, fst r)])
             (scan ansi line).
Proof.
  unfold re_match, ANDROID_LOG_PREFIX_REGEX, scan. rewrite first_caps_cat.
  rewrite option_map_first_some. apply first_some_ext.
  intros t Ht. rewrite line_re_caps.
  rewrite (@no_groups_caps (Star ansi) ansi_no_groups line [] t Ht). reflexivity.
Qed.

(** Both groups take part in every match. *)
Lemma match_binds_groups (line : str) (g : caps) :
  re_match (ANDROID_LOG_PREFIX_REGEX ansi) line = Some g ->
  exists tag content,
    group g "tag" = Some tag /\ group g "content" = Some content /\
    scan ansi line = Some (tag, content).
Proof.
  rewrite re_match_scan. destruct (scan ansi line) as [[t c]|]; [|discriminate].
  intros H. inversion H; subst. exists t, c. repeat split; reflexivity.
Qed.

(** The classifier, through the scanner. *)
Lemma filter_scan (line : str) :
  android_log_clean_filter ansi line =
  match scan ansi line with
  | Some r => (snd r, is_python_tag (Some (fst r)))
  | None => (line, false)
  end.
Proof.
  unfold android_log_clean_filter. rewrite re_match_scan.
  destruct (scan ansi line) as [[t c]|]; reflexivity.
Qed.

(** A line the pattern matches, taken apart. *)
Lemma scan_sound (line t c : str) :
  scan ansi line = Some (t, c) ->
  exists pre level post,
    line = pre ++ level :: SLASH :: t ++ SEP ++ c ++ post /\
    is_upper level = true /\
    Forall (fun x => x <> NL) t /\ ~ occurs SEP t /\
    Forall plain c /\ ahead_ok post = true.
Proof.
  unfold scan. intros H. apply first_some_In in H. destruct H as [th [Hin Hl]].
  apply matches_suffix in Hin. destruct Hin as [pre Hpre].
  apply scan_line_sound in Hl. destruct Hl as [level [s' [Hs' [Hup Ht]]]].
  pose proof (scan_tag_first_sep _ Ht) as Hsep.
  apply scan_tag_sound in Ht. destruct Ht as [post [-> [Hc Hnl]]].
  apply scan_content_sound in Hc. destruct Hc as [_ [Hp Ha]].
  exists pre, level, post. rewrite Hpre, Hs'. repeat split; assumption.
Qed.

(** A line that starts with its level letter is scanned from its start. *)
Lemma scan_plain (level : char) (s : str) :
  skips_upper ansi -> is_upper level = true ->
  scan ansi (level :: s) = scan_line (level :: s).
Proof.
  intros Hsk Hup. unfold scan. cbn [matches length star_aux].
  rewrite (Hsk level s [] Hup). cbn [flat_map app first_some fst].
  destruct (scan_line (level :: s)); reflexivity.
Qed.

(** The leading star goes over a token before it tries the position in
    front of it. *)
Lemma star_token (tok s : str) (c : caps) :
  ansi_token ansi tok ->
  matches (Star ansi) (tok ++ s) c = matches (Star ansi) s c ++ [(tok ++ s, c)].
Proof.
  intros [Hne Htok]. rewrite !matches_star.
  assert (Hpos : (0 < length tok)%nat)
    by (destruct tok; [congruence | cbn [length]; lia]).
  destruct (length (tok ++ s)) as [|n] eqn:El;
    [rewrite length_app in El; lia|].
  cbn [star_aux]. rewrite Htok. cbn [flat_map fst snd].
  assert (Hlt : (length s <? length (tok ++ s))%nat = true)
    by (apply Nat.ltb_lt; rewrite length_app; lia).
  rewrite Hlt, app_nil_r. f_equal.
  rewrite length_app in El. apply star_aux_fuel; lia.
Qed.

Lemma token_not_upper (x : char) (tok : str) :
  skips_upper ansi -> ansi_token ansi (x :: tok) -> is_upper x = false.
Proof.
  intros Hsk [_ Htok]. destruct (is_upper x) eqn:E; [|reflexivity].
  specialize (Htok [] []). rewrite app_nil_r, (Hsk x tok [] E) in Htok.
  discriminate Htok.
Qed.

(** A line that starts with escape sequences is scanned from the level
    letter after them. *)
Lemma scan_colored (pre : str) (level : char) (s : str) :
  skips_upper ansi -> ansi_run ansi pre -> is_upper level = true ->
  scan ansi (pre ++ level :: s) = scan_line (level :: s).
Proof.
  intros Hsk Hrun Hup. induction Hrun as [|tok rest Htok Hrest IH].
  - apply scan_plain; assumption.
  - unfold scan in *. rewrite <- app_assoc, (star_token _ _ Htok), first_some_app, IH.
    destruct (scan_line (level :: s)) as [r|]; [reflexivity|].
    cbn [first_some fst]. destruct tok as [|x tok]; [destruct Htok; congruence|].
    unfold scan_line. cbn [app]. rewrite (token_not_upper Hsk Htok).
    destruct (tok ++ rest ++ level :: s); reflexivity.
Qed.

(** A line of the shape escape sequences, level, slash, tag, separator,
    content, rest. *)
Lemma filter_colored (pre : str) (level : char) (tag content post : str) :
  skips_upper ansi -> ansi_run ansi pre -> is_upper level = true ->
  Forall (fun x => x <> NL) tag -> ~ occurs SEP tag ->
  Forall plain content -> ahead_ok post = true ->
  android_log_clean_filter ansi
    (pre ++ level :: SLASH :: tag ++ SEP ++ content ++ post) =
  (content, is_python_tag (Some tag)).
Proof.
  intros Hsk Hrun Hup Ht Hsep Hc Hp.
  rewrite filter_scan, scan_colored, scan_line_here by assumption.
  erewrite scan_tag_complete; [reflexivity | assumption | assumption |].
  apply scan_content_complete; assumption.
Qed.

End Pattern.

Lemma is_python_tag_iff (t : str) :
  is_python_tag (Some t) = true <-> t = python_stdout \/ t = python_stderr.
Proof.
  unfold is_python_tag. rewrite orb_true_iff, !str_eqb_eq. reflexivity.
Qed.

(** The escape sequences of the reference system. *)
Lemma ansi_esc_seq_no_groups : no_groups ansi_esc_seq = true.
Proof. reflexivity. Qed.

(** Every 7-bit control sequence is a token of them. *)
Lemma csi_token (params inter : str) (final : char) :
  Forall (fun x => in_range 48 63 x = true) params ->
  Forall (fun x => in_range 32 47 x = true) inter ->
  in_range 64 126 final = true ->
  ansi_token ansi_esc_seq (csi params inter final).
Proof.
  intros Hp Hi Hf. split; [discriminate|]. intros s c.
  unfold ansi_esc_seq, csi.
  set (tail := Cat (Star (Class (in_range 48 63)))
                   (Cat (Star (Class (in_range 32 47))) (Class (in_range 64 126)))).
  assert (Htail : matches tail ((params ++ inter ++ [final]) ++ s) c = [(s, c)]).
  { unfold tail. rewrite matches_cat, <- !app_assoc.
    rewrite (@star_class_then (in_range 48 63)
               (fun t : thread =>
                  matches (Cat (Star (Class (in_range 32 47)))
                               (Class (in_range 64 126))) (fst t) (snd t))
               (inter ++ [final] ++ s) c).
    - cbn [fst snd]. rewrite matches_cat.
      rewrite (@star_class_then (in_range 32 47)
                 (fun t : thread => matches (Class (in_range 64 126)) (fst t) (snd t))
                 ([final] ++ s) c).
      + cbn [fst snd app matches]. rewrite Hf. reflexivity.
      + cbn [app matches]. unfold in_range in *.
        apply andb_prop in Hf. destruct Hf as [H1 H2]. apply N.leb_le in H1, H2.
        replace (final <=? 47)%N with false by (symmetry; apply N.leb_gt; lia).
        rewrite andb_false_r. reflexivity.
      + intros x t Hx. cbn [fst snd matches]. unfold in_range in *.
        apply andb_prop in Hx. destruct Hx as [H1 H2]. apply N.leb_le in H1, H2.
        replace (64 <=? x)%N with false by (symmetry; apply N.leb_gt; lia).
        reflexivity.
      + exact Hi.
    - destruct inter as [|y inter].
      + cbn [app matches]. unfold in_range in *.
        apply andb_prop in Hf. destruct Hf as [H1 H2]. apply N.leb_le in H1, H2.
        replace (final <=? 63)%N with false by (symmetry; apply N.leb_gt; lia).
        rewrite andb_false_r. reflexivity.
      + inversion Hi as [|y' i' Hy Hi']; subst. cbn [app matches].
        unfold in_range in *.
        apply andb_prop in Hy. destruct Hy as [H1 H2]. apply N.leb_le in H1, H2.
        replace (48 <=? y)%N with false by (symmetry; apply N.leb_gt; lia).
        reflexivity.
    - intros x t Hx. cbn [fst snd]. rewrite matches_cat.
      assert (Hx' : in_range 32 47 x = false).
      { unfold in_range in *. apply andb_prop in Hx. destruct Hx as [H1 H2].
        apply N.leb_le in H1, H2.
        replace (x <=? 47)%N with false by (symmetry; apply N.leb_gt; lia).
        apply andb_false_r. }
      rewrite matches_star. destruct (length (x :: t)) eqn:El; [discriminate El|].
      cbn [star_aux matches]. rewrite Hx'. cbn [flat_map app fst snd matches].
      unfold in_range in *. apply andb_prop in Hx. destruct Hx as [H1 H2].
      apply N.leb_le in H1, H2.
      replace (64 <=? x)%N with false by (symmetry; apply N.leb_gt; lia).
      reflexivity.
    - exact Hp. }
  change ((ESC :: 91%N :: params ++ inter ++ [final]) ++ s)
    with (ESC :: 91%N :: (params ++ inter ++ [final]) ++ s).
  generalize dependent ((params ++ inter ++ [final]) ++ s). intros body Htail.
  rewrite (matches_alt (Cat (Lit ESC) _)), (matches_alt (Class _)).
  assert (H1 : matches (Cat (Lit ESC)
                 (Class (fun c0 => in_range 64 90 c0 || in_range 92 95 c0)))
                 (ESC :: 91%N :: body) c = []) by reflexivity.
  assert (H2 : matches (Class (fun c0 => in_range 128 154 c0 || in_range 156 159 c0))
                 (ESC :: 91%N :: body) c = []) by reflexivity.
  assert (H3 : matches (Alt (Cat (Lit ESC) (Lit 91%N)) (Lit 155%N))
                 (ESC :: 91%N :: body) c = [(body, c)]) by reflexivity.
  rewrite H1, H2, matches_cat, H3. cbn [app flat_map fst snd].
  rewrite app_nil_r. exact Htail.
Qed.

Lemma ansi_esc_seq_skips_upper : skips_upper ansi_esc_seq.
Proof.
  intros x s c Hx. unfold is_upper, in_range in Hx.
  apply andb_prop in Hx. destruct Hx as [H1 H2].
  apply N.leb_le in H1, H2.
  assert (E1 : (ESC =? x)%N = false) by (apply N.eqb_neq; unfold ESC; lia).
  assert (E2 : (155 =? x)%N = false) by (apply N.eqb_neq; lia).
  assert (E3 : (128 <=? x)%N = false) by (apply N.leb_gt; lia).
  assert (E4 : (156 <=? x)%N = false) by (apply N.leb_gt; lia).
  unfold ansi_esc_seq. cbn [matches flat_map app]. unfold in_range.
  rewrite E1, E2, E3, E4. reflexivity.
Qed.

Lemma has_sep_occurs (s : str) : has_sep s = false -> ~ occurs SEP s.
Proof.
  induction s as [|x s IH]; intros H [a [b Hab]].
  - destruct a; discriminate Hab.
  - destruct a as [|y a].
    + cbn [app SEP] in Hab. inversion Hab; subst. discriminate H.
    + cbn [app] in Hab. injection Hab as -> ->.
      remember (a ++ COLON :: SPACE :: b) as l eqn:E. destruct l as [|z l].
      * destruct a; discriminate E.
      * change (has_sep (y :: z :: l))
          with ((y =? COLON)%N && (z =? SPACE)%N || has_sep (z :: l)) in H.
        apply orb_false_elim in H. destruct H as [_ H].
        apply IH; [exact H|]. exists a, b. exact E.
Qed.

End LogFilterFacts.

Module RunFacts.
Import Run.
Open Scope list_scope.

Lemma extend_nil (st : state) : extend st [] = st.
Proof. destruct st. unfold extend. simpl. rewrite app_nil_r. reflexivity. Qed.

Lemma extend_extend (st : state) (a b : list event) :
  extend (extend st a) b = extend st (a ++ b).
Proof. unfold extend. simpl. rewrite app_assoc. reflexivity. Qed.

Lemma log_extend (st : state) (ev : event) : log st ev = extend st [ev].
Proof. reflexivity. Qed.

(** *** Which calls a computation makes *)

Section Steps.

Variable q : call -> bool.

Lemma steps_ret {A} (a : A) : steps q (ret a).
Proof.
  intros st r st' H. inversion H; subst. exists []. rewrite extend_nil. auto.
Qed.

Lemma steps_raise {A} (e : exn) : steps q (@raise A e).
Proof.
  intros st r st' H. inversion H; subst. exists []. rewrite extend_nil. auto.
Qed.

Lemma steps_unfinished {A} : steps q (fun st => (@Unfinished A, st)).
Proof.
  intros st r st' H. inversion H; subst. exists []. rewrite extend_nil. auto.
Qed.

Lemma steps_extern {A} (w : world) (c : call) (answer : list event -> A) :
  q c = true -> steps q (extern w c answer).
Proof.
  intros Hq st r st' H. unfold extern in H.
  destruct (raises w (history st) c); inversion H; subst;
    eexists; (split; [apply log_extend | repeat constructor; exact Hq]).
Qed.

Lemma steps_bind {A B} (m : M A) (k : A -> M B) :
  steps q m -> (forall a, steps q (k a)) -> steps q (bind m k).
Proof.
  intros Hm Hk st r st' H. unfold bind in H.
  destruct (m st) as [[a|e|] st1] eqn:E; apply Hm in E; destruct E as [d1 [-> F1]].
  - apply Hk in H. destruct H as [d2 [-> F2]].
    exists (d1 ++ d2). rewrite extend_extend. split; [reflexivity|].
    apply Forall_app. split; assumption.
  - inversion H; subst. exists d1. auto.
  - inversion H; subst. exists d1. auto.
Qed.

Lemma steps_try_finally {A} (body : M A) (final : M unit) :
  steps q body -> steps q final -> steps q (try_finally body final).
Proof.
  intros Hb Hf st r st' H. unfold try_finally in H.
  destruct (body st) as [r1 st1] eqn:E. apply Hb in E. destruct E as [d1 [-> F1]].
  assert (Hfin : forall r2 st2, final (extend st d1) = (r2, st2) ->
            exists d, st2 = extend st d /\ Forall (fun ev : event => q (fst ev) = true) d).
  { intros r2 st2 E2. apply Hf in E2. destruct E2 as [d2 [-> F2]].
    exists (d1 ++ d2). rewrite extend_extend. split; [reflexivity|].
    apply Forall_app. split; assumption. }
  destruct r1 as [a|e|].
  - destruct (final (extend st d1)) as [[u|e2|] st2] eqn:E2;
      inversion H; subst; eapply Hfin; reflexivity.
  - destruct (final (extend st d1)) as [[u|e2|] st2] eqn:E2;
      inversion H; subst; eapply Hfin; reflexivity.
  - inversion H; subst. exists d1. auto.
Qed.

Lemma steps_with {A} (g : generator) (body : M A) :
  steps q (before_yield g) -> steps q (after_yield g) -> steps q body ->
  steps q (with_ g body).
Proof.
  intros Hb Ha Hbody st r st' H. unfold with_ in H.
  destruct (before_yield g st) as [[u|e|] st1] eqn:E1;
    apply Hb in E1; destruct E1 as [d1 [-> F1]];
    [|inversion H; subst; exists d1; auto ..].
  destruct (body (extend st d1)) as [[a|e|] st2] eqn:E2;
    apply Hbody in E2; destruct E2 as [d2 [-> F2]]; rewrite extend_extend in H;
    [|inversion H; subst; exists (d1 ++ d2); split;
       [reflexivity | apply Forall_app; split; assumption] ..].
  destruct (after_yield g (extend st (d1 ++ d2))) as [[u3|e|] st3] eqn:E3;
    apply Ha in E3; destruct E3 as [d3 [-> F3]]; rewrite extend_extend in H;
    inversion H; subst; exists ((d1 ++ d2) ++ d3);
    (split; [reflexivity | repeat (apply Forall_app; split); assumption]).
Qed.

Lemma steps_for_each (ports : list Z) (f : Z -> M unit) :
  (forall p, steps q (f p)) -> steps q (for_each ports f).
Proof.
  intros Hf. induction ports as [|p ports IH]; simpl.
  - apply steps_ret.
  - apply steps_bind; [apply Hf | intros _; exact IH].
Qed.

Lemma steps_wait_bar {A} (msg : string) (body : M A) :
  steps q body -> steps q (wait_bar msg body).
Proof. intros H. exact H. Qed.

End Steps.

(** *** Single calls and loops of calls *)

Lemma command_cases (w : world) (c : call) (st : state) :
  (raises w (history st) c = None /\
   command w c st = (Returns tt, extend st [ok c])) \/
  (exists e, raises w (history st) c = Some e /\
             command w c st = (Raises e, extend st [(c, Some e)])).
Proof.
  unfold command, extern. destruct (raises w (history st) c) as [e|].
  - right. exists e. split; reflexivity.
  - left. split; reflexivity.
Qed.

Lemma bind_returns {A B} (m : M A) (k : A -> M B) (st st1 : state) (a : A) :
  m st = (Returns a, st1) -> bind m k st = k a st1.
Proof. intros H. unfold bind. rewrite H. reflexivity. Qed.

Lemma bind_raises {A B} (m : M A) (k : A -> M B) (st st1 : state) (e : exn) :
  m st = (Raises e, st1) -> bind m k st = (Raises e, st1).
Proof. intros H. unfold bind. rewrite H. reflexivity. Qed.

Lemma bind_unfinished {A B} (m : M A) (k : A -> M B) (st st1 : state) :
  m st = (Unfinished, st1) -> bind m k st = (Unfinished, st1).
Proof. intros H. unfold bind. rewrite H. reflexivity. Qed.

Arguments bind_returns {A B m} k {st st1 a} _.
Arguments bind_raises {A B m} k {st st1 e} _.
Arguments bind_unfinished {A B m} k {st st1} _.

(** A loop of calls makes them in order and stops at the first that raises. *)
Lemma for_each_commands (w : world) (mk : Z -> call) (ports : list Z) :
  forall st,
    for_each ports (fun p => command w (mk p)) st =
      (Returns tt, extend st (map ok (map mk ports))) \/
    exists done c rest e,
      map mk ports = done ++ c :: rest /\
      raises w (history st ++ map ok done) c = Some e /\
      for_each ports (fun p => command w (mk p)) st =
        (Raises e, extend st (map ok done ++ [(c, Some e)])).
Proof.
  induction ports as [|p ports IH]; intros st.
  - left. simpl. unfold ret. rewrite extend_nil. reflexivity.
  - cbn [for_each map].
    destruct (command_cases w (mk p) st) as [[_ Hc]|[e [Hr Hc]]].
    + rewrite (bind_returns _ Hc).
      destruct (IH (extend st [ok (mk p)]))
        as [->|[done [c [rest [e [Hs [Hr ->]]]]]]].
      * left. rewrite extend_extend. reflexivity.
      * right. exists (mk p :: done), c, rest, e. rewrite Hs, extend_extend.
        cbn [history extend] in Hr. rewrite <- app_assoc in Hr.
        repeat split; [exact Hr].
    + rewrite (bind_raises _ Hc).
      right. exists [], (mk p), (map mk ports), e. cbn [map]. rewrite app_nil_r.
      repeat split; exact Hr.
Qed.

(** The teardown of [forward_ports]: the removals in order, up to and with
    the first that raises. *)
Lemma teardown_cases (w : world) (forward reverse : list Z) (st : state) :
  after_yield (forward_ports w forward reverse) st =
    (Returns tt, extend st (map ok (removals forward reverse))) \/
  exists done c rest e,
    removals forward reverse = done ++ c :: rest /\
    raises w (history st ++ map ok done) c = Some e /\
    after_yield (forward_ports w forward reverse) st =
      (Raises e, extend st (map ok done ++ [(c, Some e)])).
Proof.
  unfold removals. cbn [after_yield forward_ports].
  destruct (for_each_commands w ForwardRemove forward st)
    as [Hf|[done [c [rest [e [Hs [Hr Hf]]]]]]].
  - rewrite (bind_returns _ Hf).
    destruct (for_each_commands w ReverseRemove reverse
                (extend st (map ok (map ForwardRemove forward))))
      as [->|[done [c [rest [e [Hs [Hr ->]]]]]]].
    + left. rewrite extend_extend, <- map_app. reflexivity.
    + right. exists (map ForwardRemove forward ++ done), c, rest, e.
      rewrite Hs, extend_extend, map_app, <- !app_assoc.
      cbn [history extend] in Hr. rewrite <- app_assoc in Hr.
      repeat split; exact Hr.
  - rewrite (bind_raises _ Hf).
    right. exists done, c, (rest ++ map ReverseRemove reverse), e.
    rewrite Hs, <- app_assoc. repeat split; exact Hr.
Qed.

(** When the body of the [with] raises, the scope ends where the body did:
    nothing of the code after the [yield] runs. *)
Lemma with_body_raises {A} (g : generator) (body : M A)
    (st st1 st2 : state) (e : exn) :
  before_yield g st = (Returns tt, st1) ->
  body st1 = (Raises e, st2) ->
  with_ g body st = (Raises e, st2).
Proof. intros H1 H2. unfold with_. rewrite H1, H2. reflexivity. Qed.

Arguments with_body_raises {A g body st st1 st2 e} _ _.

(** *** The wait for the pid *)

Section Poll.

Variable w : world.
Variable package : string.
Variable fail_time : Z.

Lemma poll_pid_truthy (fuel : nat) (pid : option string) :
  truthy pid = true -> poll_pid w fuel package fail_time pid = ret pid.
Proof. intros H. destruct fuel; simpl; rewrite H; reflexivity. Qed.

Lemma poll_pid_step (fuel : nat) (pid : option string) :
  truthy pid = false ->
  poll_pid w (S fuel) package fail_time pid =
  (now <- extern w DatetimeNow (host_clock w) ;;
   if now <? fail_time then
     pid' <- extern w (Pidof package) (pid_of w) ;;
     (if truthy pid' then ret tt else command w (Sleep 10000)) ;;
     poll_pid w fuel package fail_time pid'
   else ret pid).
Proof. intros H. simpl. rewrite H. reflexivity. Qed.

Lemma extern_returns {A} (c : call) (answer : list event -> A) (st st' : state) (a : A) :
  extern w c answer st = (Returns a, st') ->
  raises w (history st) c = None /\ a = answer (history st) /\ st' = extend st [ok c].
Proof.
  unfold extern. destruct (raises w (history st) c); intros H; inversion H.
  repeat split; reflexivity.
Qed.

Lemma bind_returns_inv {A B} (m : M A) (k : A -> M B) (st st' : state) (b : B) :
  bind m k st = (Returns b, st') ->
  exists a st1, m st = (Returns a, st1) /\ k a st1 = (Returns b, st').
Proof.
  unfold bind. destruct (m st) as [[a|e|] st1]; intros H; try discriminate.
  exists a, st1. split; [reflexivity | exact H].
Qed.

(** What the loop has done when it returns. *)
Lemma poll_pid_waited (fuel : nat) :
  forall pid st r st',
    truthy pid = false ->
    poll_pid w fuel package fail_time pid st = (Returns r, st') ->
    adb st' = adb st /\
    waited w package fail_time (history st) pid (history st') r.
Proof.
  induction fuel as [|fuel IH]; intros pid st r st' Hpid H.
  - simpl in H. rewrite Hpid in H. discriminate.
  - rewrite (poll_pid_step fuel _ Hpid) in H.
    apply bind_returns_inv in H. destruct H as [now [st1 [Hnow H]]].
    apply extern_returns in Hnow. destruct Hnow as [_ [-> ->]].
    destruct (host_clock w (history st) <? fail_time) eqn:Et.
    + apply Z.ltb_lt in Et.
      apply bind_returns_inv in H. destruct H as [pid' [st2 [Hp H]]].
      apply extern_returns in Hp. destruct Hp as [_ [-> ->]].
      rewrite extend_extend in H. cbn [history extend app] in H.
      apply bind_returns_inv in H. destruct H as [u [st3 [Hs H]]].
      destruct (truthy (pid_of w (history st ++ [ok DatetimeNow]))) eqn:Ep.
      * inversion Hs; subst st3. rewrite (poll_pid_truthy _ _ Ep) in H.
        inversion H; subst. split; [reflexivity|].
        cbn [history extend]. apply waited_found; assumption.
      * apply extern_returns in Hs. destruct Hs as [_ [_ ->]].
        rewrite extend_extend in H. apply (IH _ _ _ _ Ep) in H.
        destruct H as [Ha Hw]. split; [exact Ha|].
        cbn [history extend app] in Hw. eapply waited_round; eassumption.
    + apply Z.ltb_ge in Et. inversion H; subst. split; [reflexivity|].
      cbn [history extend]. apply waited_timeout. exact Et.
Qed.




Lemma steps_poll_pid (q : call -> bool) (fuel : nat) :
  q DatetimeNow = true -> q (Pidof package) = true -> q (Sleep 10000) = true ->
  forall pid, steps q (poll_pid w fuel package fail_time pid).
Proof.
  intros Q1 Q2 Q3. induction fuel as [|fuel IH]; intros pid.
  - simpl. destruct (truthy pid); [apply steps_ret | apply steps_unfinished].
  - simpl. destruct (truthy pid); [apply steps_ret|].
    apply steps_bind; [apply steps_extern; exact Q1|]. intros now.
    destruct (now <? fail_time); [|apply steps_ret].
    apply steps_bind; [apply steps_extern; exact Q2|]. intros pid'.
    apply steps_bind; [|intros _; apply IH].
    destruct (truthy pid'); [apply steps_ret | apply steps_extern; exact Q3].
Qed.

Lemma finishes_bind {A B} (m : M A) (k : A -> M B) (st : state) :
  fst (m st) <> Unfinished ->
  (forall a st1, m st = (Returns a, st1) -> fst (k a st1) <> Unfinished) ->
  fst (bind m k st) <> Unfinished.
Proof.
  intros Hm Hk. unfold bind. destruct (m st) as [[a|e|] st1].
  - apply Hk. reflexivity.
  - discriminate.
  - exfalso. apply Hm. reflexivity.
Qed.

Lemma finishes_extern {A} (c : call) (answer : list event -> A) (st : state) :
  fst (extern w c answer st) <> Unfinished.
Proof. unfold extern. destruct (raises w (history st) c); discriminate. Qed.

(** With a clock that runs, the loop comes to an end. *)
Lemma poll_pid_terminates (n : nat) :
  clock_runs w ->
  forall pid st,
    fail_time - host_clock w (history st) <= 10000 * Z.of_nat n ->
    fst (poll_pid w (S n) package fail_time pid st) <> Unfinished.
Proof.
  intros [Hmono Hsleep]. induction n as [|n IH]; intros pid st Hm;
    (destruct (truthy pid) eqn:Hpid;
      [rewrite (poll_pid_truthy _ _ Hpid); discriminate|]);
    rewrite (poll_pid_step _ _ Hpid);
    (apply finishes_bind; [apply finishes_extern|]);
    intros now st1 Hnow; apply extern_returns in Hnow;
    destruct Hnow as [_ [-> ->]];
    (destruct (host_clock w (history st) <? fail_time) eqn:Et; [|discriminate]);
    apply Z.ltb_lt in Et.
  - lia.
  - apply finishes_bind; [apply finishes_extern|].
    intros pid' st2 Hp. apply extern_returns in Hp. destruct Hp as [_ [-> ->]].
    cbn [history extend].
    destruct (truthy (pid_of w (history st ++ [ok DatetimeNow]))) eqn:Ep.
    + unfold bind, ret. rewrite (poll_pid_truthy _ _ Ep). discriminate.
    + apply finishes_bind; [apply finishes_extern|].
      intros u st3 Hs. apply extern_returns in Hs. destruct Hs as [_ [_ ->]].
      apply IH. cbn [history extend].
      pose proof (Hmono (history st) (ok DatetimeNow)).
      pose proof (Hmono (history st ++ [ok DatetimeNow]) (ok (Pidof package))).
      pose proof (Hsleep ((history st ++ [ok DatetimeNow]) ++ [ok (Pidof package)])).
      lia.
Qed.

End Poll.

(** *** The parts of [run_app] *)

Ltac steps_tac :=
  repeat first
    [ apply steps_ret
    | apply steps_raise
    | apply steps_extern; reflexivity
    | apply steps_poll_pid; reflexivity
    | apply steps_bind; [|intros ?]
    | apply steps_for_each; intros ?
    | apply steps_with
    | match goal with
      | |- steps _ (if ?b then _ else _) => destruct b
      | |- steps _ (match ?x with _ => _ end) => destruct x
      | |- steps _ (let '(_, _) := ?x in _) => destruct x
      end ].

Section Parts.

Variable w : world.

Lemma steps_select_device (q : call -> bool) app device_or_avd extra :
  (forall c, quiet c = true -> q c = true) ->
  steps q (select_device w app device_or_avd extra).
Proof.
  intros Hq. unfold select_device, command.
  apply steps_bind; [apply steps_extern; apply Hq; reflexivity|].
  intros [[device name] avd]. destruct device as [d|]; [apply steps_ret|].
  apply steps_bind.
  - destruct avd as [a|].
    + apply steps_bind; [apply steps_extern; apply Hq; reflexivity|].
      intros _. apply steps_ret.
    + apply steps_extern; apply Hq; reflexivity.
  - intros avd'. apply steps_bind; [apply steps_extern; apply Hq; reflexivity|].
    intros _. apply steps_bind; [apply steps_extern; apply Hq; reflexivity|].
    intros e. apply steps_ret.
Qed.

Lemma steps_install (q : call -> bool) app :
  (forall c, quiet c = true -> q c = true) -> steps q (install w app).
Proof.
  intros Hq. unfold install, wait_bar, command.
  repeat (apply steps_bind; [apply steps_extern; apply Hq; reflexivity | intros _]).
  apply steps_extern; apply Hq; reflexivity.
Qed.

Lemma steps_before_yield (q : call -> bool) forward reverse :
  (forall c, quiet c = true -> q c = true) ->
  steps q (before_yield (forward_ports w forward reverse)).
Proof.
  intros Hq. cbn [before_yield forward_ports]. unfold command.
  apply steps_bind; [|intros _];
    apply steps_for_each; intros p; apply steps_extern; apply Hq; reflexivity.
Qed.

Lemma steps_after_yield (q : call -> bool) forward reverse :
  (forall c, quiet c = true -> q c = true) ->
  steps q (after_yield (forward_ports w forward reverse)).
Proof.
  intros Hq. cbn [after_yield forward_ports]. unfold command.
  apply steps_bind; [|intros _];
    apply steps_for_each; intros p; apply steps_extern; apply Hq; reflexivity.
Qed.

Lemma steps_launch (q : call -> bool) fuel package passthrough :
  (forall c, quiet c = true -> q c = true) ->
  steps q (launch w fuel package passthrough).
Proof.
  intros Hq. unfold launch, command.
  apply steps_bind; [apply steps_extern; apply Hq; reflexivity | intros dst].
  apply steps_bind; [apply steps_extern; apply Hq; reflexivity | intros _].
  apply steps_bind; [apply steps_extern; apply Hq; reflexivity | intros now].
  apply steps_bind; [|intros pid; apply steps_ret].
  apply steps_poll_pid; apply Hq; reflexivity.
Qed.

(** Nothing [run_app] does after line 431 rebinds [adb]. *)
Lemma steps_launch_and_follow fuel app passthrough :
  steps (fun _ => true) (launch_and_follow w fuel app passthrough).
Proof.
  unfold launch_and_follow, wait_bar.
  apply steps_bind; [apply steps_launch; reflexivity|].
  intros r. unfold follow_or_fail, command. steps_tac.
Qed.

Lemma steps_scope fuel app passthrough forward reverse :
  steps (fun _ => true)
        (with_ (forward_ports w forward reverse)
               (launch_and_follow w fuel app passthrough)).
Proof.
  apply steps_with.
  - apply steps_before_yield. reflexivity.
  - apply steps_after_yield. reflexivity.
  - apply steps_launch_and_follow.
Qed.

(** What [launch] has done when it returns. *)
Lemma launch_returns fuel package passthrough st dst pid st' :
  launch w fuel package passthrough st = (Returns (dst, pid), st') ->
  let started :=
    history st ++ [ok AdbDatetime;
                   ok (StartApp package "org.beeware.android.MainActivity"
                                passthrough)] in
  dst = device_clock w (history st) /\
  adb st' = adb st /\
  waited w package (host_clock w started + 5000000)
         (started ++ [ok DatetimeNow]) None (history st') pid.
Proof.
  intros H started. unfold launch, command in H.
  apply bind_returns_inv in H. destruct H as [dst' [st1 [H1 H]]].
  apply extern_returns in H1. destruct H1 as [_ [-> ->]].
  apply bind_returns_inv in H. destruct H as [u [st2 [H2 H]]].
  apply extern_returns in H2. destruct H2 as [_ [_ ->]].
  apply bind_returns_inv in H. destruct H as [now [st3 [H3 H]]].
  apply extern_returns in H3. destruct H3 as [_ [-> ->]].
  apply bind_returns_inv in H. destruct H as [pid' [st4 [H4 H]]].
  inversion H; subst. clear H.
  apply poll_pid_waited in H4; [|reflexivity]. destruct H4 as [Ha Hw].
  rewrite !extend_extend in Hw, Ha. cbn [history extend app] in Hw.
  split; [reflexivity|]. split; [exact Ha|].
  subst started. rewrite <- app_assoc. exact Hw.
Qed.


End Parts.

(** *** The whole run *)

Section Whole.

Variable w : world.
Variable fuel : nat.
Variable app : AppConfig.
Variable passthrough : list string.
Variable device_or_avd : option string.
Variable extra : option (list string).
Variable forward reverse : option (list Z).


Lemma quiet_not_kill (d : list event) :
  Forall (fun ev : event => quiet (fst ev) = true) d ->
  Forall (fun ev : event => is_kill (fst ev) = false) d.
Proof.
  apply Forall_impl. intros ev H. unfold quiet in H.
  apply andb_prop in H. destruct H as [H _].
  destruct (is_kill (fst ev)); [discriminate | reflexivity].
Qed.

(** What [setup] has done when it returns. *)
Lemma setup_returns (st st3 : state) :
  setup w app device_or_avd extra forward reverse st = (Returns tt, st3) ->
  exists d st1 st1' st2 D,
    select_device w app device_or_avd extra st = (Returns d, st1) /\
    command w (ConsoleInfo (starting_message app (fst d) (snd d)) (app_name app)) st1
      = (Returns tt, st1') /\
    install w app {| history := history st1'; adb := Some (fst d) |}
      = (Returns tt, st2) /\
    before_yield (forward_ports w (or_empty forward) (or_empty reverse)) st2
      = (Returns tt, st3) /\
    adb st3 = Some (fst d) /\
    history st3 = history st ++ D /\
    Forall (fun ev : event => quiet (fst ev) = true) D.
Proof.
  intros H. unfold setup in H.
  apply bind_returns_inv in H. destruct H as [d [st1 [Hs H]]].
  apply bind_returns_inv in H. destruct H as [[] [st1' [Hc H]]].
  apply bind_returns_inv in H. destruct H as [[] [stb [Hb H]]].
  inversion Hb; subst stb. clear Hb.
  apply bind_returns_inv in H. destruct H as [[] [st2 [Hi H]]].
  exists d, st1, st1', st2.
  destruct (@steps_select_device w quiet app device_or_avd extra
              (fun c H => H) _ _ _ Hs) as [d1 [E1 F1]].
  assert (Hq : quiet (ConsoleInfo (starting_message app (fst d) (snd d)) (app_name app)) = true)
    by reflexivity.
  destruct (@steps_extern quiet unit w _ (fun _ => tt) Hq _ _ _ Hc)
    as [d2 [E2 F2]].
  destruct (@steps_install w quiet app (fun c H => H) _ _ _ Hi) as [d3 [E3 F3]].
  destruct (@steps_before_yield w quiet (or_empty forward) (or_empty reverse)
              (fun c H => H) _ _ _ H) as [d4 [E4 F4]].
  exists (((d1 ++ d2) ++ d3) ++ d4).
  repeat split; try assumption.
  - subst st3 st2. reflexivity.
  - subst st3 st2 st1' st1. cbn [history extend]. rewrite <- !app_assoc. reflexivity.
  - repeat (apply Forall_app; split); assumption.
Qed.


End Whole.

(** *** The run comes to an end *)

(** With a clock that runs, 501 rounds of fuel are enough for [launch] to
    come to an end, whatever the device does. *)
Lemma launch_terminates (w : world) (n : nat) package passthrough st :
  clock_runs w -> (500 <= n)%nat ->
  fst (launch w (S n) package passthrough st) <> Unfinished.
Proof.
  intros Hc Hn. unfold launch, command.
  apply finishes_bind; [apply finishes_extern|]. intros dst st1 H1.
  apply finishes_bind; [apply finishes_extern|]. intros u st2 H2.
  apply finishes_bind; [apply finishes_extern|]. intros now st3 H3.
  apply (extern_returns w) in H3. destruct H3 as [_ [-> ->]].
  apply finishes_bind; [|intros pid st4 _; discriminate].
  apply poll_pid_terminates; [exact Hc|].
  cbn [history extend]. destruct Hc as [Hmono _].
  pose proof (Hmono (history st2) (ok DatetimeNow)). lia.
Qed.


Section Finishes.

Variable w : world.

Lemma finishes_ret' {A} (a : A) : finishes (ret a).
Proof. intros st. discriminate. Qed.

Lemma finishes_raise' {A} (e : exn) : finishes (@raise A e).
Proof. intros st. discriminate. Qed.

Lemma finishes_extern' {A} (c : call) (answer : list event -> A) :
  finishes (extern w c answer).
Proof. intros st. apply finishes_extern. Qed.

Lemma finishes_bind' {A B} (m : M A) (k : A -> M B) :
  finishes m -> (forall a, finishes (k a)) -> finishes (bind m k).
Proof.
  intros Hm Hk st. apply finishes_bind; [apply Hm|]. intros a st1 _. apply Hk.
Qed.

Lemma finishes_for_each (ports : list Z) (f : Z -> M unit) :
  (forall p, finishes (f p)) -> finishes (for_each ports f).
Proof.
  intros Hf. induction ports as [|p ports IH]; cbn [for_each].
  - apply finishes_ret'.
  - apply finishes_bind'; [apply Hf | intros _; exact IH].
Qed.

Lemma finishes_with {A} (g : generator) (body : M A) :
  finishes (before_yield g) -> finishes (after_yield g) -> finishes body ->
  finishes (with_ g body).
Proof.
  intros Hb Ha Hbody st. unfold with_.
  specialize (Hb st). destruct (before_yield g st) as [[u|e|] st1];
    [|discriminate|exfalso; apply Hb; reflexivity].
  specialize (Hbody st1). destruct (body st1) as [[a|e|] st2];
    [|discriminate|exfalso; apply Hbody; reflexivity].
  specialize (Ha st2). destruct (after_yield g st2) as [[u'|e|] st3];
    [discriminate|discriminate|exfalso; apply Ha; reflexivity].
Qed.

Lemma finishes_try_finally {A} (body : M A) (final : M unit) :
  finishes body -> finishes final -> finishes (try_finally body final).
Proof.
  intros Hb Hf st. unfold try_finally.
  specialize (Hb st). destruct (body st) as [[a|e|] st1];
    [| |exfalso; apply Hb; reflexivity];
    specialize (Hf st1); destruct (final st1) as [[u|e'|] st2];
    try discriminate; exfalso; apply Hf; reflexivity.
Qed.

Lemma finishes_forward_ports (forward reverse : list Z) :
  finishes (before_yield (forward_ports w forward reverse)) /\
  finishes (after_yield (forward_ports w forward reverse)).
Proof.
  split; cbn [before_yield after_yield forward_ports];
    (apply finishes_bind'; [|intros _]);
    apply finishes_for_each; intros p; apply finishes_extern'.
Qed.

(** With a clock that runs and fuel for 501 rounds, [run_app] comes to an
    end, whatever else the world does. *)
Lemma run_app_terminates (n : nat) app passthrough device_or_avd extra
    shutdown_on_exit forward reverse :
  clock_runs w -> (500 <= n)%nat ->
  finishes (run_app w (S n) app passthrough device_or_avd extra
                    shutdown_on_exit forward reverse).
Proof.
  intros Hc Hn. unfold run_app. apply finishes_bind'.
  - unfold select_device, command.
    apply finishes_bind'; [apply finishes_extern'|].
    intros [[device name] avd]. destruct device as [d|]; [apply finishes_ret'|].
    apply finishes_bind'.
    + destruct avd as [a|]; [|apply finishes_extern'].
      apply finishes_bind'; [apply finishes_extern' | intros _; apply finishes_ret'].
    + intros avd'. apply finishes_bind'; [apply finishes_extern'|]. intros _.
      apply finishes_bind'; [apply finishes_extern' | intros e; apply finishes_ret'].
  - intros d. apply finishes_try_finally.
    + unfold session, install, wait_bar, command.
      apply finishes_bind'; [apply finishes_extern'|]. intros _.
      apply finishes_bind'; [intros st; discriminate|]. intros _.
      apply finishes_bind'.
      { repeat (apply finishes_bind'; [apply finishes_extern' | intros _]).
        apply finishes_extern'. }
      intros _. apply finishes_with; try apply finishes_forward_ports.
      unfold launch_and_follow, wait_bar. apply finishes_bind'.
      * intros st. apply launch_terminates; assumption.
      * intros r. unfold follow_or_fail, command.
        destruct (truthy (snd r));
          repeat (apply finishes_bind'; [apply finishes_extern' | intros _]);
          first [apply finishes_extern' | apply finishes_raise'].
    + unfold shutdown, wait_bar. destruct shutdown_on_exit; [|apply finishes_ret'].
      intros st. unfold adb_kill. destruct (adb st); [|discriminate].
      apply finishes_extern.
Qed.

End Finishes.

(** The clock of the sample device runs. *)
Lemma silent_device_clock_runs : clock_runs (silent_device 10000).
Proof.
  split.
  - intros h ev. cbn [host_clock silent_device].
    rewrite filter_app, length_app. lia.
  - intros h. cbn [host_clock silent_device].
    rewrite filter_app, length_app. cbn [filter is_sleep ok fst length]. lia.
Qed.


(** *** Where no call raises *)

Section Calm.

Variable w : world.
Hypothesis calm : forall h c, raises w h c = None.




End Calm.

End RunFacts.

(** * The classifier: what the specification says of it *)

Module LogFilterSpec.
Import Re ReFacts LogFilter LogFilterFacts.

Lemma up_to_escape_split (s : str) :
  exists b, s = up_to_escape s ++ b /\ (b = [] \/ exists b', b = ESC :: b') /\
            Forall (fun x => x <> ESC) (up_to_escape s).
Proof.
  induction s as [|x s [b [Hs [Hb Hf]]]].
  - exists []. repeat split; auto.
  - cbn [up_to_escape]. destruct (x =? ESC)%N eqn:E.
    + apply N.eqb_eq in E. subst x. exists (ESC :: s). repeat split; auto.
      right. exists s. reflexivity.
    + apply N.eqb_neq in E. exists b. cbn [app]. repeat split; auto.
      f_equal. exact Hs.
Qed.

Lemma up_to_escape_all (s : str) :
  Forall (fun x => x <> ESC) s -> up_to_escape s = s.
Proof.
  induction 1 as [|x s Hx Hs IH]; [reflexivity|].
  cbn [up_to_escape]. apply N.eqb_neq in Hx. rewrite Hx, IH. reflexivity.
Qed.

(** A matched line is longer than its content. *)
Lemma scan_shorter (ansi : regex) (line t c : str) :
  scan ansi line = Some (t, c) -> (length c < length line)%nat.
Proof.
  intros H. apply scan_sound in H.
  destruct H as [pre [level [post [-> _]]]].
  rewrite !length_app. cbn [length]. rewrite !length_app. lia.
Qed.

(** C3.  A line that matches the pattern is classified to the content the
    pattern captures, and is included exactly when its tag is
    [python.stdout] or [python.stderr]: so for every line the compiled
    pattern matches, and so for every line written out as escape
    sequences, level letter, slash, tag, separator, content and a rest that
    is empty, the closing newline, or starts with an escape character.  The
    lines of scenarios A and C give ("Hello world", true) and
    ("oops", true). *)
Theorem classify_matching_line :
  (forall ansi line groups,
     no_groups ansi = true ->
     re_match (ANDROID_LOG_PREFIX_REGEX ansi) line = Some groups ->
     exists tag content include,
       group groups "tag" = Some tag /\
       group groups "content" = Some content /\
       android_log_clean_filter ansi line = (content, include) /\
       (include = true <-> tag = python_stdout \/ tag = python_stderr)) /\
  (forall ansi pre level tag content post,
     no_groups ansi = true -> skips_upper ansi ->
     ansi_run ansi pre ->
     is_upper level = true ->
     Forall (fun x => x <> NL) tag -> ~ occurs SEP tag ->
     Forall plain content ->
     (post = [] \/ post = [NL] \/ exists post', post = ESC :: post') ->
     exists include,
       android_log_clean_filter ansi
         (pre ++ level :: SLASH :: tag ++ SEP ++ content ++ post)
         = (content, include) /\
       (include = true <-> tag = python_stdout \/ tag = python_stderr)) /\
  classify (of_string "I/python.stdout: Hello world")
    = (of_string "Hello world", true) /\
  classify (ESC :: of_string "[32mI/python.stderr: oops" ++ ESC :: of_string "[0m")
    = (of_string "oops", true).
Proof.
  split; [|split; [|split; vm_compute; reflexivity]].
  - intros ansi line groups Hng Hm.
    destruct (@match_binds_groups ansi Hng _ _ Hm) as [tag [content [Ht [Hc Hs]]]].
    exists tag, content, (is_python_tag (Some tag)).
    repeat split; try assumption.
    + rewrite (@filter_scan ansi Hng), Hs. reflexivity.
    + apply is_python_tag_iff.
    + apply is_python_tag_iff.
  - intros ansi pre level tag content post Hng Hsk Hrun Hup Ht Hsep Hc Hp.
    exists (is_python_tag (Some tag)). split; [|apply is_python_tag_iff].
    apply filter_colored; try assumption. apply ahead_ok_cases. exact Hp.
Qed.

Lemma classify_matching_line_witness :
  exists include,
    android_log_clean_filter ansi_esc_seq
      ((csi (of_string "32") [] 109%N ++ [])
         ++ 73%N :: SLASH :: of_string "python.stderr" ++ SEP
         ++ of_string "oops" ++ csi (of_string "0") [] 109%N)
      = (of_string "oops", include) /\
    (include = true <->
     of_string "python.stderr" = python_stdout \/
     of_string "python.stderr" = python_stderr).
Proof.
  apply (proj1 (proj2 classify_matching_line) ansi_esc_seq
           (csi (of_string "32") [] 109%N ++ []) 73%N
           (of_string "python.stderr") (of_string "oops")
           (csi (of_string "0") [] 109%N)
           ansi_esc_seq_no_groups ansi_esc_seq_skips_upper).
  - apply ansi_run_cons; [|apply ansi_run_nil].
    apply csi_token; repeat constructor.
  - reflexivity.
  - repeat constructor; discriminate.
  - apply has_sep_occurs. reflexivity.
  - repeat constructor; discriminate.
  - right; right. eexists. reflexivity.
Defined.

(** C4.  A line the pattern does not match comes back unchanged with
    [include] false; so does, in particular, every line without the
    separator.  The classifier is total: on every line it returns a pair,
    and on a match both groups are bound, so that the content is a text. *)
Theorem classify_other_line :
  forall ansi line,
    (re_match (ANDROID_LOG_PREFIX_REGEX ansi) line = None ->
     android_log_clean_filter ansi line = (line, false)) /\
    (no_groups ansi = true -> ~ occurs SEP line ->
     android_log_clean_filter ansi line = (line, false)) /\
    (no_groups ansi = true ->
     exists content include,
       android_log_clean_filter ansi line = (content, include) /\
       match re_match (ANDROID_LOG_PREFIX_REGEX ansi) line with
       | Some groups =>
           group groups "content" = Some content /\ group groups "tag" <> None
       | None => content = line /\ include = false
       end).
Proof.
  intros ansi line. split; [|split].
  - intros H. unfold android_log_clean_filter. rewrite H. reflexivity.
  - intros Hng Hsep. rewrite (@filter_scan ansi Hng).
    destruct (scan ansi line) as [[t c]|] eqn:E; [|reflexivity].
    exfalso. apply Hsep. apply scan_sound in E.
    destruct E as [pre [level [post [-> _]]]].
    exists (pre ++ level :: SLASH :: t), (c ++ post).
    rewrite <- !app_assoc. reflexivity.
  - intros Hng.
    destruct (re_match (ANDROID_LOG_PREFIX_REGEX ansi) line) as [g|] eqn:E.
    + destruct (@match_binds_groups ansi Hng _ _ E) as [tag [content [Ht [Hc Hs]]]].
      exists content, (is_python_tag (Some tag)). split.
      * rewrite (@filter_scan ansi Hng), Hs. reflexivity.
      * split; [exact Hc | congruence].
    + exists line, false. unfold android_log_clean_filter. rewrite E.
      repeat split; reflexivity.
Qed.

Lemma classify_other_line_witness :
  classify (of_string "--------- beginning of main")
    = (of_string "--------- beginning of main", false).
Proof.
  apply (proj1 (classify_other_line ansi_esc_seq
                  (of_string "--------- beginning of main"))).
  vm_compute. reflexivity.
Defined.

(** A line made of escape sequences, the level letter, a slash, a tag that
    holds no separator, the separator, and the rest of the line.  The groups
    are the tag and the rest up to its first escape character. *)
Lemma groups_of_line (ansi : regex) (pre : str) (level : char) (tag rest : str) :
  no_groups ansi = true -> skips_upper ansi -> ansi_run ansi pre ->
  is_upper level = true ->
  Forall (fun x => x <> NL) tag -> ~ occurs SEP tag ->
  Forall (fun x => x <> NL) rest ->
  scan ansi (pre ++ level :: SLASH :: tag ++ SEP ++ rest)
    = Some (tag, up_to_escape rest).
Proof.
  intros Hng Hsk Hrun Hup Ht Hsep Hr.
  destruct (up_to_escape_split rest) as [b [Hs [Hb Hf]]].
  remember (up_to_escape rest) as a eqn:Ha. clear Ha. subst rest.
  apply Forall_app in Hr. destruct Hr as [Hra _].
  rewrite (@scan_colored ansi pre level _ Hsk Hrun Hup), (@scan_line_here level _ Hup).
  eapply scan_tag_complete; [assumption | assumption |].
  apply scan_content_complete.
  - rewrite Forall_forall in *. intros x Hx. split; auto.
  - apply ahead_ok_cases. destruct Hb as [->|[b' ->]]; [left | right; right; exists b'];
      reflexivity.
Qed.

(** C5, as it stands, fails: a system line whose content is itself a log
    line has [include] false, and classifying its content again strips a
    second prefix. *)
Lemma classify_twice_counterexample :
  snd (classify (of_string "W/Tag: I/python.stdout: hi")) = false /\
  fst (classify (fst (classify (of_string "W/Tag: I/python.stdout: hi"))))
    <> fst (classify (of_string "W/Tag: I/python.stdout: hi")).
Proof.
  split; [vm_compute; reflexivity|]. vm_compute. intros H. discriminate H.
Qed.

(** C5, amended.  Classifying the returned content again gives that content
    back exactly when the content does not itself match the pattern; a line
    that does not match is returned unchanged, and so is a fixed point. *)
Theorem classify_twice :
  forall ansi line,
    no_groups ansi = true ->
    (fst (android_log_clean_filter ansi (fst (android_log_clean_filter ansi line)))
       = fst (android_log_clean_filter ansi line)
     <-> re_match (ANDROID_LOG_PREFIX_REGEX ansi)
                  (fst (android_log_clean_filter ansi line)) = None) /\
    (re_match (ANDROID_LOG_PREFIX_REGEX ansi) line = None ->
     android_log_clean_filter ansi (fst (android_log_clean_filter ansi line))
       = (line, false)).
Proof.
  intros ansi line Hng. split.
  - generalize (fst (android_log_clean_filter ansi line)). intros c. split.
    + intros H. rewrite (@re_match_scan ansi Hng).
      rewrite (@filter_scan ansi Hng) in H.
      destruct (scan ansi c) as [[t c']|] eqn:E; [|reflexivity].
      apply scan_shorter in E. cbn [fst snd] in H. subst c'. lia.
    + intros H. unfold android_log_clean_filter. rewrite H. reflexivity.
  - intros H. unfold android_log_clean_filter at 2. rewrite H. cbn [fst].
    unfold android_log_clean_filter. rewrite H. reflexivity.
Qed.

Lemma classify_twice_witness :
  fst (classify (fst (classify (of_string "W/ActivityManager: Some warning"))))
    = fst (classify (of_string "W/ActivityManager: Some warning")).
Proof.
  apply (proj1 (@classify_twice ansi_esc_seq
                  (of_string "W/ActivityManager: Some warning") eq_refl)).
  vm_compute. reflexivity.
Defined.

(** C7, as it stands, fails: what ends the content is the escape character,
    not an escape sequence.  The content stops at an escape character that
    starts no escape sequence, on a line that holds none at all; and it runs
    over an escape sequence in its 8-bit form, which holds no escape
    character. *)
Lemma first_escape_sequence_counterexample :
  classify (of_string "I/python.stdout: a" ++ ESC :: of_string "z")
    = (of_string "a", true) /\
  Escapes.no_escape_sequence ansi_esc_seq
    (of_string "I/python.stdout: a" ++ ESC :: of_string "z") = true /\
  of_string "a" <> of_string "a" ++ ESC :: of_string "z" /\
  classify (of_string "I/python.stdout: a" ++ 155%N :: of_string "0mb")
    = (of_string "a" ++ 155%N :: of_string "0mb", true) /\
  Escapes.starts_escape_sequence ansi_esc_seq (155%N :: of_string "0mb") = true.
Proof.
  repeat split; try (vm_compute; reflexivity).
  vm_compute. intros H. discriminate H.
Qed.

(** C7, amended.  On every line the pattern matches, the content is the text
    between the separator that ends the tag and the first escape character
    after it, whether an escape sequence starts there or not, or the end of
    the line when there is none: the content holds neither an escape
    character nor a newline, and what follows it is nothing, the closing
    newline, or text that starts with the escape character.  So a line with
    several escape characters after its separator has its content stop at
    the first of them, and a line that ends with its separator has the empty
    text as content, the tag counting as usual. *)
Theorem content_ends_at_first_escape :
  (forall ansi line groups,
     no_groups ansi = true ->
     re_match (ANDROID_LOG_PREFIX_REGEX ansi) line = Some groups ->
     exists pre level tag content post,
       group groups "tag" = Some tag /\
       group groups "content" = Some content /\
       line = pre ++ level :: SLASH :: tag ++ SEP ++ content ++ post /\
       is_upper level = true /\
       Forall (fun x => x <> NL) tag /\ ~ occurs SEP tag /\
       Forall plain content /\
       (post = [] \/ post = [NL] \/ exists post', post = ESC :: post') /\
       android_log_clean_filter ansi line = (content, is_python_tag (Some tag))) /\
  (forall ansi pre level tag rest,
     no_groups ansi = true -> skips_upper ansi -> ansi_run ansi pre ->
     is_upper level = true ->
     Forall (fun x => x <> NL) tag -> ~ occurs SEP tag ->
     Forall (fun x => x <> NL) rest ->
     android_log_clean_filter ansi (pre ++ level :: SLASH :: tag ++ SEP ++ rest)
       = (up_to_escape rest, is_python_tag (Some tag))) /\
  (forall ansi pre level tag,
     no_groups ansi = true -> skips_upper ansi -> ansi_run ansi pre ->
     is_upper level = true ->
     Forall (fun x => x <> NL) tag -> ~ occurs SEP tag ->
     android_log_clean_filter ansi (pre ++ level :: SLASH :: tag ++ SEP)
       = ([], is_python_tag (Some tag))) /\
  classify (of_string "I/python.stdout: a" ++ ESC :: of_string "[1mb"
              ++ ESC :: of_string "[0m")
    = (of_string "a", true) /\
  classify (of_string "I/python.stdout: ") = ([], true).
Proof.
  split; [|split; [|split; [|split; vm_compute; reflexivity]]].
  - intros ansi line groups Hng Hm.
    destruct (@match_binds_groups ansi Hng _ _ Hm) as [tag [content [Ht [Hc Hs]]]].
    destruct (@scan_sound ansi _ _ _ Hs) as [pre [level [post [Hl [Hup [Hnl [Hsep [Hp Ha]]]]]]]].
    exists pre, level, tag, content, post.
    repeat split; try assumption.
    + apply ahead_ok_cases. exact Ha.
    + rewrite (@filter_scan ansi Hng), Hs. reflexivity.
  - intros ansi pre level tag rest Hng Hsk Hrun Hup Ht Hsep Hr.
    rewrite (@filter_scan ansi Hng),
      (@groups_of_line ansi pre level tag rest Hng Hsk Hrun Hup Ht Hsep Hr).
    reflexivity.
  - intros ansi pre level tag Hng Hsk Hrun Hup Ht Hsep.
    pose proof (@groups_of_line ansi pre level tag [] Hng Hsk Hrun Hup Ht Hsep
                  (Forall_nil _)) as H.
    rewrite (@filter_scan ansi Hng). rewrite app_nil_r in H. rewrite H. reflexivity.
Qed.

Lemma content_ends_at_first_escape_witness :
  android_log_clean_filter ansi_esc_seq
    ((csi (of_string "31") [] 109%N ++ [])
       ++ 73%N :: SLASH :: of_string "python.stderr" ++ SEP
       ++ of_string "Traceback" ++ csi (of_string "0") [] 109%N
       ++ of_string " (most recent call last):" ++ csi (of_string "0") [] 109%N)
    = (of_string "Traceback", true).
Proof.
  apply (proj1 (proj2 content_ends_at_first_escape) ansi_esc_seq
           (csi (of_string "31") [] 109%N ++ []) 73%N
           (of_string "python.stderr")
           (of_string "Traceback" ++ csi (of_string "0") [] 109%N
              ++ of_string " (most recent call last):"
              ++ csi (of_string "0") [] 109%N)
           ansi_esc_seq_no_groups ansi_esc_seq_skips_upper).
  - apply ansi_run_cons; [|apply ansi_run_nil].
    apply csi_token; repeat constructor.
  - reflexivity.
  - repeat constructor; discriminate.
  - apply has_sep_occurs. reflexivity.
  - repeat constructor; discriminate.
Defined.

(** C10, as it stands, fails: after the first separator the content stops
    at an escape character, so it is not always all that follows. *)
Lemma lazy_tag_counterexample :
  classify (of_string "I/python.stdout: a: b" ++ ESC :: of_string "[0m")
    = (of_string "a: b", true) /\
  of_string "a: b" <> of_string "a: b" ++ ESC :: of_string "[0m".
Proof.
  split; [vm_compute; reflexivity|]. vm_compute. intros H. discriminate H.
Qed.

(** C10, amended.  The tag is matched lazily: on a line made of a level
    letter, a slash, a tag that holds no separator, the separator and a
    rest, the tag group is that tag, whatever separators the rest holds, and
    the content is the rest up to its first escape character: all of the
    rest when it has none. *)
Theorem lazy_tag_first_separator :
  (forall ansi level tag rest,
     no_groups ansi = true -> skips_upper ansi ->
     is_upper level = true ->
     Forall (fun x => x <> NL) tag -> ~ occurs SEP tag ->
     Forall (fun x => x <> NL) rest ->
     (exists groups,
        re_match (ANDROID_LOG_PREFIX_REGEX ansi)
                 (level :: SLASH :: tag ++ SEP ++ rest) = Some groups /\
        group groups "tag" = Some tag /\
        group groups "content" = Some (up_to_escape rest)) /\
     android_log_clean_filter ansi (level :: SLASH :: tag ++ SEP ++ rest)
       = (up_to_escape rest, is_python_tag (Some tag)) /\
     (Forall (fun x => x <> ESC) rest ->
      android_log_clean_filter ansi (level :: SLASH :: tag ++ SEP ++ rest)
        = (rest, is_python_tag (Some tag)))) /\
  classify (of_string "I/python.stdout: a: b") = (of_string "a: b", true).
Proof.
  split; [|vm_compute; reflexivity].
  intros ansi level tag rest Hng Hsk Hup Ht Hsep Hr.
  pose proof (@groups_of_line ansi [] level tag rest Hng Hsk (ansi_run_nil ansi)
                Hup Ht Hsep Hr) as Hs.
  cbn [app] in Hs.
  assert (Hf : android_log_clean_filter ansi (level :: SLASH :: tag ++ SEP ++ rest)
               = (up_to_escape rest, is_python_tag (Some tag))).
  { rewrite (@filter_scan ansi Hng), Hs. reflexivity. }
  split; [|split].
  - eexists. rewrite (@re_match_scan ansi Hng), Hs. cbn [option_map fst snd].
    split; [reflexivity|]. split; reflexivity.
  - exact Hf.
  - intros He. rewrite Hf, (@up_to_escape_all rest He). reflexivity.
Qed.

Lemma lazy_tag_first_separator_witness :
  android_log_clean_filter ansi_esc_seq (of_string "I/python.stdout: key: value")
    = (of_string "key: value", true).
Proof.
  apply (proj1 lazy_tag_first_separator ansi_esc_seq
           73%N (of_string "python.stdout") (of_string "key: value")
           ansi_esc_seq_no_groups ansi_esc_seq_skips_upper eq_refl).
  - repeat constructor; discriminate.
  - apply has_sep_occurs. reflexivity.
  - repeat constructor; discriminate.
  - repeat constructor; discriminate.
Defined.

End LogFilterSpec.

(** * The run: what the specification says of it *)

Module RunSpec.
Import Run RunFacts.
Open Scope list_scope.





(** C1.  The mappings do not go away on every exit path.  Whenever the
    body of the scope of [forward_ports] raises, the scope ends where the
    body did, with none of the removals called.  So on a device where the
    app never shows up, with port 8080 forwarded and port 9000 reversed, the
    run ends in the error raised inside the scope, no removal is called and
    both mappings are still in place when the run is over; and so when the
    run is interrupted during the wait for the pid. *)
Theorem forward_ports_outlive_failed_launch :
  (forall w forward reverse (A : Type) (body : M A) st st1 st2 e,
     before_yield (forward_ports w forward reverse) st = (Returns tt, st1) ->
     body st1 = (Raises e, st2) ->
     with_ (forward_ports w forward reverse) body st = (Raises e, st2)) /\
  fst (run_app (silent_device 10000) 600 helloworld [] None None false
               (Some [8080]) (Some [9000]) fresh)
    = Raises (problem_starting helloworld) /\
  existsb is_removal
    (calls (history (snd (run_app (silent_device 10000) 600 helloworld [] None
                                  None false (Some [8080]) (Some [9000]) fresh))))
    = false /\
  active (history (snd (run_app (silent_device 10000) 600 helloworld [] None
                                None false (Some [8080]) (Some [9000]) fresh)))
    = [(HostToDevice, 8080); (DeviceToHost, 9000)] /\
  fst (run_app (failing is_sleeping KeyboardInterrupt (silent_device 10000))
               600 helloworld [] None None false
               (Some [8080]) (Some [9000]) fresh)
    = Raises KeyboardInterrupt /\
  active (history (snd (
    run_app (failing is_sleeping KeyboardInterrupt (silent_device 10000))
            600 helloworld [] None None false
            (Some [8080]) (Some [9000]) fresh)))
    = [(HostToDevice, 8080); (DeviceToHost, 9000)].
Proof.
  split.
  - intros w forward reverse A body st st1 st2 e H1 H2.
    apply (with_body_raises H1 H2).
  - repeat split; vm_compute; reflexivity.
Qed.

Lemma forward_ports_outlive_failed_launch_witness :
  with_ (forward_ports (silent_device 10000) [8080] [9000])
        (raise (A := unit) KeyboardInterrupt) fresh
    = (Raises KeyboardInterrupt,
       extend fresh [ok (Forward 8080 8080); ok (Reverse 9000 9000)]).
Proof.
  apply (proj1 forward_ports_outlive_failed_launch (silent_device 10000)
           [8080] [9000] unit (raise KeyboardInterrupt) fresh
           (extend fresh [ok (Forward 8080 8080); ok (Reverse 9000 9000)])).
  - reflexivity.
  - reflexivity.
Defined.

(** C2, as it stands, fails: when the removal of the forward of port 8080
    fails, the forward of 8081 and the reverse of 9000 get no removal call,
    and all three mappings stay in place. *)
Lemma teardown_counterexample :
  filter is_removal
    (calls (history (snd (
       run_app (failing (removes_forward 8080)
                        (BriefcaseCommandError "Unable to remove forwarded port 8080.")
                        (starting 2 "1234" (silent_device 10000)))
               600 helloworld [] None None false
               (Some [8080; 8081]) (Some [9000]) fresh))))
    = [ForwardRemove 8080] /\
  active (history (snd (
       run_app (failing (removes_forward 8080)
                        (BriefcaseCommandError "Unable to remove forwarded port 8080.")
                        (starting 2 "1234" (silent_device 10000)))
               600 helloworld [] None None false
               (Some [8080; 8081]) (Some [9000]) fresh)))
    = [(HostToDevice, 8080); (HostToDevice, 8081); (DeviceToHost, 9000)].
Proof. split; vm_compute; reflexivity. Qed.

(** C2, amended.  The teardown calls the removals in order, the forwards
    and then the reverses, up to and with the first one that fails; that
    failure is raised at once and the ports after it get no removal call.
    When no removal fails, every port gets its removal call. *)
Theorem teardown_stops_at_first_failure :
  forall w forward reverse st,
    after_yield (forward_ports w forward reverse) st
      = (Returns tt, extend st (map ok (removals forward reverse))) \/
    exists done c rest e,
      removals forward reverse = done ++ c :: rest /\
      raises w (history st ++ map ok done) c = Some e /\
      after_yield (forward_ports w forward reverse) st
        = (Raises e, extend st (map ok done ++ [(c, Some e)])).
Proof.
  intros w forward reverse st.
  destruct (teardown_cases w forward reverse st)
    as [H|[done [c [rest [e [Hs [Hr H]]]]]]]; [left; exact H|].
  right. exists done, c, rest, e. repeat split; assumption.
Qed.





(** When the selection of the device fails, the run ends there, before the
    [try] of line 423: no device is terminated although [shutdown_on_exit]
    is set. *)
Lemma selection_failure_stops_nothing :
  fst (run_app (failing is_selection
                        (BriefcaseCommandError "Unable to find a device")
                        (silent_device 10000))
               600 helloworld [] None None true None None fresh)
    = Raises (BriefcaseCommandError "Unable to find a device") /\
  existsb is_kill
    (calls (history (snd (
       run_app (failing is_selection
                        (BriefcaseCommandError "Unable to find a device")
                        (silent_device 10000))
               600 helloworld [] None None true None None fresh))))
    = false.
Proof. split; vm_compute; reflexivity. Qed.

(** Once the device is selected (booted if need be) and the run has announced
    the start, every run with [shutdown_on_exit] set ends with [adb.kill()]
    as its last call: on success, on the failure of any later step, on
    cancellation.  A failure while selecting or booting the device ends the
    run at once, without any call to terminate a device. *)
Lemma kill_is_last_once_announced :
  forall w fuel app passthrough device_or_avd extra forward reverse st,
    (forall d st1 r st',
       select_device w app device_or_avd extra st = (Returns d, st1) ->
       raises w (history st1)
              (ConsoleInfo (starting_message app (fst d) (snd d)) (app_name app)) = None ->
       run_app w fuel app passthrough device_or_avd extra true forward reverse st
         = (r, st') ->
       r <> Unfinished ->
       exists h e, history st' = h ++ [(Kill, e)]) /\
    (forall e st1 shutdown_on_exit,
       select_device w app device_or_avd extra st = (Raises e, st1) ->
       run_app w fuel app passthrough device_or_avd extra shutdown_on_exit
               forward reverse st = (Raises e, st1) /\
       exists D,
         history st1 = history st ++ D /\
         Forall (fun ev : event => is_kill (fst ev) = false) D).
Proof.
  intros w fuel app passthrough device_or_avd extra forward reverse st. split.
  - intros d st1 r st' Hs Hc Hrun Hr.
    unfold run_app in Hrun. rewrite (bind_returns _ Hs) in Hrun.
    unfold try_finally in Hrun.
    destruct (session w fuel app passthrough (fst d) (snd d) forward reverse st1)
      as [r0 st2] eqn:Es.
    assert (Hadb : adb st2 = Some (fst d)).
    { unfold session in Es.
      destruct (command_cases w (ConsoleInfo (starting_message app (fst d) (snd d)) (app_name app)) st1)
        as [[_ Hm]|[e [He _]]]; [|congruence].
      rewrite (bind_returns _ Hm) in Es.
      assert (Hbind : bind_adb (fst d) (extend st1
                        [ok (ConsoleInfo (starting_message app (fst d) (snd d)) (app_name app))])
                      = (Returns tt,
                         {| history := history (extend st1
                              [ok (ConsoleInfo (starting_message app (fst d) (snd d)) (app_name app))]);
                            adb := Some (fst d) |}))
        by reflexivity.
      rewrite (bind_returns _ Hbind) in Es.
      assert (Hsteps : steps (fun _ => true)
                (install w app ;;
                 with_ (forward_ports w (or_empty forward) (or_empty reverse))
                       (launch_and_follow w fuel app passthrough))).
      { apply steps_bind; [apply steps_install; reflexivity|].
        intros _. apply steps_scope. }
      apply Hsteps in Es. destruct Es as [D [-> _]]. reflexivity. }
    assert (Hkill : exists e st3,
              shutdown w true st2 = (match e with
                                     | Some e' => Raises e'
                                     | None => Returns tt
                                     end, st3) /\
              history st3 = history st2 ++ [(Kill, e)]).
    { unfold shutdown, wait_bar, adb_kill. rewrite Hadb.
      destruct (command_cases w Kill st2) as [[_ Hk]|[e [_ Hk]]]; rewrite Hk.
      - exists None. eexists. split; reflexivity.
      - exists (Some e). eexists. split; reflexivity. }
    destruct Hkill as [e [st3 [Hk Hh]]].
    destruct r0 as [a|e0|].
    + rewrite Hk in Hrun. exists (history st2), e.
      destruct e; inversion Hrun; subst; exact Hh.
    + rewrite Hk in Hrun. exists (history st2), e.
      destruct e; inversion Hrun; subst; exact Hh.
    + inversion Hrun; subst. exfalso. apply Hr. reflexivity.
  - intros e st1 sd Hs. split.
    + unfold run_app. rewrite (bind_raises _ Hs). reflexivity.
    + destruct (@steps_select_device w quiet app device_or_avd extra
                  (fun c H => H) _ _ _ Hs) as [D [-> HD]].
      exists D. split; [reflexivity | apply quiet_not_kill; exact HD].
Qed.

(** C9.  The emulator is not stopped on every way out of the [try].  The
    [finally] clause of line 502 calls [adb.kill()], but the name [adb] is
    bound at line 431 only, after the announcement of line 426.  When that
    announcement raises, be it an interrupt, the clause finds [adb] unbound:
    the run ends in [UnboundLocalError], which takes the place of the error
    raised, and makes no call to stop the device, also when this very run
    has created and booted the emulator.  From line 431 on the clause does
    its work: every run that comes to an end ends with [adb.kill()]. *)
Theorem shutdown_fails_with_adb_unbound :
  (forall w fuel app passthrough device_or_avd extra forward reverse st d st1 e,
     adb st = None ->
     select_device w app device_or_avd extra st = (Returns d, st1) ->
     raises w (history st1)
            (ConsoleInfo (starting_message app (fst d) (snd d)) (app_name app))
       = Some e ->
     run_app w fuel app passthrough device_or_avd extra true forward reverse st
       = (Raises (UnboundLocalError "adb"),
          extend st1
            [(ConsoleInfo (starting_message app (fst d) (snd d)) (app_name app),
              Some e)])) /\
  (forall w fuel app passthrough device_or_avd extra forward reverse st d st1 r st',
     select_device w app device_or_avd extra st = (Returns d, st1) ->
     raises w (history st1)
            (ConsoleInfo (starting_message app (fst d) (snd d)) (app_name app))
       = None ->
     run_app w fuel app passthrough device_or_avd extra true forward reverse st
       = (r, st') ->
     r <> Unfinished ->
     exists h e, history st' = h ++ [(Kill, e)]) /\
  fst (run_app (failing Ports.is_start_announcement KeyboardInterrupt
                        (Ports.without_device (silent_device 10000)))
               600 helloworld [] None None true None None fresh)
    = Raises (UnboundLocalError "adb") /\
  existsb is_kill
    (calls (history (snd (
       run_app (failing Ports.is_start_announcement KeyboardInterrupt
                        (Ports.without_device (silent_device 10000)))
               600 helloworld [] None None true None None fresh))))
    = false /\
  filter Ports.is_emulator_call
    (calls (history (snd (
       run_app (failing Ports.is_start_announcement KeyboardInterrupt
                        (Ports.without_device (silent_device 10000)))
               600 helloworld [] None None true None None fresh))))
    = [CreateEmulator; StartEmulator "beePhone" None].
Proof.
  split; [|split; [|split; [|split]]]; try (vm_compute; reflexivity).
  - intros w fuel app passthrough device_or_avd extra forward reverse
           st d st1 e Hadb Hs He.
    assert (Hadb1 : adb st1 = None).
    { destruct (@steps_select_device w quiet app device_or_avd extra
                  (fun c H => H) _ _ _ Hs) as [D [-> _]]. exact Hadb. }
    unfold run_app. rewrite (bind_returns _ Hs). unfold try_finally, session.
    destruct (command_cases w (ConsoleInfo (starting_message app (fst d) (snd d))
                                           (app_name app)) st1)
      as [[Hn _]|[e' [He' Hc]]]; [congruence|].
    rewrite He in He'. injection He' as <-.
    rewrite (bind_raises _ Hc).
    unfold shutdown, wait_bar, adb_kill. cbn [adb extend]. rewrite Hadb1.
    reflexivity.
  - intros w fuel app passthrough device_or_avd extra forward reverse
           st d st1 r st' Hs Hn Hrun Hr.
    exact (proj1 (kill_is_last_once_announced w fuel app passthrough
                    device_or_avd extra forward reverse st)
                 d st1 r st' Hs Hn Hrun Hr).
Qed.

Lemma shutdown_fails_with_adb_unbound_witness :
  run_app (failing Ports.is_start_announcement KeyboardInterrupt
                   (Ports.without_device (silent_device 10000)))
          600 helloworld [] None None true None None fresh
    = (Raises (UnboundLocalError "adb"),
       extend
         (extend fresh
            [ok (SelectTargetDevice None); ok CreateEmulator;
             ok (ConsoleInfo "Starting emulator beePhone..." "helloworld");
             ok (StartEmulator "beePhone" None)])
         [(ConsoleInfo "Starting app on @beePhone (device ID emulator-5554)"
                       "helloworld",
           Some KeyboardInterrupt)]).
Proof.
  apply (proj1 shutdown_fails_with_adb_unbound
           (failing Ports.is_start_announcement KeyboardInterrupt
                    (Ports.without_device (silent_device 10000)))
           600%nat helloworld [] None None None None fresh
           ("emulator-5554"%string, Some "@beePhone"%string)
           (extend fresh
              [ok (SelectTargetDevice None); ok CreateEmulator;
               ok (ConsoleInfo "Starting emulator beePhone..." "helloworld");
               ok (StartEmulator "beePhone" None)])
           KeyboardInterrupt).
  - reflexivity.
  - vm_compute. reflexivity.
  - vm_compute. reflexivity.
Defined.

End RunSpec.

(** * App names *)

Module NamesFacts.
Import Re ReFacts Names.

(** The greedy star over a class reads the whole run first. *)
Lemma star_class_first (p : char -> bool) (c : caps) :
  forall s, hd_error (matches (Star (Class p)) s c) = Some (lstrip p s, c).
Proof.
  induction s as [|x s IH]; [reflexivity|].
  rewrite matches_star. cbn [length star_aux lstrip].
  assert (Hstep : matches (Class p) (x :: s) c = if p x then [(s, c)] else [])
    by reflexivity.
  rewrite Hstep. destruct (p x); cbn [flat_map fst snd app]; [|reflexivity].
  assert (Hlt : (length s <? S (length s))%nat = true) by (apply Nat.ltb_lt; lia).
  rewrite Hlt, app_nil_r, <- matches_star.
  destruct (matches (Star (Class p)) s c) as [|t l]; [discriminate IH | exact IH].
Qed.

Lemma lstrip_length (p : char -> bool) (s : str) :
  (length (lstrip p s) <= length s)%nat.
Proof.
  induction s as [|x s IH]; cbn [lstrip]; [lia|].
  destruct (p x); cbn [length]; lia.
Qed.

(** Replacing a class by nothing filters it out. *)
Lemma sub_class (p : char -> bool) :
  forall fuel s, (length s <= fuel)%nat ->
  sub_from fuel (Class p) [] s = filter (fun x => negb (p x)) s.
Proof.
  induction fuel as [|fuel IH]; intros s Hlen.
  - destruct s; [reflexivity | cbn [length] in Hlen; lia].
  - destruct s as [|x s]; [reflexivity|]. cbn [length] in Hlen.
    cbn [sub_from matches filter]. destruct (p x); cbn [hd_error negb fst length].
    + assert (Hlt : (length s <? S (length s))%nat = true)
        by (apply Nat.ltb_lt; lia).
      rewrite Hlt. cbn [app]. apply IH. lia.
    + f_equal. apply IH. lia.
Qed.

Section Whitespace.

Variable isspace : char -> bool.

Lemma spaces_re_first (x : char) (s : str) :
  hd_error (matches (spaces_re isspace) (x :: s) []) =
  if isspace x then Some (lstrip isspace s, []) else None.
Proof.
  unfold spaces_re. rewrite matches_cat, hd_error_flat_map.
  assert (Hstep : matches (Class isspace) (x :: s) []
                  = if isspace x then [(s, [])] else []) by reflexivity.
  rewrite Hstep. destruct (isspace x); [|reflexivity].
  cbn [first_some fst snd]. rewrite star_class_first. reflexivity.
Qed.

Lemma squeeze_in_run (s : str) :
  squeeze isspace true s = squeeze isspace false (lstrip isspace s).
Proof.
  induction s as [|x s IH]; [reflexivity|].
  cbn [squeeze lstrip]. destruct (isspace x) eqn:E; [exact IH|].
  cbn [squeeze]. rewrite E. reflexivity.
Qed.

(** Replacing [\s+] by a space squeezes every run of whitespace. *)
Lemma sub_spaces :
  forall fuel s, (length s <= fuel)%nat ->
  sub_from fuel (spaces_re isspace) [SPACE] s = squeeze isspace false s.
Proof.
  induction fuel as [|fuel IH]; intros s Hlen.
  - destruct s; [reflexivity | cbn [length] in Hlen; lia].
  - destruct s as [|x s]; [reflexivity|]. cbn [length] in Hlen.
    cbn [sub_from squeeze]. rewrite spaces_re_first.
    destruct (isspace x); cbn [fst].
    + pose proof (lstrip_length isspace s) as Hl.
      assert (Hlt : (length (lstrip isspace s) <? length (x :: s))%nat = true)
        by (apply Nat.ltb_lt; cbn [length]; lia).
      rewrite Hlt. cbn [app]. f_equal. rewrite squeeze_in_run. apply IH. lia.
    + f_equal. apply IH. lia.
Qed.

(** [safe_formal_name], without the patterns. *)
Lemma safe_formal_name_direct (name : str) :
  safe_formal_name isspace name =
  strip isspace
    (squeeze isspace false (filter (fun x => negb (forbidden x)) name)).
Proof.
  unfold safe_formal_name, re_sub.
  rewrite sub_class by lia. rewrite sub_spaces by lia. reflexivity.
Qed.

(** *** Stripping *)

Lemma lstrip_split (s : str) :
  exists t, s = t ++ lstrip isspace s /\
            Forall (fun x => isspace x = true) t /\
            (forall x r, lstrip isspace s = x :: r -> isspace x = false).
Proof.
  induction s as [|x s [t [Hs [Ht Hh]]]].
  - exists []. repeat split; [constructor | discriminate].
  - cbn [lstrip]. destruct (isspace x) eqn:E.
    + exists (x :: t). cbn [app]. repeat split; [f_equal; exact Hs | | exact Hh].
      constructor; assumption.
    + exists []. repeat split; [constructor|].
      intros y r H. inversion H; subst. exact E.
Qed.

Lemma lstrip_id (s : str) :
  (forall x r, s = x :: r -> isspace x = false) -> lstrip isspace s = s.
Proof.
  intros H. destruct s as [|x s]; [reflexivity|].
  cbn [lstrip]. rewrite (H x s eq_refl). reflexivity.
Qed.

Lemma rstrip_split (s : str) :
  exists t, s = rstrip isspace s ++ t /\
            Forall (fun x => isspace x = true) t /\
            (forall a x, rstrip isspace s = a ++ [x] -> isspace x = false).
Proof.
  unfold rstrip. destruct (lstrip_split (rev s)) as [t [Hs [Ht Hh]]].
  exists (rev t). repeat split.
  - rewrite <- rev_app_distr, <- Hs, rev_involutive. reflexivity.
  - apply Forall_rev. exact Ht.
  - intros a x H. apply (Hh x (rev a)).
    rewrite <- (rev_involutive (lstrip isspace (rev s))), H, rev_app_distr.
    reflexivity.
Qed.

Lemma rstrip_id (s : str) :
  (forall a x, s = a ++ [x] -> isspace x = false) -> rstrip isspace s = s.
Proof.
  intros H. unfold rstrip. rewrite lstrip_id; [apply rev_involutive|].
  intros x r Hr. apply (H (rev r) x).
  rewrite <- (rev_involutive s), Hr. reflexivity.
Qed.

(** *** Single spacing *)

Lemma single_spaced_weaken (b : bool) (s : str) :
  single_spaced isspace true s = true -> single_spaced isspace b s = true.
Proof.
  destruct s as [|x s]; [reflexivity|]. cbn [single_spaced].
  destruct (isspace x); [discriminate | trivial].
Qed.

Lemma single_spaced_squeeze (s : str) :
  forall b, single_spaced isspace b (squeeze isspace b s) = true.
Proof.
  induction s as [|x s IH]; intros b; [reflexivity|].
  cbn [squeeze]. destruct (isspace x) eqn:E.
  - destruct b; [apply IH|]. cbn [single_spaced].
    destruct (isspace SPACE).
    + rewrite N.eqb_refl. apply IH.
    + apply single_spaced_weaken. apply IH.
  - cbn [single_spaced]. rewrite E. destruct b; apply IH.
Qed.

Lemma single_spaced_head (s : str) (x : char) (r : str) :
  single_spaced isspace true s = true -> s = x :: r -> isspace x = false.
Proof.
  intros H ->. cbn [single_spaced] in H.
  destruct (isspace x); [discriminate | reflexivity].
Qed.

Lemma single_spaced_lstrip (s : str) :
  forall b, single_spaced isspace b s = true ->
            single_spaced isspace true (lstrip isspace s) = true.
Proof.
  induction s as [|x s IH]; intros b H; [reflexivity|].
  cbn [single_spaced] in H. cbn [lstrip]. destruct (isspace x) eqn:E.
  - apply andb_prop in H. destruct H as [_ H]. apply (IH true H).
  - cbn [single_spaced]. rewrite E. exact H.
Qed.

Lemma single_spaced_prefix (a c : str) :
  forall b, single_spaced isspace b (a ++ c) = true ->
            single_spaced isspace b a = true.
Proof.
  induction a as [|x a IH]; intros b H; [reflexivity|].
  cbn [app single_spaced] in *. destruct (isspace x).
  - apply andb_prop in H. destruct H as [H1 H2]. rewrite H1. apply (IH true H2).
  - apply (IH false H).
Qed.

Lemma single_spaced_space (s : str) (x : char) :
  forall b, single_spaced isspace b s = true -> In x s ->
            isspace x = true -> x = SPACE.
Proof.
  induction s as [|y s IH]; intros b H Hin Hx; [contradiction|].
  cbn [single_spaced] in H. destruct Hin as [->|Hin].
  - rewrite Hx in H. apply andb_prop in H. destruct H as [H _].
    apply andb_prop in H. destruct H as [_ H]. apply N.eqb_eq. exact H.
  - destruct (isspace y).
    + apply andb_prop in H. destruct H as [_ H]. apply (IH true H Hin Hx).
    + apply (IH false H Hin Hx).
Qed.

Lemma single_spaced_apart (a : str) (x y : char) (r : str) :
  forall b, single_spaced isspace b (a ++ x :: y :: r) = true ->
            isspace x = true -> isspace y = false.
Proof.
  induction a as [|z a IH]; intros b H Hx.
  - cbn [app] in H.
    change (single_spaced isspace b (x :: y :: r))
      with (if isspace x
            then negb b && (x =? SPACE)%N && single_spaced isspace true (y :: r)
            else single_spaced isspace false (y :: r)) in H.
    rewrite Hx in H. apply andb_prop in H. destruct H as [_ H].
    apply (single_spaced_head H eq_refl).
  - cbn [app single_spaced] in H. destruct (isspace z).
    + apply andb_prop in H. destruct H as [_ H]. apply (IH true H Hx).
    + apply (IH false H Hx).
Qed.

Lemma squeeze_id (s : str) :
  forall b, single_spaced isspace b s = true -> squeeze isspace b s = s.
Proof.
  induction s as [|x s IH]; intros b H; [reflexivity|].
  cbn [single_spaced] in H. cbn [squeeze]. destruct (isspace x).
  - apply andb_prop in H. destruct H as [H H2].
    apply andb_prop in H. destruct H as [Hb Hx].
    destruct b; [discriminate Hb|]. apply N.eqb_eq in Hx. subst x.
    f_equal. apply (IH true H2).
  - f_equal. apply (IH false H).
Qed.

Lemma squeeze_in (s : str) (x : char) :
  forall b, In x (squeeze isspace b s) -> x = SPACE \/ In x s.
Proof.
  induction s as [|y s IH]; intros b H; [contradiction|].
  cbn [squeeze] in H. destruct (isspace y).
  - destruct b.
    + destruct (IH true H); [left | right; right]; assumption.
    + destruct H as [<-|H]; [left; reflexivity|].
      destruct (IH true H); [left | right; right]; assumption.
  - destruct H as [<-|H]; [right; left; reflexivity|].
    destruct (IH false H); [left | right; right]; assumption.
Qed.

Lemma strip_in (s : str) (x : char) : In x (strip isspace s) -> In x s.
Proof.
  unfold strip. intros H.
  destruct (rstrip_split (lstrip isspace s)) as [t [Hs _]].
  destruct (lstrip_split s) as [t' [Hs' _]].
  rewrite Hs', Hs. apply in_or_app. right. apply in_or_app. left. exact H.
Qed.

(** What comes out of [safe_formal_name] is a safe name. *)
Lemma safe_formal_name_safe (name : str) : safe isspace (safe_formal_name isspace name).
Proof.
  rewrite safe_formal_name_direct.
  set (clean := squeeze isspace false (filter (fun x => negb (forbidden x)) name)).
  repeat split.
  - apply Forall_forall. intros x Hx. apply strip_in in Hx.
    apply squeeze_in in Hx. destruct Hx as [->|Hx]; [reflexivity|].
    apply filter_In in Hx. destruct Hx as [_ Hx].
    destruct (forbidden x); [discriminate | reflexivity].
  - unfold strip.
    destruct (rstrip_split (lstrip isspace clean)) as [t [Hs _]].
    apply (single_spaced_prefix _ t). rewrite <- Hs.
    apply (single_spaced_lstrip _ false). apply single_spaced_squeeze.
  - unfold strip.
    destruct (rstrip_split (lstrip isspace clean)) as [t [_ [_ H]]]. exact H.
Qed.

(** A safe name is left as it is. *)
Lemma safe_unchanged (s : str) : safe isspace s -> safe_formal_name isspace s = s.
Proof.
  intros [Hf [Hs Hl]]. rewrite safe_formal_name_direct.
  assert (Hfilter : filter (fun x => negb (forbidden x)) s = s).
  { clear Hs Hl. induction Hf as [|x s Hx Hf IH]; [reflexivity|].
    cbn [filter]. rewrite Hx. cbn [negb]. f_equal. exact IH. }
  rewrite Hfilter, (squeeze_id _ _ (single_spaced_weaken false _ Hs)).
  unfold strip. rewrite lstrip_id; [apply rstrip_id; exact Hl|].
  intros x r Hr. apply (single_spaced_head Hs Hr).
Qed.

(** *** The characters that stay *)

Hypothesis space_is_space : isspace SPACE = true.

Lemma visible_squeeze (s : str) :
  forall b, filter (visible isspace) (squeeze isspace b s) = filter (visible isspace) s.
Proof.
  induction s as [|x s IH]; intros b; [reflexivity|].
  cbn [squeeze filter]. unfold visible at 2. destruct (isspace x) eqn:E; cbn [negb].
  - destruct b; [apply IH|]. cbn [filter]. unfold visible at 1.
    rewrite space_is_space. cbn [negb]. apply IH.
  - cbn [filter]. unfold visible at 1. rewrite E. cbn [negb]. f_equal. apply IH.
Qed.

Lemma visible_spaces (t : str) :
  Forall (fun x => isspace x = true) t -> filter (visible isspace) t = [].
Proof.
  induction 1 as [|x t Hx Ht IH]; [reflexivity|].
  cbn [filter]. unfold visible at 1. rewrite Hx. exact IH.
Qed.

Lemma visible_strip (s : str) :
  filter (visible isspace) (strip isspace s) = filter (visible isspace) s.
Proof.
  unfold strip.
  destruct (rstrip_split (lstrip isspace s)) as [t [Hs [Ht _]]].
  destruct (lstrip_split s) as [t' [Hs' [Ht' _]]].
  rewrite Hs' at 2. rewrite Hs at 2.
  rewrite !filter_app, (visible_spaces Ht), (visible_spaces Ht'), app_nil_r.
  reflexivity.
Qed.

Lemma visible_safe_formal_name (name : str) :
  filter (visible isspace) (safe_formal_name isspace name) =
  filter (fun x => negb (isspace x) && negb (forbidden x)) name.
Proof.
  rewrite safe_formal_name_direct, visible_strip, visible_squeeze.
  induction name as [|x name IH]; [reflexivity|].
  cbn [filter]. destruct (forbidden x); cbn [negb filter].
  - rewrite andb_false_r. exact IH.
  - rewrite andb_true_r. unfold visible at 1.
    destruct (negb (isspace x)); [f_equal|]; exact IH.
Qed.

End Whitespace.

End NamesFacts.

Module NamesSpec.
Import Names NamesFacts.

(** X1.  The name [safe_formal_name] returns holds none of the ten
    characters its pattern removes (exclamation mark, slash, backslash,
    colon, angle brackets, double quote, question mark, star, bar); its only
    whitespace is the space character, never two in a row, and never at its
    start or end. *)
Theorem safe_formal_name_is_safe :
  forall isspace name,
    Forall (fun x => forbidden x = false) (safe_formal_name isspace name) /\
    (forall x, In x (safe_formal_name isspace name) ->
               isspace x = true -> x = SPACE) /\
    (forall a x y b, safe_formal_name isspace name = a ++ x :: y :: b ->
                     isspace x = true -> isspace y = false) /\
    (forall x r, safe_formal_name isspace name = x :: r -> isspace x = false) /\
    (forall a x, safe_formal_name isspace name = a ++ [x] -> isspace x = false).
Proof.
  intros isspace name.
  destruct (safe_formal_name_safe isspace name) as [Hf [Hs Hl]].
  split; [exact Hf|]. split; [|split; [|split]].
  - intros x Hin Hx. eapply single_spaced_space; eassumption.
  - intros a x y b H Hx. rewrite H in Hs. eapply single_spaced_apart; eassumption.
  - intros x r H. eapply single_spaced_head; eassumption.
  - exact Hl.
Qed.

(** X2.  [safe_formal_name] leaves a name as it is exactly when the name is
    safe already: none of the characters it removes, whitespace only as
    single spaces between other characters. *)
Theorem safe_formal_name_fixed_points :
  forall isspace name,
    safe_formal_name isspace name = name <-> safe isspace name.
Proof.
  intros isspace name. split.
  - intros H. rewrite <- H. apply safe_formal_name_safe.
  - apply safe_unchanged.
Qed.

(** X3.  [safe_formal_name] is idempotent: applied to its own result it
    changes nothing. *)
Theorem safe_formal_name_idempotent :
  forall isspace name,
    safe_formal_name isspace (safe_formal_name isspace name)
      = safe_formal_name isspace name.
Proof.
  intros isspace name. apply safe_unchanged. apply safe_formal_name_safe.
Qed.

(** X4.  [safe_formal_name] keeps every character of the name that is
    neither whitespace nor one of the ten it removes, in the order they come
    in, and adds none: apart from whitespace, the result is the name without
    those ten characters. *)
Theorem safe_formal_name_keeps_characters :
  forall isspace name,
    isspace SPACE = true ->
    filter (visible isspace) (safe_formal_name isspace name) =
    filter (fun x => negb (isspace x) && negb (forbidden x)) name.
Proof.
  intros isspace name H. apply visible_safe_formal_name. exact H.
Qed.

Lemma safe_formal_name_keeps_characters_witness :
  filter (visible unicode_space)
         (safe_formal_name unicode_space (of_string "  My / App:  2 "))
    = of_string "MyApp2".
Proof.
  rewrite (safe_formal_name_keeps_characters unicode_space
             (of_string "  My / App:  2 ") eq_refl).
  reflexivity.
Defined.

(** X5.  The result is the empty name exactly when the name has no character
    to keep: every character of it is whitespace or one of the ten
    removed. *)
Theorem safe_formal_name_empty :
  forall isspace name,
    isspace SPACE = true ->
    (safe_formal_name isspace name = [] <->
     Forall (fun x => isspace x || forbidden x = true) name).
Proof.
  intros isspace name Hsp.
  pose proof (visible_safe_formal_name isspace Hsp name) as Hv.
  split.
  - intros H. rewrite H in Hv. cbn [filter] in Hv.
    apply Forall_forall. intros x Hx.
    destruct (isspace x) eqn:E1; [reflexivity|].
    destruct (forbidden x) eqn:E2; [reflexivity|]. exfalso.
    assert (Hin : In x (filter (fun x => negb (isspace x) && negb (forbidden x)) name)).
    { apply filter_In. split; [exact Hx|]. rewrite E1, E2. reflexivity. }
    rewrite <- Hv in Hin. exact Hin.
  - intros H.
    assert (Hnone : filter (fun x => negb (isspace x) && negb (forbidden x)) name = []).
    { clear Hv. induction H as [|x name Hx H IH]; [reflexivity|].
      cbn [filter]. apply orb_true_iff in Hx.
      destruct Hx as [->| ->]; [|rewrite andb_false_r]; exact IH. }
    rewrite Hnone in Hv.
    destruct (safe_formal_name_safe isspace name) as [_ [Hs _]].
    destruct (safe_formal_name isspace name) as [|x r]; [reflexivity|].
    exfalso. cbn [filter] in Hv. unfold visible in Hv at 1.
    rewrite (@single_spaced_head isspace (x :: r) x r Hs eq_refl) in Hv.
    discriminate Hv.
Qed.

Lemma safe_formal_name_empty_witness :
  safe_formal_name unicode_space (of_string " ?! / * ") = [].
Proof.
  apply (proj2 (safe_formal_name_empty unicode_space (of_string " ?! / * ")
                  eq_refl)).
  repeat constructor.
Defined.

End NamesSpec.

(** * Building and packaging *)

Module BuildFacts.
Import Build.
Open Scope list_scope.

Lemma call_cases (w : world) (c : call) (h : list event) :
  (w h c = None /\ command w c h = (Returns tt, h ++ [ok c])) \/
  (exists e, w h c = Some e /\ command w c h = (Raises e, h ++ [(c, Some e)])).
Proof.
  unfold command. destruct (w h c) as [e|].
  - right. exists e. split; reflexivity.
  - left. split; reflexivity.
Qed.

Lemma step_bind_returns {A B} (m : M A) (k : A -> M B) (h h1 : list event) (a : A) :
  m h = (Returns a, h1) -> bind m k h = k a h1.
Proof. intros H. unfold bind. rewrite H. reflexivity. Qed.

Lemma step_bind_raises {A B} (m : M A) (k : A -> M B) (h h1 : list event) (e : exn) :
  m h = (Raises e, h1) -> bind m k h = (Raises e, h1).
Proof. intros H. unfold bind. rewrite H. reflexivity. Qed.

Arguments step_bind_returns {A B m} k {h h1 a} _.
Arguments step_bind_raises {A B m} k {h h1 e} _.

Lemma reraise_returns {A} (body : M A) (error : exn) h h1 a :
  body h = (Returns a, h1) ->
  reraise_called_process_error body error h = (Returns a, h1).
Proof. intros H. unfold reraise_called_process_error. rewrite H. reflexivity. Qed.

Lemma reraise_raises {A} (body : M A) h h1 e :
  body h = (Raises e, h1) ->
  reraise_called_process_error body building_failed h = (Raises (reraised e), h1).
Proof.
  intros H. unfold reraise_called_process_error. rewrite H.
  destruct e; reflexivity.
Qed.

Arguments reraise_returns {A body} error {h h1 a} _.
Arguments reraise_raises {A body h h1 e} _.

Section Commands.

Variable w : world.
Variable tools : Tools.

(** [run_gradle] checks the emulator and then runs Gradle; the first of the
    two that fails ends it. *)
Lemma run_gradle_cases (app : App) (args : list string) (h : list event) :
  let gradle := SubprocessRun (gradle_command tools app args) (bundle_path app) in
  run_gradle w tools app args h = (Returns tt, h ++ [ok VerifyEmulator; ok gradle]) \/
  (exists e, w h VerifyEmulator = Some e /\
             run_gradle w tools app args h
               = (Raises e, h ++ [(VerifyEmulator, Some e)])) \/
  (exists e, w (h ++ [ok VerifyEmulator]) gradle = Some e /\
             run_gradle w tools app args h
               = (Raises e, h ++ [ok VerifyEmulator; (gradle, Some e)])).
Proof.
  intros gradle. unfold run_gradle. fold gradle.
  destruct (call_cases w VerifyEmulator h) as [[_ H1]|[e [He H1]]].
  - rewrite (step_bind_returns _ H1).
    destruct (call_cases w gradle (h ++ [ok VerifyEmulator]))
      as [[_ H2]|[e [He H2]]]; rewrite H2, <- app_assoc.
    + left. reflexivity.
    + right. right. exists e. split; [exact He | reflexivity].
  - rewrite (step_bind_raises _ H1). right. left. exists e. split; [exact He | reflexivity].
Qed.

Lemma dict_get_in {V} (d : list (string * V)) (key : string) (v : V) :
  dict_get d key = Some v -> In (key, v) d.
Proof.
  induction d as [|[k v'] d IH]; cbn [dict_get]; [discriminate|].
  destruct (String.eqb_spec k key) as [->|_].
  - intros H. inversion H. left. reflexivity.
  - intros H. right. apply IH. exact H.
Qed.

(** A format with a release build has an extension. *)
Lemma release_build_has_extension (format : string) (b : string * string) :
  dict_get release_builds format = Some b ->
  exists extension, dict_get extensions format = Some extension.
Proof.
  intros H. apply dict_get_in in H. cbn [release_builds In] in H.
  destruct H as [H|[H|[H|[]]]]; inversion H; subst; eexists; reflexivity.
Qed.

(** All the ways [package_app] can go. *)
Lemma package_app_cases (app : App) (h : list event) :
  let info :=
    ConsoleInfo "Building Android App Bundle and APK in release mode..."
                (app_name app) in
  (exists e, w h info = Some e /\
     package_app w tools app h = (Raises e, h ++ [(info, Some e)])) \/
  (dict_get release_builds (packaging_format app) = None /\
   package_app w tools app h
     = (Raises (KeyError (packaging_format app)), h ++ [ok info])) \/
  (exists task artefact destination,
     dict_get release_builds (packaging_format app) = Some (task, artefact) /\
     distribution_path tools app = Some destination /\
     let gradle :=
       SubprocessRun (gradle_command tools app [task]) (bundle_path app) in
     let move :=
       Move (bundle_path app ++ "/app/build/outputs/" ++ artefact)%string
            destination in
     (exists e, package_app w tools app h
        = (Raises (reraised e), h ++ [ok info; (VerifyEmulator, Some e)])) \/
     (exists e, package_app w tools app h
        = (Raises (reraised e),
           h ++ [ok info; ok VerifyEmulator; (gradle, Some e)])) \/
     (exists e, w (h ++ [ok info; ok VerifyEmulator; ok gradle]) move = Some e /\
        package_app w tools app h
        = (Raises e,
           h ++ [ok info; ok VerifyEmulator; ok gradle; (move, Some e)])) \/
     package_app w tools app h
       = (Returns tt, h ++ [ok info; ok VerifyEmulator; ok gradle; ok move])).
Proof.
  intros info. unfold package_app. fold info.
  destruct (call_cases w info h) as [[_ H1]|[e [He H1]]].
  2:{ left. exists e. rewrite (step_bind_raises _ H1). split; [exact He | reflexivity]. }
  right. rewrite (step_bind_returns _ H1). unfold wait_bar, lookup.
  destruct (dict_get release_builds (packaging_format app)) as [[task artefact]|] eqn:Eb.
  2:{ left. split; reflexivity. }
  right. destruct (release_build_has_extension _ Eb) as [ext Hext].
  unfold distribution_path. rewrite Hext.
  exists task, artefact. eexists. split; [reflexivity|]. split; [reflexivity|].
  cbn zeta.
  match goal with |- context [bind ?m _ (h ++ [ok info])] => set (inner := m) end.
  assert (Hinner : inner (h ++ [ok info])
            = (reraise_called_process_error (run_gradle w tools app [task])
                 building_failed ;; ret (task, artefact)) (h ++ [ok info]))
    by reflexivity.
  destruct (run_gradle_cases app [task] (h ++ [ok info]))
    as [Hg|[[e [_ Hg]]|[e [_ Hg]]]].
  - rewrite (step_bind_returns _ (reraise_returns building_failed Hg)) in Hinner.
    unfold ret in Hinner.
    rewrite (step_bind_returns _ Hinner). cbn [snd].
    rewrite <- app_assoc. cbn [List.app].
    match goal with |- context [command w ?c ?hh] =>
      destruct (call_cases w c hh) as [[_ Hm]|[e [He Hm]]] end;
      rewrite Hm, <- app_assoc; cbn [List.app].
    + right. right. right. reflexivity.
    + right. right. left. exists e. split; [exact He | reflexivity].
  - rewrite (step_bind_raises _ (reraise_raises Hg)) in Hinner.
    rewrite (step_bind_raises _ Hinner).
    rewrite <- app_assoc. left. exists e. reflexivity.
  - rewrite (step_bind_raises _ (reraise_raises Hg)) in Hinner.
    rewrite (step_bind_raises _ Hinner).
    rewrite <- app_assoc. right. left. exists e. reflexivity.
Qed.

(** All the ways [build_app] can go. *)
Lemma build_app_cases (app : App) (h : list event) :
  let updating := ConsoleInfo "Updating app metadata..." (app_name app) in
  let building := ConsoleInfo "Building Android APK..." (app_name app) in
  let gradle :=
    SubprocessRun (gradle_command tools app ["assembleDebug"%string])
                  (bundle_path app) in
  let write :=
    WriteText (metadata_resource_path app) (metadata_xml (main_module app)) in
    (exists e, w h updating = Some e /\
       build_app w tools app h = (Raises e, h ++ [(updating, Some e)])) \/
    (exists e, w (h ++ [ok updating]) write = Some e /\
       build_app w tools app h
         = (Raises e, h ++ [ok updating; (write, Some e)])) \/
    (exists e, w (h ++ [ok updating; ok write]) building = Some e /\
       build_app w tools app h
         = (Raises e, h ++ [ok updating; ok write; (building, Some e)])) \/
    (exists e, build_app w tools app h
         = (Raises (reraised e),
            h ++ [ok updating; ok write; ok building; (VerifyEmulator, Some e)])) \/
    (exists e, build_app w tools app h
         = (Raises (reraised e),
            h ++ [ok updating; ok write; ok building; ok VerifyEmulator;
                  (gradle, Some e)])) \/
    build_app w tools app h
      = (Returns tt,
         h ++ [ok updating; ok write; ok building; ok VerifyEmulator; ok gradle]).
Proof.
  intros updating building gradle write.
  unfold build_app, update_app_metadata, wait_bar. fold updating building write.
  destruct (call_cases w updating h) as [[_ H1]|[e [He H1]]].
  2:{ left. exists e. rewrite (step_bind_raises _ H1). split; [exact He | reflexivity]. }
  right. rewrite (step_bind_returns _ H1).
  destruct (call_cases w write (h ++ [ok updating])) as [[_ H2]|[e [He H2]]].
  2:{ left. exists e. rewrite (step_bind_raises _ H2), <- app_assoc.
      split; [exact He | reflexivity]. }
  right. rewrite (step_bind_returns _ H2), <- app_assoc. cbn [List.app].
  destruct (call_cases w building (h ++ [ok updating; ok write]))
    as [[_ H3]|[e [He H3]]].
  2:{ left. exists e. rewrite (step_bind_raises _ H3), <- app_assoc.
      split; [exact He | reflexivity]. }
  right. rewrite (step_bind_returns _ H3), <- app_assoc. cbn [List.app].
  destruct (run_gradle_cases app ["assembleDebug"%string]
              (h ++ [ok updating; ok write; ok building]))
    as [Hg|[[e [_ Hg]]|[e [_ Hg]]]].
  - rewrite (reraise_returns building_failed Hg), <- app_assoc.
    right. right. reflexivity.
  - rewrite (reraise_raises Hg), <- app_assoc. left. exists e. reflexivity.
  - rewrite (reraise_raises Hg), <- app_assoc. right. left. exists e. reflexivity.
Qed.

(** What the [except] clause lets through is never the error it catches. *)
Lemma reraised_not_called_process_error (e : exn) :
  reraised e <> CalledProcessError.
Proof. destruct e; discriminate. Qed.

Lemma other_call_error (c : call) (h : list event) (e : exn) :
  subprocess_errors w -> is_gradle c = false -> w h c = Some e ->
  e <> CalledProcessError.
Proof.
  intros Hw Hc He ->. apply Hw in He. rewrite He in Hc. discriminate.
Qed.

End Commands.

Lemma app_inv_head_string (a b c : string) :
  (a ++ b)%string = (a ++ c)%string -> b = c.
Proof.
  induction a as [|x a IH]; cbn [String.append]; intros H; [exact H|].
  inversion H. apply IH. assumption.
Qed.

Lemma dict_get_some_in_keys {V} (d : list (string * V)) (key : string) :
  dict_get d key <> None <-> In key (map fst d).
Proof.
  induction d as [|[k v] d IH]; cbn [dict_get map fst In].
  - split; [congruence | intros []].
  - destruct (String.eqb_spec k key) as [->|Hk].
    + split; [intros _; left; reflexivity | discriminate].
    + rewrite IH. split; [intros H; right; exact H | intros [H|H]; [contradiction | exact H]].
Qed.

Lemma extension_known (format : string) :
  In format packaging_formats <-> dict_get extensions format <> None.
Proof.
  change packaging_formats with (map fst extensions).
  rewrite <- dict_get_some_in_keys. reflexivity.
Qed.

Lemma release_build_known (format : string) :
  In format packaging_formats <-> dict_get release_builds format <> None.
Proof.
  change packaging_formats with (map fst release_builds).
  rewrite <- dict_get_some_in_keys. reflexivity.
Qed.

End BuildFacts.

Module BuildSpec.
Import Build BuildFacts.
Open Scope list_scope.

Ltac in_cases :=
  repeat match goal with
         | H : In _ (_ :: _) |- _ => destruct H as [H|H]
         | H : In _ [] |- _ => destruct H
         | H : context [ok _] |- _ => unfold ok in H
         | H : (_, _) = (_, _) |- _ => inversion H; clear H; subst
         end.

(** X6. The packaging formats the backend advertises are exactly the ones
    [distribution_path] knows an extension for and exactly the ones
    [package_app] knows a Gradle task for; the default format is one of
    them. *)
Theorem packaging_formats_are_handled (tools : Tools) (app : App) :
  (In (packaging_format app) packaging_formats
     <-> distribution_path tools app <> None) /\
  (In (packaging_format app) packaging_formats
     <-> dict_get release_builds (packaging_format app) <> None) /\
  In default_packaging_format packaging_formats.
Proof.
  split; [|split].
  - rewrite extension_known. unfold distribution_path.
    destruct (dict_get extensions (packaging_format app));
      split; congruence.
  - apply release_build_known.
  - left. reflexivity.
Qed.

(** X7. Two packaging formats of the same app (same formal name and version,
    same [dist] folder) never share a distribution path: equal paths mean
    equal formats. *)
Theorem distribution_path_tells_format (tools : Tools) (a1 a2 : App) (p : string) :
  formal_name a1 = formal_name a2 ->
  version a1 = version a2 ->
  distribution_path tools a1 = Some p ->
  distribution_path tools a2 = Some p ->
  packaging_format a1 = packaging_format a2.
Proof.
  intros Hn Hv. unfold distribution_path.
  destruct (dict_get extensions (packaging_format a1)) as [e1|] eqn:E1;
    [|discriminate].
  destruct (dict_get extensions (packaging_format a2)) as [e2|] eqn:E2;
    [|discriminate].
  intros H1 H2. rewrite <- H2 in H1. clear H2. rewrite Hn, Hv in H1.
  injection H1 as H1.
  apply app_inv_head_string in H1. injection H1 as H1.
  apply app_inv_head_string in H1. injection H1 as H1.
  apply app_inv_head_string in H1. injection H1 as H1. subst e2.
  apply dict_get_in in E1. apply dict_get_in in E2.
  cbn [extensions In] in E1, E2.
  destruct E1 as [E1|[E1|[E1|[]]]]; destruct E2 as [E2|[E2|[E2|[]]]];
    inversion E1; inversion E2; subst; try reflexivity; try discriminate; congruence.
Qed.

Lemma distribution_path_tells_format_witness :
  packaging_format (hello "apk") = packaging_format (hello "apk").
Proof.
  apply (@distribution_path_tells_format linux (hello "apk") (hello "apk")
           "dist/Hello World-1.2.3.apk"%string);
    reflexivity.
Defined.

(** X8. As long as only the SDK check and Gradle raise
    [CalledProcessError], neither [build_app] nor [package_app] ever ends
    with it: their [except] clause turns it into a
    [BriefcaseCommandError]. *)
Theorem called_process_error_never_escapes
    (w : world) (tools : Tools) (app : App) (h : list event) :
  subprocess_errors w ->
  fst (build_app w tools app h) <> Raises CalledProcessError /\
  fst (package_app w tools app h) <> Raises CalledProcessError.
Proof.
  intros Hw. split.
  - pose proof (build_app_cases w tools app h) as H. cbv zeta in H.
    destruct H as [[e [He H]]|[[e [He H]]|[[e [He H]]|[[e H]|[[e H]|H]]]]];
      rewrite H; cbn [fst]; try discriminate; intros Hx; inversion Hx as [Hx'].
    + refine (@other_call_error w _ _ _ Hw _ He Hx'); reflexivity.
    + refine (@other_call_error w _ _ _ Hw _ He Hx'); reflexivity.
    + refine (@other_call_error w _ _ _ Hw _ He Hx'); reflexivity.
    + exact (@reraised_not_called_process_error _ Hx').
    + exact (@reraised_not_called_process_error _ Hx').
  - pose proof (package_app_cases w tools app h) as H. cbv zeta in H.
    destruct H as [[e [He H]]|[[_ H]
      |[task [artefact [dst [_ [_ [[e H]|[[e H]|[[e [He H]]|H]]]]]]]]]];
      rewrite H; cbn [fst]; try discriminate; intros Hx; inversion Hx as [Hx'].
    + refine (@other_call_error w _ _ _ Hw _ He Hx'); reflexivity.
    + exact (@reraised_not_called_process_error _ Hx').
    + exact (@reraised_not_called_process_error _ Hx').
    + refine (@other_call_error w _ _ _ Hw _ He Hx'); reflexivity.
Qed.

Lemma called_process_error_never_escapes_witness :
  fst (build_app gradle_fails linux (hello "apk") [])
    <> Raises CalledProcessError /\
  fst (package_app gradle_fails linux (hello "apk") [])
    <> Raises CalledProcessError.
Proof.
  apply (@called_process_error_never_escapes gradle_fails linux (hello "apk") []).
  intros h c. destruct c; cbn; intros H; try discriminate H; reflexivity.
Defined.

(** X9. When the SDK check or Gradle fails with [CalledProcessError] while
    packaging, [package_app] ends with the [BriefcaseCommandError]
    "Error while building project." and the artefact is not moved: the
    failed call is the last one made. *)
Theorem failed_release_build_moves_nothing
    (w : world) (tools : Tools) (app : App) (h : list event) (c : call) :
  subprocess_errors w ->
  In (c, Some CalledProcessError)
     (skipn (length h) (snd (package_app w tools app h))) ->
  fst (package_app w tools app h) = Raises building_failed /\
  (forall src dst r,
     ~ In (Move src dst, r)
          (skipn (length h) (snd (package_app w tools app h)))).
Proof.
  intros Hw.
  assert (Hskip : forall new : list event, skipn (length h) (h ++ new) = new).
  { intros new. rewrite skipn_app, skipn_all, Nat.sub_diag. reflexivity. }
  pose proof (package_app_cases w tools app h) as H. cbv zeta in H.
  destruct H as [[e [He H]]|[[_ H]
    |[task [artefact [dst [_ [_ [[e H]|[[e H]|[[e [He H]]|H]]]]]]]]]];
    rewrite H; cbn [fst snd]; rewrite Hskip; intros Hin.
  - in_cases. exfalso. refine (@other_call_error w _ _ _ Hw _ He eq_refl); reflexivity.
  - in_cases.
  - in_cases. split; [reflexivity|]. intros src dst' r Hm. in_cases.
  - in_cases. split; [reflexivity|]. intros src dst' r Hm. in_cases.
  - in_cases. exfalso. refine (@other_call_error w _ _ _ Hw _ He eq_refl); reflexivity.
  - in_cases.
Qed.

Lemma failed_release_build_moves_nothing_witness :
  fst (package_app gradle_fails linux (hello "aab") []) = Raises building_failed /\
  (forall src dst r,
     ~ In (Move src dst, r)
          (skipn (length (@nil event))
                 (snd (package_app gradle_fails linux (hello "aab") [])))).
Proof.
  apply (@failed_release_build_moves_nothing gradle_fails linux (hello "aab") []
           (SubprocessRun
              ["build/helloworld/android/gradle/gradlew"; "--console"; "plain";
               "bundleRelease"]%string
              "build/helloworld/android/gradle"%string)).
  - intros h c. destruct c; cbn; intros H; try discriminate H; reflexivity.
  - cbn. right. right. left. reflexivity.
Defined.

(** X10. [package_app] moves the artefact only as its last call, after the
    Gradle task of the packaging format has returned; the move is from the
    format's artefact under [app/build/outputs] of the bundle to the app's
    distribution path.  The command returns normally exactly when that move
    was made and returned. *)
Theorem package_app_moves_the_built_artefact
    (w : world) (tools : Tools) (app : App) (h : list event) :
  let new := skipn (length h) (snd (package_app w tools app h)) in
  (forall src dst r,
     In (Move src dst, r) new ->
     exists task artefact before,
       dict_get release_builds (packaging_format app) = Some (task, artefact) /\
       src = (bundle_path app ++ "/app/build/outputs/" ++ artefact)%string /\
       distribution_path tools app = Some dst /\
       new = before ++ [(Move src dst, r)] /\
       In (ok (SubprocessRun (gradle_command tools app [task]) (bundle_path app)))
          before) /\
  (fst (package_app w tools app h) = Returns tt
     <-> exists src dst, In (ok (Move src dst)) new).
Proof.
  assert (Hskip : forall new : list event, skipn (length h) (h ++ new) = new).
  { intros new. rewrite skipn_app, skipn_all, Nat.sub_diag. reflexivity. }
  pose proof (package_app_cases w tools app h) as H. cbv zeta in H.
  cbv zeta.
  destruct H as [[e [He H]]|[[_ H]
    |[task [artefact [dst [Hb [Hd [[e H]|[[e H]|[[e [He H]]|H]]]]]]]]]];
    rewrite H; cbn [fst snd]; rewrite Hskip; split;
    try (intros src dst' r Hin; in_cases; fail);
    try (split; [discriminate | intros [src [dst' Hin]]; in_cases]; fail).
  - intros src dst' r Hin. in_cases.
    exists task, artefact. eexists [_; _; _].
    repeat split; try assumption; try reflexivity.
    right. right. left. reflexivity.
  - intros src dst' r Hin. in_cases.
    exists task, artefact. eexists [_; _; _].
    repeat split; try assumption; try reflexivity.
    right. right. left. reflexivity.
  - split; [intros _|reflexivity].
    eexists. eexists. right. right. right. left. reflexivity.
Qed.

(** X11. With a packaging format that is not one of [packaging_formats],
    [package_app] fails with [KeyError] on the format right after its
    first message: neither the SDK check nor Gradle nor a move is called. *)
Theorem package_app_unknown_format
    (w : world) (tools : Tools) (app : App) (h : list event) :
  let info :=
    ConsoleInfo "Building Android App Bundle and APK in release mode..."
                (app_name app) in
  ~ In (packaging_format app) packaging_formats ->
  w h info = None ->
  package_app w tools app h
    = (Raises (KeyError (packaging_format app)), h ++ [ok info]).
Proof.
  intros info Hf Hi.
  pose proof (package_app_cases w tools app h) as H. cbv zeta in H.
  fold info in H.
  destruct H as [[e [He _]]|[[_ H]|[task [artefact [dst [Hb _]]]]]].
  - rewrite Hi in He. discriminate.
  - exact H.
  - exfalso. apply Hf.
    apply (proj2 (release_build_known (packaging_format app))).
    rewrite Hb. discriminate.
Qed.

Lemma package_app_unknown_format_witness :
  package_app all_well linux (hello "zip") []
    = (Raises (KeyError "zip"),
       [ok (ConsoleInfo "Building Android App Bundle and APK in release mode..."
                        "helloworld")]).
Proof.
  apply (@package_app_unknown_format all_well linux (hello "zip") []).
  - cbn. intros [H|[H|[H|[]]]]; discriminate H.
  - reflexivity.
Defined.

(** X12. [build_app] runs Gradle only as its last call, with the task
    [assembleDebug] in the bundle folder, after the metadata file with the
    app's main module was written and the SDK check returned.  The command
    returns normally exactly when Gradle was run and returned. *)
Theorem build_app_runs_gradle_last
    (w : world) (tools : Tools) (app : App) (h : list event) :
  let new := skipn (length h) (snd (build_app w tools app h)) in
  (forall args cwd r,
     In (SubprocessRun args cwd, r) new ->
     exists before,
       args = gradle_command tools app ["assembleDebug"%string] /\
       cwd = bundle_path app /\
       new = before ++ [(SubprocessRun args cwd, r)] /\
       In (ok (WriteText (metadata_resource_path app)
                         (metadata_xml (main_module app)))) before /\
       In (ok VerifyEmulator) before) /\
  (fst (build_app w tools app h) = Returns tt
     <-> exists args cwd, In (ok (SubprocessRun args cwd)) new).
Proof.
  assert (Hskip : forall new : list event, skipn (length h) (h ++ new) = new).
  { intros new. rewrite skipn_app, skipn_all, Nat.sub_diag. reflexivity. }
  pose proof (build_app_cases w tools app h) as H. cbv zeta in H.
  cbv zeta.
  destruct H as [[e [He H]]|[[e [He H]]|[[e [He H]]|[[e H]|[[e H]|H]]]]];
    rewrite H; cbn [fst snd]; rewrite Hskip; split;
    try (intros args cwd r Hin; in_cases; fail);
    try (split; [discriminate | intros [args [cwd Hin]]; in_cases]; fail).
  - intros args cwd r Hin. in_cases.
    eexists [_; _; _; _].
    repeat split; try reflexivity.
    + right. left. reflexivity.
    + right. right. right. left. reflexivity.
  - intros args cwd r Hin. in_cases.
    eexists [_; _; _; _].
    repeat split; try reflexivity.
    + right. left. reflexivity.
    + right. right. right. left. reflexivity.
  - split; [intros _|reflexivity].
    eexists. eexists. right. right. right. right. left. reflexivity.
Qed.

End BuildSpec.

Module VersionFacts.
Import Version.
Open Scope N_scope.

(** Arithmetic with the quotient and the remainder as plain numbers. *)
Ltac digits_lia :=
  repeat match goal with
         | H : context [N.modulo ?a ?b] |- _ =>
             let k := fresh "r" in set (k := N.modulo a b) in *; clearbody k
         | |- context [N.modulo ?a ?b] =>
             let k := fresh "r" in set (k := N.modulo a b) in *; clearbody k
         | H : context [N.div ?a ?b] |- _ =>
             let k := fresh "q" in set (k := N.div a b) in *; clearbody k
         | |- context [N.div ?a ?b] =>
             let k := fresh "q" in set (k := N.div a b) in *; clearbody k
         end;
  lia.

Lemma value_from (s : str) (x : N) :
  fold_left (fun acc c => acc * 10 + (c - ZERO)) s x
  = x * 10 ^ N.of_nat (length s) + value s.
Proof.
  unfold value. revert x. induction s as [|c s IH]; intros x.
  - cbn. lia.
  - cbn [fold_left length]. rewrite IH, (IH (0 * 10 + _)).
    rewrite Nat2N.inj_succ, N.pow_succ_r'. lia.
Qed.

Lemma value_app (a b : str) :
  value (a ++ b) = value a * 10 ^ N.of_nat (length b) + value b.
Proof.
  unfold value at 1. rewrite fold_left_app. apply value_from.
Qed.

Lemma value_cons (c : char) (s : str) :
  value (c :: s) = (c - ZERO) * 10 ^ N.of_nat (length s) + value s.
Proof.
  change (c :: s) with ([c] ++ s). rewrite value_app. reflexivity.
Qed.

Lemma decimal_aux_acc (fuel : nat) (n : N) (acc : str) :
  decimal_aux fuel n acc = decimal_aux fuel n [] ++ acc.
Proof.
  revert n acc. induction fuel as [|fuel IH]; intros n acc; [reflexivity|].
  cbn [decimal_aux]. destruct (n / 10 =? 0); [reflexivity|].
  rewrite IH, (IH _ [_]), <- app_assoc. reflexivity.
Qed.

Lemma decimal_aux_step (fuel : nat) (n : N) :
  decimal_aux (S fuel) n [] =
  (if n / 10 =? 0 then [] else decimal_aux fuel (n / 10) []) ++ [ZERO + n mod 10].
Proof.
  cbn [decimal_aux]. destruct (n / 10 =? 0); [reflexivity|].
  apply decimal_aux_acc.
Qed.

Lemma tenth_fits (fuel : nat) (n : N) :
  n < 2 ^ N.of_nat (S fuel) -> n / 10 < 2 ^ N.of_nat fuel.
Proof.
  intros H. replace (N.of_nat (S fuel)) with (N.succ (N.of_nat fuel)) in H by lia.
  rewrite N.pow_succ_r' in H.
  apply N.Div0.div_lt_upper_bound. lia.
Qed.

(** With enough fuel the digits do not depend on it. *)
Lemma decimal_aux_fuel (fuel : nat) (n : N) :
  n < 2 ^ N.of_nat (S fuel) ->
  decimal_aux (S fuel) n [] = decimal n.
Proof.
  assert (H : forall f1 f2 m, m < 2 ^ N.of_nat (S f1) -> m < 2 ^ N.of_nat (S f2) ->
                decimal_aux (S f1) m [] = decimal_aux (S f2) m []).
  { induction f1 as [|f1 IH]; intros f2 m H1 H2;
      rewrite (decimal_aux_step _ m), (decimal_aux_step f2 m).
    - replace (m / 10 =? 0) with true; [reflexivity|].
      symmetry. apply N.eqb_eq. apply tenth_fits in H1. change (2 ^ N.of_nat 0) with 1 in H1. apply N.lt_1_r. exact H1.
    - destruct (m / 10 =? 0) eqn:E; [reflexivity|]. f_equal.
      destruct f2 as [|f2].
      + apply tenth_fits in H2. change (2 ^ N.of_nat 0) with 1 in H2. apply N.eqb_neq in E. apply N.lt_1_r in H2. contradiction.
      + apply IH; apply tenth_fits; assumption. }
  intros Hn. unfold decimal. apply H; [exact Hn|].
  destruct (N.eq_dec n 0) as [->|Hz]; [reflexivity|].
  rewrite Nat2N.inj_succ, N2Nat.id. apply N.log2_spec. lia.
Qed.

Lemma decimal_fits (n : N) : n < 2 ^ N.of_nat (S (N.to_nat (N.log2 n))).
Proof.
  destruct (N.eq_dec n 0) as [->|Hz]; [reflexivity|].
  rewrite Nat2N.inj_succ, N2Nat.id. apply N.log2_spec. lia.
Qed.

(** The digits of a number: those of its tenth, then its last digit. *)
Lemma decimal_eq (n : N) :
  decimal n = (if n / 10 =? 0 then [] else decimal (n / 10)) ++ [ZERO + n mod 10].
Proof.
  unfold decimal at 1. rewrite decimal_aux_step.
  destruct (n / 10 =? 0) eqn:E; [reflexivity|]. f_equal.
  pose proof (tenth_fits (decimal_fits n)) as H.
  destruct (N.to_nat (N.log2 n)) as [|f] eqn:Ef.
  - change (2 ^ N.of_nat 0) with 1 in H. apply N.eqb_neq in E. apply N.lt_1_r in H. contradiction.
  - apply decimal_aux_fuel. exact H.
Qed.

Lemma decimal_ind (P : N -> Prop) :
  (forall n, n / 10 = 0 -> P n) ->
  (forall n, n / 10 <> 0 -> P (n / 10) -> P n) ->
  forall n, P n.
Proof.
  intros Hsmall Hbig n. induction n as [n IH] using (well_founded_induction N.lt_wf_0).
  destruct (N.eq_dec (n / 10) 0) as [E|E].
  - apply Hsmall. exact E.
  - apply Hbig; [exact E|]. apply IH.
    apply N.Div0.div_lt_upper_bound. 
    assert (n <> 0) by (intros ->; apply E; reflexivity). lia.
Qed.

Lemma value_digit (d : N) : value [ZERO + d] = d.
Proof. unfold value. cbn [fold_left]. unfold ZERO. lia. Qed.

Lemma value_decimal (n : N) : value (decimal n) = n.
Proof.
  induction n as [n E|n E IH] using decimal_ind;
    rewrite decimal_eq, value_app, value_digit; cbn [length];
    change (10 ^ N.of_nat 1) with 10; pose proof (N.Div0.div_mod n 10).
  - rewrite E. change (0 =? 0) with true. cbv iota. change (value []) with 0.
    rewrite E in H. digits_lia.
  - apply N.eqb_neq in E. rewrite E, IH. clear E IH. digits_lia.
Qed.

Lemma last_digit (n : N) : is_digit (ZERO + n mod 10) = true.
Proof.
  assert (n mod 10 < 10) by (apply N.mod_lt; discriminate).
  unfold is_digit, ZERO. apply andb_true_iff. split; apply N.leb_le; digits_lia.
Qed.

Lemma decimal_digits (n : N) : Forall (fun c => is_digit c = true) (decimal n).
Proof.
  induction n as [n E|n E IH] using decimal_ind; rewrite decimal_eq;
    apply Forall_app; split; try (constructor; [apply last_digit | constructor]).
  - rewrite E. constructor.
  - apply N.eqb_neq in E. rewrite E. exact IH.
Qed.

(** A number other than 0 starts with a digit other than 0. *)
Lemma decimal_head (n : N) :
  n <> 0 -> exists c s, decimal n = c :: s /\ c <> ZERO.
Proof.
  induction n as [n E|n E IH] using decimal_ind; intros Hn; rewrite decimal_eq.
  - rewrite E. cbn [N.eqb app]. exists (ZERO + n mod 10), []. split; [reflexivity|].
    pose proof (N.Div0.div_mod n 10). unfold ZERO. lia.
  - assert (E' := E). apply N.eqb_neq in E'. rewrite E'.
    destruct (IH E) as [c [s [-> Hc]]]. exists c. eexists. split; [reflexivity | exact Hc].
Qed.

Lemma decimal_zero : decimal 0 = [ZERO].
Proof. reflexivity. Qed.

Lemma decimal_one_digit (n : N) : n < 10 -> decimal n = [ZERO + n].
Proof.
  intros H. rewrite decimal_eq, N.div_small, N.mod_small by exact H. reflexivity.
Qed.

Lemma decimal_two_digits (n : N) :
  10 <= n < 100 -> decimal n = [ZERO + n / 10; ZERO + n mod 10].
Proof.
  intros H. rewrite decimal_eq.
  assert (Hq : 1 <= n / 10 < 10).
  { split; [apply N.div_le_lower_bound | apply N.Div0.div_lt_upper_bound]; lia. }
  replace (n / 10 =? 0) with false by (symmetry; apply N.eqb_neq; lia).
  rewrite decimal_one_digit by lia. reflexivity.
Qed.

Lemma decimal_length (n : N) : (1 <= length (decimal n))%nat.
Proof.
  rewrite decimal_eq, length_app. cbn. lia.
Qed.

Lemma decimal_long (n : N) : 10 <= n -> (2 <= length (decimal n))%nat.
Proof.
  intros H. rewrite decimal_eq, length_app.
  replace (n / 10 =? 0) with false.
  - pose proof (decimal_length (n / 10)). cbn [length]. lia.
  - symmetry. apply N.eqb_neq.
    assert (1 <= n / 10) by (apply N.div_le_lower_bound; lia). lia.
Qed.

End VersionFacts.

Module VersionCodeFacts.
Import Version VersionFacts.
Open Scope N_scope.

Lemma format_d_plain (n : N) : format_d 0 (Z.of_N n) = decimal n.
Proof.
  unfold format_d. rewrite Zabs2N.id.
  replace (Z.of_N n <? 0)%Z with false by (symmetry; apply Z.ltb_ge; lia).
  reflexivity.
Qed.

(** Below 100, [02d] gives the two digits. *)
Lemma format_d_two (n : N) :
  n < 100 -> format_d 2 (Z.of_N n) = [ZERO + n / 10; ZERO + n mod 10].
Proof.
  intros H. unfold format_d. rewrite Zabs2N.id.
  replace (Z.of_N n <? 0)%Z with false by (symmetry; apply Z.ltb_ge; lia).
  destruct (N.lt_ge_cases n 10) as [Hs|Hl].
  - rewrite decimal_one_digit, N.div_small, N.mod_small by exact Hs. reflexivity.
  - rewrite decimal_two_digits by (split; assumption). reflexivity.
Qed.

Lemma value_two (n : N) : value [ZERO + n / 10; ZERO + n mod 10] = n.
Proof.
  pose proof (N.Div0.div_mod n 10) as H.
  unfold value. cbn [fold_left]. unfold ZERO. digits_lia.
Qed.

Lemma value_lstrip (s : str) : value (Names.lstrip (N.eqb ZERO) s) = value s.
Proof.
  induction s as [|c s IH]; [reflexivity|]. cbn [Names.lstrip].
  destruct (N.eqb_spec ZERO c) as [<-|_]; [|reflexivity].
  rewrite IH, value_cons. unfold ZERO. lia.
Qed.

Lemma lstrip_forall (P : char -> Prop) (p : char -> bool) (s : str) :
  Forall P s -> Forall P (Names.lstrip p s).
Proof.
  induction 1 as [|c s Hc Hs IH]; cbn [Names.lstrip]; [constructor|].
  destruct (p c); [exact IH | constructor; assumption].
Qed.

Lemma lstrip_head (p : char -> bool) (s : str) (c : char) (t : str) :
  Names.lstrip p s = c :: t -> p c = false.
Proof.
  induction s as [|x s IH]; cbn [Names.lstrip]; [discriminate|].
  destruct (p x) eqn:E; [exact IH|]. intros H. inversion H; subst. exact E.
Qed.

Lemma lstrip_nil (p : char -> bool) (s : str) :
  Names.lstrip p s = [] <-> Forall (fun c => p c = true) s.
Proof.
  induction s as [|x s IH]; cbn [Names.lstrip].
  - split; [constructor | reflexivity].
  - destruct (p x) eqn:E.
    + rewrite IH. split; [intros H; constructor; assumption | intros H; inversion H; assumption].
    + split; [discriminate | intros H; inversion H; congruence].
Qed.

(** Only 0 is written with zeros alone. *)
Lemma decimal_zeros (n : N) :
  Forall (fun c => (ZERO =? c) = true) (decimal n) <-> n = 0.
Proof.
  split.
  - intros H. destruct (N.eq_dec n 0) as [E|E]; [exact E|].
    destruct (decimal_head E) as [c [s [Hd Hc]]]. rewrite Hd in H.
    inversion H as [|? ? H1 _]. apply N.eqb_eq in H1. congruence.
  - intros ->. repeat constructor.
Qed.

Lemma format_d_zeros (width : nat) (z : Z) :
  Forall (fun c => (ZERO =? c) = true) (format_d width z) <-> z = 0%Z.
Proof.
  unfold format_d. destruct (Z.ltb_spec z 0) as [Hn|Hp].
  - split; [|lia]. intros H. inversion H as [|? ? H1 _]. discriminate H1.
  - cbn [app length]. rewrite Forall_app, decimal_zeros. split.
    + intros [_ H]. lia.
    + intros ->. split; [|reflexivity]. apply Forall_forall.
      intros c Hc. apply repeat_spec in Hc. subst c. reflexivity.
Qed.

Lemma format_d_digits (width : nat) (n : N) :
  Forall (fun c => is_digit c = true) (format_d width (Z.of_N n)).
Proof.
  unfold format_d. rewrite Zabs2N.id.
  replace (Z.of_N n <? 0)%Z with false by (symmetry; apply Z.ltb_ge; lia).
  cbn [app]. apply Forall_app. split; [|apply decimal_digits].
  apply Forall_forall. intros c Hc. apply repeat_spec in Hc. subst c. reflexivity.
Qed.

(** The code of a version with two-digit minor, micro and build numbers. *)
Lemma version_code_eq (release : list N) (v0 v1 v2 : N) (build : Z) :
  version_triple release = [v0; v1; v2] ->
  v1 < 100 -> v2 < 100 -> (0 <= build < 100)%Z ->
  exists code,
    version_code None release build = Some code /\
    code = Names.lstrip (N.eqb ZERO)
             (decimal v0 ++ format_d 2 (Z.of_N v1) ++ format_d 2 (Z.of_N v2)
                ++ format_d 2 build) /\
    value code = v0 * 1000000 + v1 * 10000 + v2 * 100 + Z.to_N build.
Proof.
  intros Ht H1 H2 Hb. unfold version_code. rewrite Ht. cbn [nth_error].
  rewrite format_d_plain. eexists. split; [reflexivity|]. split; [reflexivity|].
  rewrite value_lstrip. rewrite <- (Z2N.id build) by lia.
  assert (Hb' : Z.to_N build < 100) by lia.
  rewrite N2Z.id.
  rewrite !format_d_two by assumption.
  rewrite value_app, value_decimal. cbn [length app].
  change (10 ^ N.of_nat 6) with 1000000.
  rewrite value_cons, value_cons, value_cons, value_cons, value_two.
  cbn [length].
  change (10 ^ N.of_nat 5) with 100000. change (10 ^ N.of_nat 4) with 10000.
  change (10 ^ N.of_nat 3) with 1000. change (10 ^ N.of_nat 2) with 100.
  pose proof (N.Div0.div_mod v1 10). pose proof (N.Div0.div_mod v2 10).
  unfold ZERO. digits_lia.
Qed.

Lemma version_triple_length (release : list N) :
  release <> [] -> exists v0 v1 v2, version_triple release = [v0; v1; v2].
Proof.
  unfold version_triple. destruct release as [|a [|b [|c r]]]; [congruence| | |];
    intros _; cbn; eauto.
Qed.

End VersionCodeFacts.

Module VersionSpec.
Import Version VersionFacts VersionCodeFacts.
Open Scope N_scope.

(** X13. For a version whose minor and micro numbers and whose build number
    are below 100, the generated version code is a text of digits without a
    leading zero, and read as a number it is
    major * 1000000 + minor * 10000 + micro * 100 + build. *)
Theorem version_code_number (release : list N) (v0 v1 v2 : N) (build : Z) :
  version_triple release = [v0; v1; v2] ->
  v1 < 100 -> v2 < 100 -> (0 <= build < 100)%Z ->
  exists code,
    version_code None release build = Some code /\
    Forall (fun c => is_digit c = true) code /\
    (forall c rest, code = c :: rest -> c <> ZERO) /\
    value code = v0 * 1000000 + v1 * 10000 + v2 * 100 + Z.to_N build.
Proof.
  intros Ht H1 H2 Hb.
  destruct (@version_code_eq _ _ _ _ _ Ht H1 H2 Hb) as [code [Hc [Hs Hv]]].
  exists code. split; [exact Hc|]. split; [|split; [|exact Hv]].
  - rewrite Hs. apply lstrip_forall.
    rewrite <- (Z2N.id build) by lia.
    apply Forall_app; split; [apply decimal_digits|].
    apply Forall_app; split; [apply format_d_digits|].
    apply Forall_app; split; apply format_d_digits.
  - intros c rest Hcode. rewrite Hs in Hcode. apply lstrip_head in Hcode.
    intros ->. rewrite N.eqb_refl in Hcode. discriminate.
Qed.

Lemma version_code_number_witness :
  exists code,
    version_code None [1; 2] 3 = Some code /\
    Forall (fun c => is_digit c = true) code /\
    (forall c rest, code = c :: rest -> c <> ZERO) /\
    value code = 1 * 1000000 + 2 * 10000 + 0 * 100 + Z.to_N 3.
Proof.
  apply (@version_code_number [1; 2] 1 2 0 3%Z); [reflexivity | lia | lia | lia].
Defined.

(** X14. Among versions whose minor, micro and build numbers are below 100,
    two get the same version code exactly when they agree on the version
    triple (the release padded with zeros or cut to three numbers) and on
    the build number. *)
Theorem version_code_injective
    (r r' : list N) (v0 v1 v2 w0 w1 w2 : N) (build build' : Z) :
  version_triple r = [v0; v1; v2] ->
  version_triple r' = [w0; w1; w2] ->
  v1 < 100 -> v2 < 100 -> (0 <= build < 100)%Z ->
  w1 < 100 -> w2 < 100 -> (0 <= build' < 100)%Z ->
  version_code None r build = version_code None r' build'
    <-> (version_triple r = version_triple r' /\ build = build').
Proof.
  intros Ht Ht' H1 H2 Hb H1' H2' Hb'.
  destruct (@version_code_eq _ _ _ _ _ Ht H1 H2 Hb) as [code [Hc [_ Hv]]].
  destruct (@version_code_eq _ _ _ _ _ Ht' H1' H2' Hb') as [code' [Hc' [_ Hv']]].
  split.
  - intros Heq. rewrite Hc, Hc' in Heq. injection Heq as <-.
    rewrite Hv in Hv'. rewrite Ht, Ht'.
    assert (v0 = w0 /\ v1 = w1 /\ v2 = w2 /\ build = build') as [-> [-> [-> ->]]]
      by lia.
    split; reflexivity.
  - intros [Hr ->]. unfold version_code. rewrite Hr. reflexivity.
Qed.

Lemma version_code_injective_witness :
  version_code None [1; 2] 3 = version_code None [1; 2; 0; 7] 3
    <-> (version_triple [1; 2] = version_triple [1; 2; 0; 7] /\ 3%Z = 3%Z).
Proof.
  apply (@version_code_injective [1; 2] [1; 2; 0; 7] 1 2 0 1 2 0 3%Z 3%Z);
    try reflexivity; lia.
Defined.

(** X15. Among versions whose minor, micro and build numbers are below 100,
    the version code grows with the version: one version is older than
    another (by major, then minor, then micro, then build number) exactly
    when its code is the smaller number. *)
Theorem version_code_grows
    (r r' : list N) (v0 v1 v2 w0 w1 w2 : N) (build build' : Z) (code code' : str) :
  version_triple r = [v0; v1; v2] ->
  version_triple r' = [w0; w1; w2] ->
  v1 < 100 -> v2 < 100 -> (0 <= build < 100)%Z ->
  w1 < 100 -> w2 < 100 -> (0 <= build' < 100)%Z ->
  version_code None r build = Some code ->
  version_code None r' build' = Some code' ->
  older (v0, v1, v2, build) (w0, w1, w2, build') <-> value code < value code'.
Proof.
  intros Ht Ht' H1 H2 Hb H1' H2' Hb' Hcode Hcode'.
  destruct (@version_code_eq _ _ _ _ _ Ht H1 H2 Hb) as [c [Hc [_ Hv]]].
  destruct (@version_code_eq _ _ _ _ _ Ht' H1' H2' Hb') as [c' [Hc' [_ Hv']]].
  rewrite Hcode in Hc. rewrite Hcode' in Hc'.
  injection Hc as <-. injection Hc' as <-.
  rewrite Hv, Hv'. unfold older. lia.
Qed.

Lemma version_code_grows_witness :
  older (1, 9, 0, 0%Z) (1, 10, 0, 0%Z)
    <-> value (of_string "1090000") < value (of_string "1100000").
Proof.
  apply (@version_code_grows [1; 9] [1; 10] 1 9 0 1 10 0 0%Z 0%Z
           (of_string "1090000") (of_string "1100000"));
    try reflexivity; lia.
Defined.

(** X16. The generated version code is the empty text exactly when the
    version triple and the build number are all zero (whatever their size
    otherwise, and also for a negative build number). *)
Theorem version_code_empty (release : list N) (v0 v1 v2 : N) (build : Z) :
  version_triple release = [v0; v1; v2] ->
  version_code None release build = Some []
    <-> (v0 = 0 /\ v1 = 0 /\ v2 = 0 /\ build = 0%Z).
Proof.
  intros Ht. unfold version_code. rewrite Ht. cbn [nth_error]. split.
  - intros H. injection H as H. apply lstrip_nil in H.
    rewrite !Forall_app, !format_d_zeros in H. lia.
  - intros [-> [-> [-> ->]]]. reflexivity.
Qed.

Lemma version_code_empty_witness :
  version_code None [0] 0 = Some []
    <-> (0 = 0 /\ 0 = 0 /\ 0 = 0 /\ 0%Z = 0%Z).
Proof.
  apply (@version_code_empty [0] 0 0 0 0%Z). reflexivity.
Defined.

End VersionSpec.

Module PermissionsFacts.
Import Build Permissions.
Open Scope string_scope.

Lemma dict_get_set {V} (d : dict V) (key k : string) (v : V) :
  dict_get (dict_set d key v) k
  = if String.eqb key k then Some v else dict_get d k.
Proof.
  induction d as [|[k' v'] d IH]; cbn [dict_set dict_get].
  - destruct (String.eqb key k); reflexivity.
  - destruct (String.eqb_spec k' key) as [->|Hk]; cbn [dict_get].
    + destruct (String.eqb key k); reflexivity.
    + rewrite IH. destruct (String.eqb_spec k' k) as [->|Hk'].
      * destruct (String.eqb_spec key k) as [->|_]; [contradiction | reflexivity].
      * reflexivity.
Qed.

Lemma dict_get_app {V} (a b : dict V) (k : string) :
  dict_get (a ++ b) k
  = match dict_get a k with Some v => Some v | None => dict_get b k end.
Proof.
  induction a as [|[k' v'] a IH]; cbn [app dict_get]; [reflexivity|].
  destruct (String.eqb k' k); [reflexivity | exact IH].
Qed.

(** After [update] a key has the value [other] assigned to it last, and
    otherwise the value it had. *)
Lemma dict_get_update {V} (d other : dict V) (k : string) :
  dict_get (dict_update d other) k
  = match assigned other k with Some v => Some v | None => dict_get d k end.
Proof.
  unfold dict_update, assigned. revert d.
  induction other as [|[k' v'] other IH]; intros d; cbn [fold_left rev fst snd].
  - reflexivity.
  - rewrite IH, dict_get_app, dict_get_set. cbn [dict_get].
    destruct (dict_get (rev other) k); [reflexivity|].
    destruct (String.eqb k' k); reflexivity.
Qed.

Lemma dict_get_none {V} (d : dict V) (k : string) :
  dict_get d k = None <-> ~ In k (keys d).
Proof.
  induction d as [|[k' v] d IH]; cbn [dict_get keys map fst In].
  - split; [intros _ [] | reflexivity].
  - destruct (String.eqb_spec k' k) as [->|Hk].
    + split; [discriminate | intros H; exfalso; apply H; left; reflexivity].
    + rewrite IH. unfold keys. tauto.
Qed.

Lemma dict_get_some_in {V} (d : dict V) (k : string) (v : V) :
  dict_get d k = Some v -> In (k, v) d.
Proof.
  induction d as [|[k' v'] d IH]; cbn [dict_get]; [discriminate|].
  destruct (String.eqb_spec k' k) as [->|_].
  - intros H. inversion H. left. reflexivity.
  - intros H. right. apply IH. exact H.
Qed.

(** In a dict, where no key comes twice, the value assigned last is the
    value. *)
Lemma dict_get_unique {V} (d : dict V) (k : string) (v : V) :
  NoDup (keys d) -> In (k, v) d -> dict_get d k = Some v.
Proof.
  induction d as [|[k' v'] d IH]; cbn [keys map fst dict_get]; [intros _ []|].
  intros Hd [Hin|Hin]; inversion Hd as [|? ? Hk Hd']; subst.
  - inversion Hin; subst. rewrite String.eqb_refl. reflexivity.
  - destruct (String.eqb_spec k' k) as [->|_].
    + exfalso. apply Hk. apply (in_map fst) in Hin. exact Hin.
    + apply IH; assumption.
Qed.

Lemma assigned_unique {V} (d : dict V) (k : string) :
  NoDup (keys d) -> assigned d k = dict_get d k.
Proof.
  intros Hd. unfold assigned.
  destruct (dict_get d k) as [v|] eqn:E.
  - apply dict_get_unique.
    + unfold keys. rewrite map_rev. apply NoDup_rev. exact Hd.
    + apply in_rev. rewrite rev_involutive. apply dict_get_some_in. exact E.
  - apply dict_get_none. apply dict_get_none in E.
    unfold keys in *. rewrite map_rev, <- in_rev. exact E.
Qed.

Lemma assigned_in {V} (d : dict V) (k : string) (v : V) :
  assigned d k = Some v -> In (k, v) d.
Proof.
  unfold assigned. intros H. apply dict_get_some_in in H.
  apply in_rev. exact H.
Qed.

Lemma assigned_none {V} (d : dict V) (k : string) :
  assigned d k = None <-> ~ In k (keys d).
Proof.
  unfold assigned. rewrite dict_get_none. unfold keys.
  rewrite map_rev, <- in_rev. reflexivity.
Qed.

(** The keys after [update]: those of either dict. *)
Lemma update_keys {V} (d other : dict V) (k : string) :
  dict_get (dict_update d other) k <> None
    <-> (In k (keys d) \/ In k (keys other)).
Proof.
  rewrite dict_get_update.
  destruct (assigned other k) as [v|] eqn:E.
  - split; [intros _|discriminate]. right.
    apply assigned_in in E. apply (in_map fst) in E. exact E.
  - apply assigned_none in E.
    destruct (dict_get d k) as [v|] eqn:Ed.
    + split; [intros _|discriminate]. left.
      apply dict_get_some_in in Ed. apply (in_map fst) in Ed. exact Ed.
    + apply dict_get_none in Ed. tauto.
Qed.

Section Truth.

Variable Value : Type.
Variable truthy : Value -> bool.

Ltac lookup x key tac :=
  destruct (dict_get x key); cbn [and_then]; [|tac].

Lemma cross_platform_missing (x : dict Value) :
  match find (fun k => match dict_get x k with None => true | _ => false end)
             cross_platform_keys with
  | Some key => cross_platform truthy x = inl key
  | None => exists c, cross_platform truthy x = inr c
  end.
Proof.
  unfold cross_platform_keys, cross_platform, when_. cbn [find].
  lookup x "camera" reflexivity. lookup x "microphone" reflexivity.
  lookup x "fine_location" reflexivity. lookup x "coarse_location" reflexivity.
  lookup x "background_location" reflexivity.
  lookup x "photo_library" reflexivity.
  eexists. reflexivity.
Qed.

(** Where the six keys are there, each block is taken or not. *)
Lemma cross_platform_inr (x : dict Value) (c : context) :
  cross_platform truthy x = inr c ->
  c = apply_if (asked truthy x "photo_library")
        (permit "android.permission.READ_MEDIA_VISUAL_USER_SELECTED")
        (apply_if (asked truthy x "background_location")
           (location "android.permission.ACCESS_BACKGROUND_LOCATION")
           (apply_if (asked truthy x "coarse_location")
              (location "android.permission.ACCESS_COARSE_LOCATION")
              (apply_if (asked truthy x "fine_location")
                 (location "android.permission.ACCESS_FINE_LOCATION")
                 (apply_if (asked truthy x "microphone")
                    (permit "android.permission.RECORD_AUDIO")
                    (apply_if (asked truthy x "camera") camera
                       ([("android.permission.INTERNET", true);
                         ("android.permission.ACCESS_NETWORK_STATE", true)],
                        [])))))).
Proof.
  unfold cross_platform, when_, asked.
  lookup x "camera" discriminate. lookup x "microphone" discriminate.
  lookup x "fine_location" discriminate. lookup x "coarse_location" discriminate.
  lookup x "background_location" discriminate.
  lookup x "photo_library" discriminate.
  intros H. injection H as <-. reflexivity.
Qed.

Lemma cross_platform_cases (x : dict Value) :
  match cross_platform truthy x with
  | inl _ => True
  | inr c =>
      fst c = map (fun p => (p, true))
                (["android.permission.INTERNET";
                  "android.permission.ACCESS_NETWORK_STATE"]
                   ++ map snd (filter (fun rule => asked truthy x (fst rule))
                                      android_permission)) /\
      snd c = map (fun f => (f, false))
                ((if asked truthy x "camera" then camera_features else [])
                   ++ (if asked truthy x "fine_location"
                          || asked truthy x "coarse_location"
                          || asked truthy x "background_location"
                       then location_feature_names else []))
  end.
Proof.
  destruct (cross_platform truthy x) as [key|c] eqn:E; [exact I|].
  apply cross_platform_inr in E. subst c.
  unfold android_permission. cbn [filter fst snd].
  destruct (asked truthy x "camera"), (asked truthy x "microphone"),
    (asked truthy x "fine_location"), (asked truthy x "coarse_location"),
    (asked truthy x "background_location"), (asked truthy x "photo_library");
    split; reflexivity.
Qed.

(** Before the [update] calls the permissions are the two every app has and
    those asked for, all [True]. *)
Lemma cross_platform_permissions (x : dict Value) (c : context) :
  cross_platform truthy x = inr c ->
  fst c = map (fun p => (p, true))
            (["android.permission.INTERNET";
              "android.permission.ACCESS_NETWORK_STATE"]
               ++ map snd (filter (fun rule => asked truthy x (fst rule))
                                  android_permission)).
Proof.
  intros H. pose proof (cross_platform_cases x) as Hc. rewrite H in Hc.
  apply Hc.
Qed.

(** Before the [update] calls the features are those of the camera and of
    the location, where asked for, all [False]. *)
Lemma cross_platform_features (x : dict Value) (c : context) :
  cross_platform truthy x = inr c ->
  snd c = map (fun f => (f, false))
            ((if asked truthy x "camera" then camera_features else [])
               ++ (if asked truthy x "fine_location"
                      || asked truthy x "coarse_location"
                      || asked truthy x "background_location"
                   then location_feature_names else [])).
Proof.
  intros H. pose proof (cross_platform_cases x) as Hc. rewrite H in Hc.
  apply Hc.
Qed.

End Truth.

End PermissionsFacts.

Module PermissionsSpec.
Import Build Permissions PermissionsFacts.
Open Scope string_scope.

Section Truth.

Variable Value : Type.
Variable truthy : Value -> bool.

(** X17. [permissions_context] needs the six keys camera, microphone,
    fine_location, coarse_location, background_location and photo_library in
    [x_permissions]: it raises [KeyError] on the first of them, in this
    order, that is missing, and returns a context when none is. *)
Theorem permissions_context_key_error
    (permission : dict bool) (feature : option (dict bool)) (x : dict Value) :
  match find (fun k => match dict_get x k with None => true | _ => false end)
             cross_platform_keys with
  | Some key => permissions_context truthy permission feature x = inl key
  | None => exists c, permissions_context truthy permission feature x = inr c
  end.
Proof.
  unfold permissions_context.
  pose proof (cross_platform_missing truthy x) as H.
  destruct (find _ cross_platform_keys) as [key|].
  - rewrite H. reflexivity.
  - destruct H as [c ->]. eexists. reflexivity.
Qed.

(** X18. The app's own definitions win: every key of [app.permission] has
    the app's value in the permissions of the result, and every key of
    [app.feature] has the app's value in the features. *)
Theorem app_definitions_win
    (permission : dict bool) (feature : option (dict bool)) (x : dict Value)
    (p f : dict bool) :
  NoDup (keys permission) ->
  (forall d, feature = Some d -> NoDup (keys d)) ->
  permissions_context truthy permission feature x = inr (p, f) ->
  (forall k v, In (k, v) permission -> dict_get p k = Some v) /\
  (forall d k v, feature = Some d -> In (k, v) d -> dict_get f k = Some v).
Proof.
  intros Hp Hf. unfold permissions_context.
  destruct (cross_platform truthy x) as [key|c]; cbn [and_then]; [discriminate|].
  intros H. injection H as <- <-. split.
  - intros k v Hin. rewrite dict_get_update, (@assigned_unique _ _ k Hp).
    rewrite (@dict_get_unique _ _ _ _ Hp Hin). reflexivity.
  - intros d k v -> Hin. specialize (Hf d eq_refl).
    rewrite dict_get_update, (@assigned_unique _ _ k Hf).
    rewrite (@dict_get_unique _ _ _ _ Hf Hin). reflexivity.
Qed.

(** X19. What the function itself sets is [True] for a permission and
    [False] for a feature: a permission of the result is [False] only where
    [app.permission] says so, and a feature is [True] only where
    [app.feature] says so. *)
Theorem only_the_app_refuses_or_requires
    (permission : dict bool) (feature : option (dict bool)) (x : dict Value)
    (p f : dict bool) :
  permissions_context truthy permission feature x = inr (p, f) ->
  (forall k, dict_get p k = Some false -> In (k, false) permission) /\
  (forall k, dict_get f k = Some true ->
             exists d, feature = Some d /\ In (k, true) d).
Proof.
  unfold permissions_context.
  destruct (cross_platform truthy x) as [key|c] eqn:E; cbn [and_then];
    [discriminate|].
  intros H. injection H as <- <-. split.
  - intros k. rewrite dict_get_update.
    destruct (assigned permission k) as [v|] eqn:Ea.
    + intros H. injection H as ->. apply assigned_in. exact Ea.
    + rewrite (@cross_platform_permissions _ _ _ _ E). intros H.
      apply dict_get_some_in, in_map_iff in H. destruct H as [? [H _]].
      discriminate H.
  - intros k. rewrite dict_get_update.
    destruct (assigned _ k) as [v|] eqn:Ea.
    + intros H. injection H as ->. apply assigned_in in Ea.
      destruct feature as [d|]; [|destruct Ea]. exists d. split; [reflexivity | exact Ea].
    + rewrite (@cross_platform_features _ _ _ _ E). intros H.
      apply dict_get_some_in, in_map_iff in H. destruct H as [? [H _]].
      discriminate H.
Qed.

(** X20. The permissions of the result are exactly: INTERNET and
    ACCESS_NETWORK_STATE, the Android permission of every cross-platform
    permission that is asked for, and the keys of [app.permission]. *)
Theorem permissions_are_the_asked_ones
    (permission : dict bool) (feature : option (dict bool)) (x : dict Value)
    (p f : dict bool) (k : string) :
  permissions_context truthy permission feature x = inr (p, f) ->
  dict_get p k <> None
    <-> (In k ["android.permission.INTERNET";
               "android.permission.ACCESS_NETWORK_STATE"] \/
         (exists key, In (key, k) android_permission /\
                      asked truthy x key = true) \/
         In k (keys permission)).
Proof.
  unfold permissions_context.
  destruct (cross_platform truthy x) as [key|c] eqn:E; cbn [and_then];
    [discriminate|].
  intros H. injection H as <- <-.
  rewrite update_keys, (@cross_platform_permissions _ _ _ _ E).
  unfold keys at 1. rewrite map_map. cbn [fst]. rewrite map_id, in_app_iff, in_map_iff.
  split.
  - intros [[H|[[key perm] [Hk H]]]|H]; [tauto | | tauto].
    apply filter_In in H. destruct H as [Hin Hask]. cbn [fst snd] in *. subst perm.
    right. left. exists key. split; assumption.
  - intros [H|[[key [Hin Hask]]|H]]; [tauto | | tauto].
    left. right. exists (key, k). split; [reflexivity|].
    apply filter_In. split; assumption.
Qed.

(** X21. The features of the result are exactly: the five camera features
    where the camera is asked for, the two location features where the
    fine, the coarse or the background location is asked for, and the keys
    of [app.feature]. *)
Theorem features_are_the_asked_ones
    (permission : dict bool) (feature : option (dict bool)) (x : dict Value)
    (p f : dict bool) (k : string) :
  permissions_context truthy permission feature x = inr (p, f) ->
  dict_get f k <> None
    <-> ((asked truthy x "camera" = true /\ In k camera_features) \/
         (asked truthy x "fine_location" || asked truthy x "coarse_location"
            || asked truthy x "background_location" = true /\
          In k location_feature_names) \/
         (exists d, feature = Some d /\ In k (keys d))).
Proof.
  unfold permissions_context.
  destruct (cross_platform truthy x) as [key|c] eqn:E; cbn [and_then];
    [discriminate|].
  intros H. injection H as <- <-.
  rewrite update_keys, (@cross_platform_features _ _ _ _ E).
  unfold keys at 1. rewrite map_map. cbn [fst]. rewrite map_id, in_app_iff.
  assert (Hf : In k (keys match feature with Some d => d | None => [] end)
               <-> exists d, feature = Some d /\ In k (keys d)).
  { destruct feature as [d|].
    - split; [intros H; exists d; split; [reflexivity | exact H]|].
      intros [d' [Hd H]]. injection Hd as ->. exact H.
    - split; [intros [] | intros [d [Hd _]]; discriminate Hd]. }
  rewrite Hf.
  destruct (asked truthy x "camera");
    destruct (asked truthy x "fine_location" || asked truthy x "coarse_location"
              || asked truthy x "background_location");
    intuition (try discriminate; auto).
  all: match goal with H : In _ [] |- _ => destruct H end.
Qed.

End Truth.

Lemma app_definitions_win_witness :
  (forall k v, In (k, v) sample_permission ->
               dict_get sample_permissions k = Some v) /\
  (forall d k v, Some sample_feature = Some d -> In (k, v) d ->
                 dict_get sample_features k = Some v).
Proof.
  apply (@app_definitions_win bool (fun b => b) sample_permission
           (Some sample_feature) sample_x sample_permissions sample_features).
  - repeat constructor; cbn; intuition discriminate.
  - intros d H. injection H as <-. repeat constructor; cbn; intuition discriminate.
  - reflexivity.
Defined.

Lemma only_the_app_refuses_or_requires_witness :
  (forall k, dict_get sample_permissions k = Some false ->
             In (k, false) sample_permission) /\
  (forall k, dict_get sample_features k = Some true ->
             exists d, Some sample_feature = Some d /\ In (k, true) d).
Proof.
  apply (@only_the_app_refuses_or_requires bool (fun b => b) sample_permission
           (Some sample_feature) sample_x sample_permissions sample_features).
  reflexivity.
Defined.

Lemma permissions_are_the_asked_ones_witness :
  dict_get sample_permissions "android.permission.ACCESS_FINE_LOCATION" <> None
    <-> (In "android.permission.ACCESS_FINE_LOCATION"
            ["android.permission.INTERNET";
             "android.permission.ACCESS_NETWORK_STATE"] \/
         (exists key,
            In (key, "android.permission.ACCESS_FINE_LOCATION")
               android_permission /\
            asked (fun b : bool => b) sample_x key = true) \/
         In "android.permission.ACCESS_FINE_LOCATION" (keys sample_permission)).
Proof.
  apply (@permissions_are_the_asked_ones bool (fun b => b) sample_permission
           (Some sample_feature) sample_x sample_permissions sample_features).
  reflexivity.
Defined.

Lemma features_are_the_asked_ones_witness :
  dict_get sample_features "android.hardware.camera.front" <> None
    <-> ((asked (fun b : bool => b) sample_x "camera" = true /\
          In "android.hardware.camera.front" camera_features) \/
         (asked (fun b : bool => b) sample_x "fine_location"
            || asked (fun b : bool => b) sample_x "coarse_location"
            || asked (fun b : bool => b) sample_x "background_location" = true /\
          In "android.hardware.camera.front" location_feature_names) \/
         (exists d, Some sample_feature = Some d /\
                    In "android.hardware.camera.front" (keys d))).
Proof.
  apply (@features_are_the_asked_ones bool (fun b => b) sample_permission
           (Some sample_feature) sample_x sample_permissions sample_features).
  reflexivity.
Defined.

End PermissionsSpec.

(** * The port mappings and the run, continued *)

Module PortsFacts.
Import Run RunFacts Ports.
Open Scope list_scope.
Open Scope Z_scope.

Lemma added_extend (st : state) (d : list event) : added st (extend st d) = d.
Proof.
  unfold added. cbn [history extend].
  rewrite skipn_app, skipn_all, Nat.sub_diag. reflexivity.
Qed.

(** The code before the [yield]: the forwards and the reverses in order, up
    to and with the first that raises. *)
Lemma establish_cases (w : world) (forward reverse : list Z) (st : state) :
  before_yield (forward_ports w forward reverse) st =
    (Returns tt, extend st (map ok (establishments forward reverse))) \/
  exists done c rest e,
    establishments forward reverse = done ++ c :: rest /\
    raises w (history st ++ map ok done) c = Some e /\
    before_yield (forward_ports w forward reverse) st =
      (Raises e, extend st (map ok done ++ [(c, Some e)])).
Proof.
  cbn [before_yield forward_ports]. unfold establishments.
  destruct (for_each_commands w (fun port => Forward port port) forward st)
    as [Hf|[done [c [rest [e [Hs [Hr Hf]]]]]]].
  - rewrite (bind_returns _ Hf).
    destruct (for_each_commands w (fun port => Reverse port port) reverse
                (extend st (map ok (map (fun port => Forward port port) forward))))
      as [->|[done [c [rest [e [Hs [Hr ->]]]]]]].
    + left. rewrite extend_extend, <- map_app. reflexivity.
    + right. exists (map (fun port => Forward port port) forward ++ done), c, rest, e.
      rewrite Hs, extend_extend, map_app, <- !app_assoc.
      cbn [history extend] in Hr. rewrite <- app_assoc in Hr.
      repeat split; exact Hr.
  - rewrite (bind_raises _ Hf).
    right. exists done, c, (rest ++ map (fun port => Reverse port port) reverse), e.
    rewrite Hs, <- app_assoc. repeat split; exact Hr.
Qed.

Lemma active_from_app (acc : list mapping) (a b : list event) :
  active_from acc (a ++ b) = active_from (active_from acc a) b.
Proof.
  revert acc. induction a as [|[c r] a IH]; intros acc; [reflexivity|].
  cbn [app]. destruct c, r; cbn [active_from]; apply IH.
Qed.

Lemma filter_filter {A} (f g : A -> bool) (l : list A) :
  filter f (filter g l) = filter (fun x => g x && f x) l.
Proof.
  induction l as [|x l IH]; [reflexivity|]. cbn [filter].
  destruct (g x); cbn [filter andb]; [destruct (f x)|]; rewrite IH; reflexivity.
Qed.

(** The removals, all of them returning, take away the mappings asked for
    and no other. *)
Lemma active_removals (forward reverse : list Z) (acc : list mapping) :
  active_from acc (map ok (removals forward reverse))
  = filter (fun m => negb (requested forward reverse m)) acc.
Proof.
  unfold removals. revert acc.
  induction forward as [|p forward IH]; intros acc.
  - cbn [map app]. revert acc.
    induction reverse as [|p reverse IH]; intros acc.
    + cbn [map active_from]. symmetry. apply forallb_filter_id.
      apply forallb_forall. intros [[|] q] _; reflexivity.
    + cbn [map ok active_from]. change (ReverseRemove p, None) with (ok (ReverseRemove p)).
      unfold ok at 1. cbn [active_from]. rewrite IH, filter_filter.
      apply filter_ext. intros [[|] q]; unfold requested, mapping_eqb;
        cbn [fst snd existsb]; [reflexivity|].
      destruct (q =? p); reflexivity.
  - cbn [map app]. unfold ok at 1. cbn [active_from]. rewrite IH, filter_filter.
    apply filter_ext. intros [[|] q]; unfold requested, mapping_eqb;
      cbn [fst snd existsb]; [|reflexivity].
    destruct (q =? p); reflexivity.
Qed.

Lemma command_returns (w : world) (c : call) (st : state) :
  raises w (history st) c = None ->
  command w c st = (Returns tt, extend st [ok c]).
Proof.
  intros H. destruct (command_cases w c st) as [[_ Hc]|[e [He _]]];
    [exact Hc | congruence].
Qed.

Lemma extern_cases {A} (w : world) (c : call) (answer : list event -> A)
    (st : state) :
  (raises w (history st) c = None /\
   extern w c answer st = (Returns (answer (history st)), extend st [ok c])) \/
  (exists e, raises w (history st) c = Some e /\
             extern w c answer st = (Raises e, extend st [(c, Some e)])).
Proof.
  unfold extern. destruct (raises w (history st) c) as [e|].
  - right. exists e. split; reflexivity.
  - left. split; reflexivity.
Qed.

(** Which of the events listed is the one at hand. *)
Ltac events :=
  repeat match goal with
         | H : In _ (_ :: _) |- _ => destruct H as [H|H]
         | H : In _ [] |- _ => destruct H
         | H : context [ok _] |- _ => unfold ok in H
         | H : (_, _) = (_, _) |- _ => inversion H; clear H; subst
         end.

(** The calls of [select_device] to the emulator: none when a device is
    running; else the creation of an AVD or the check of the one named, and
    the boot of it. *)
Lemma select_device_emulator_calls :
  forall w app device_or_avd extra st r st',
    select_device w app device_or_avd extra st = (r, st') ->
    (forall c res,
       In (c, res) (added st st') -> is_emulator_call c = true ->
       exists name avd,
         target w (history st) = (None, name, avd) /\
         match c with
         | CreateEmulator => avd = None
         | VerifyAvd a => avd = Some a
         | StartEmulator a args =>
             args = extra /\
             (avd = Some a \/
              (avd = None /\
               a = new_avd w (history st ++ [ok (SelectTargetDevice device_or_avd)])))
         | _ => True
         end) /\
    (forall d name avd,
       target w (history st) = (Some d, name, avd) ->
       raises w (history st) (SelectTargetDevice device_or_avd) = None ->
       r = Returns (d, name) /\
       st' = extend st [ok (SelectTargetDevice device_or_avd)]).
Proof.
  intros w app device_or_avd extra st r st' H.
  unfold select_device in H.
  destruct (extern_cases w (SelectTargetDevice device_or_avd) (target w) st)
    as [[Hr He]|[e [Hr He]]].
  2:{ rewrite (bind_raises _ He) in H. injection H as <- <-. split.
      - intros c res Hin Hc. rewrite added_extend in Hin. cbn [List.app] in Hin. events.
        discriminate Hc.
      - intros d name avd _ Hn. congruence. }
  rewrite (bind_returns _ He) in H.
  destruct (target w (history st)) as [[device name] avd] eqn:Et.
  destruct device as [d|].
  { injection H as <- <-. split.
    - intros c res Hin Hc. rewrite added_extend in Hin. cbn [List.app] in Hin. events.
      discriminate Hc.
    - intros d' name' avd' Ht _. injection Ht as <- <- <-. split; reflexivity. }
  split; [|intros d name' avd' Ht; discriminate Ht].
  intros c res Hin Hc. exists name, avd. split; [reflexivity|].
  set (st1 := extend st [ok (SelectTargetDevice device_or_avd)]) in *.
  assert (Hprep : exists prep avd_,
            match avd with
            | Some a => prep = VerifyAvd a /\ avd_ = a
            | None => prep = CreateEmulator /\ avd_ = new_avd w (history st1)
            end /\
            ((match avd with
              | Some a => command w (VerifyAvd a) ;; ret a
              | None => extern w CreateEmulator (new_avd w)
              end) st1 = (Returns avd_, extend st1 [ok prep]) \/
             exists e,
               (match avd with
                | Some a => command w (VerifyAvd a) ;; ret a
                | None => extern w CreateEmulator (new_avd w)
                end) st1 = (Raises e, extend st1 [(prep, Some e)]))).
  { destruct avd as [a|].
    - exists (VerifyAvd a), a. split; [split; reflexivity|].
      destruct (command_cases w (VerifyAvd a) st1) as [[_ Hc']|[e [_ Hc']]].
      + left. rewrite (bind_returns _ Hc'). reflexivity.
      + right. exists e. rewrite (bind_raises _ Hc'). reflexivity.
    - exists CreateEmulator, (new_avd w (history st1)). split; [split; reflexivity|].
      destruct (extern_cases w CreateEmulator (new_avd w) st1)
        as [[_ Hc']|[e [_ Hc']]].
      + left. exact Hc'.
      + right. exists e. exact Hc'. }
  destruct Hprep as [prep [avd_ [Hshape [Hp|[e Hp]]]]].
  2:{ rewrite (bind_raises _ Hp) in H. injection H as <- <-.
      subst st1. rewrite extend_extend, added_extend in Hin. cbn [List.app] in Hin. events.
      - discriminate Hc.
      - destruct avd; destruct Hshape as [-> _]; reflexivity. }
  rewrite (bind_returns _ Hp) in H. cbv beta in H.
  match type of H with context [command w ?info] =>
    destruct (command_cases w info (extend st1 [ok prep]))
      as [[_ Hi]|[e [_ Hi]]]
  end.
  2:{ rewrite (bind_raises _ Hi) in H. injection H as <- <-.
      subst st1. rewrite !extend_extend, added_extend in Hin. cbn [List.app] in Hin. events.
      - discriminate Hc.
      - destruct avd; destruct Hshape as [-> _]; reflexivity.
      - discriminate Hc. }
  rewrite (bind_returns _ Hi) in H. cbv beta in H.
  match type of H with bind (extern w ?c ?ans) _ ?s = _ =>
    destruct (extern_cases w c ans s) as [[_ Hs]|[e [_ Hs]]]
  end.
  - rewrite (bind_returns _ Hs) in H. injection H as <- <-.
    subst st1. rewrite !extend_extend, added_extend in Hin. cbn [List.app] in Hin. events.
    + discriminate Hc.
    + destruct avd; destruct Hshape as [-> _]; reflexivity.
    + discriminate Hc.
    + split; [reflexivity|].
      destruct avd; destruct Hshape as [_ ->]; [left | right; split]; reflexivity.
  - rewrite (bind_raises _ Hs) in H. injection H as <- <-.
    subst st1. rewrite !extend_extend, added_extend in Hin. cbn [List.app] in Hin. events.
    + discriminate Hc.
    + destruct avd; destruct Hshape as [-> _]; reflexivity.
    + discriminate Hc.
    + split; [reflexivity|].
      destruct avd; destruct Hshape as [_ ->]; [left | right; split]; reflexivity.
Qed.

(** None of the calls of [run_app] from line 423 on is about the emulator
    but [adb.kill()]. *)
Lemma no_emulator_after_selection (w : world) (fuel : nat) (app : AppConfig)
    (passthrough : list string) (d : string) (name : option string)
    (forward reverse : option (list Z)) (sd : bool) (st1 : state)
    (r : outcome unit) (st' : state) :
  try_finally (session w fuel app passthrough d name forward reverse)
              (shutdown w sd) st1 = (r, st') ->
  exists D,
    history st' = history st1 ++ D /\
    Forall (fun ev : event => is_emulator_call (fst ev) = false) D.
Proof.
  set (q := fun c => negb (is_emulator_call c)).
  assert (Hq : forall D, Forall (fun ev : event => q (fst ev) = true) D ->
                         Forall (fun ev : event => is_emulator_call (fst ev) = false) D).
  { apply Forall_impl. intros ev H. unfold q in H.
    destruct (is_emulator_call (fst ev)); [discriminate H | reflexivity]. }
  assert (Hrest : steps q (install w app ;;
                           with_ (forward_ports w (or_empty forward) (or_empty reverse))
                                 (launch_and_follow w fuel app passthrough))).
  { unfold install, wait_bar, launch_and_follow, launch, follow_or_fail, command.
    apply steps_bind.
    { apply steps_bind; [apply steps_extern; reflexivity | intros _].
      apply steps_bind; [apply steps_extern; reflexivity | intros _].
      apply steps_extern; reflexivity. }
    intros _. apply steps_with.
    - cbn [before_yield forward_ports]. unfold command.
      apply steps_bind; [|intros _];
        apply steps_for_each; intros p; apply steps_extern; reflexivity.
    - cbn [after_yield forward_ports]. unfold command.
      apply steps_bind; [|intros _];
        apply steps_for_each; intros p; apply steps_extern; reflexivity.
    - apply steps_bind.
      + apply steps_bind; [apply steps_extern; reflexivity | intros dst].
        apply steps_bind; [apply steps_extern; reflexivity | intros _].
        apply steps_bind; [apply steps_extern; reflexivity | intros now].
        apply steps_bind; [|intros pid; apply steps_ret].
        apply steps_poll_pid; reflexivity.
      + intros x. destruct (truthy (snd x)).
        * repeat (apply steps_bind; [apply steps_extern; reflexivity | intros _]).
          apply steps_extern; reflexivity.
        * repeat (apply steps_bind; [apply steps_extern; reflexivity | intros _]).
          apply steps_raise. }
  assert (Hdown : steps q (shutdown w sd)).
  { unfold shutdown, wait_bar. destruct sd; [|apply steps_ret].
    intros st r0 st0 H. unfold adb_kill in H. destruct (adb st).
    - revert H. apply steps_extern. reflexivity.
    - injection H as <- <-. exists []. rewrite extend_nil. split; constructor. }
  assert (Hbody : forall r0 st2,
            session w fuel app passthrough d name forward reverse st1 = (r0, st2) ->
            exists D, history st2 = history st1 ++ D /\
                      Forall (fun ev : event => q (fst ev) = true) D).
  { intros r0 st2 Hs. unfold session in Hs.
    destruct (command_cases w (ConsoleInfo (starting_message app d name)
                                           (app_name app)) st1)
      as [[_ Hc]|[e [_ Hc]]].
    - rewrite (bind_returns _ Hc) in Hs.
      assert (Hbind : bind_adb d (extend st1
                        [ok (ConsoleInfo (starting_message app d name) (app_name app))])
                      = (Returns tt,
                         {| history := history (extend st1
                              [ok (ConsoleInfo (starting_message app d name) (app_name app))]);
                            adb := Some d |}))
        by reflexivity.
      rewrite (bind_returns _ Hbind) in Hs.
      apply Hrest in Hs. destruct Hs as [D [-> HD]].
      exists (ok (ConsoleInfo (starting_message app d name) (app_name app)) :: D).
      cbn [history extend]. rewrite <- app_assoc. split; [reflexivity|].
      constructor; [reflexivity | exact HD].
    - rewrite (bind_raises _ Hc) in Hs. injection Hs as <- <-.
      eexists. split; [reflexivity|]. constructor; [reflexivity | constructor]. }
  intros H. unfold try_finally in H.
  destruct (session w fuel app passthrough d name forward reverse st1)
    as [r0 st2] eqn:Es.
  destruct (Hbody _ _ eq_refl) as [D [HD HqD]].
  destruct r0 as [a|e|].
  - destruct (shutdown w sd st2) as [rf st3] eqn:Ef.
    destruct (Hdown _ _ _ Ef) as [D' [-> HqD']].
    exists (D ++ D'). split.
    + destruct rf; injection H as <- <-; cbn [history extend];
        rewrite HD, <- app_assoc; reflexivity.
    + apply Hq. apply Forall_app. split; assumption.
  - destruct (shutdown w sd st2) as [rf st3] eqn:Ef.
    destruct (Hdown _ _ _ Ef) as [D' [-> HqD']].
    exists (D ++ D'). split.
    + destruct rf; injection H as <- <-; cbn [history extend];
        rewrite HD, <- app_assoc; reflexivity.
    + apply Hq. apply Forall_app. split; assumption.
  - injection H as <- <-. exists D. split; [exact HD | apply Hq; exact HqD].
Qed.

(** The message of line 417 names every extra argument of the emulator. *)
Lemma starting_emulator_message :
  calls (history (snd (select_device (without_device (silent_device 10000))
                                     helloworld None
                                     (Some ["-no-window"; "-no-audio"]%string)
                                     fresh)))
  = [SelectTargetDevice None; CreateEmulator;
     ConsoleInfo "Starting emulator beePhone (with -no-window -no-audio)..."
                 "helloworld";
     StartEmulator "beePhone" (Some ["-no-window"; "-no-audio"]%string)].
Proof. vm_compute. reflexivity. Qed.

End PortsFacts.

Module PortsSpec.
Import Run RunFacts Ports PortsFacts.
Open Scope list_scope.
Open Scope Z_scope.

(** X22. Establishing the mappings stops at the first failure.  The scope of
    [forward_ports] calls [forward] for the forward ports and then [reverse]
    for the reverse ports, in order; when one of these calls raises, the
    scope raises that error at once: the calls after it are not made, the
    body of the scope does not run, and no removal is called, so the
    mappings made so far stay in place. *)
Theorem establishing_stops_at_first_failure :
  forall w forward reverse (A : Type) (body : M A) st,
    (exists st1,
       before_yield (forward_ports w forward reverse) st = (Returns tt, st1) /\
       st1 = extend st (map ok (establishments forward reverse))) \/
    (exists done c rest e,
       establishments forward reverse = done ++ c :: rest /\
       raises w (history st ++ map ok done) c = Some e /\
       with_ (forward_ports w forward reverse) body st
         = (Raises e, extend st (map ok done ++ [(c, Some e)])) /\
       active (history (extend st (map ok done ++ [(c, Some e)])))
         = active (history st ++ map ok done)).
Proof.
  intros w forward reverse A body st.
  destruct (establish_cases w forward reverse st)
    as [H|[done [c [rest [e [Hs [Hr H]]]]]]].
  - left. eexists. split; [exact H | reflexivity].
  - right. exists done, c, rest, e. split; [exact Hs|]. split; [exact Hr|]. split.
    + unfold with_. rewrite H. reflexivity.
    + unfold active. cbn [history extend].
      rewrite app_assoc, active_from_app. destruct c; reflexivity.
Qed.

(** X23. When the scope of [forward_ports] ends normally, every removal was
    called and returned, after the body: none of the mappings asked for is in
    place any more, and the other mappings are as the body left them. *)
Theorem normal_exit_removes_the_mappings :
  forall w forward reverse (A : Type) (body : M A) st a st',
    with_ (forward_ports w forward reverse) body st = (Returns a, st') ->
    exists st2,
      body (extend st (map ok (establishments forward reverse)))
        = (Returns a, st2) /\
      st' = extend st2 (map ok (removals forward reverse)) /\
      active (history st')
        = filter (fun m => negb (requested forward reverse m))
                 (active (history st2)) /\
      (forall m, requested forward reverse m = true ->
                 ~ In m (active (history st'))).
Proof.
  intros w forward reverse A body st a st' H. unfold with_ in H.
  destruct (establish_cases w forward reverse st)
    as [Hb|[done [c [rest [e [_ [_ Hb]]]]]]]; rewrite Hb in H; [|discriminate].
  destruct (body (extend st (map ok (establishments forward reverse))))
    as [[a'|e|] st2] eqn:Ebody; try discriminate.
  destruct (teardown_cases w forward reverse st2)
    as [Ht|[done [c [rest [e [_ [_ Ht]]]]]]]; rewrite Ht in H; [|discriminate].
  injection H as -> <-. exists st2.
  assert (Ha : active (history (extend st2 (map ok (removals forward reverse))))
               = filter (fun m => negb (requested forward reverse m))
                        (active (history st2))).
  { unfold active. cbn [history extend].
    rewrite active_from_app. apply active_removals. }
  split; [reflexivity|]. split; [reflexivity|]. split; [exact Ha|].
  intros m Hm Hin. rewrite Ha in Hin. apply filter_In in Hin.
  rewrite Hm in Hin. destruct Hin as [_ Hin]. discriminate Hin.
Qed.

Lemma normal_exit_removes_the_mappings_witness :
  exists st2,
    ret tt (extend fresh (map ok (establishments [8080] [9000])))
      = (Returns tt, st2) /\
    extend fresh [ok (Forward 8080 8080); ok (Reverse 9000 9000);
                  ok (ForwardRemove 8080); ok (ReverseRemove 9000)]
      = extend st2 (map ok (removals [8080] [9000])) /\
    active (history (extend fresh
              [ok (Forward 8080 8080); ok (Reverse 9000 9000);
               ok (ForwardRemove 8080); ok (ReverseRemove 9000)]))
      = filter (fun m => negb (requested [8080] [9000] m))
               (active (history st2)) /\
    (forall m, requested [8080] [9000] m = true ->
               ~ In m (active (history (extend fresh
                    [ok (Forward 8080 8080); ok (Reverse 9000 9000);
                     ok (ForwardRemove 8080); ok (ReverseRemove 9000)])))).
Proof.
  apply (@normal_exit_removes_the_mappings (silent_device 10000) [8080] [9000]
           unit (ret tt) fresh tt).
  reflexivity.
Defined.

(** X24. In a whole run an emulator is created, checked or booted only when
    [select_target_device] has named no running device: [create_emulator]
    only when it has named no AVD either, [verify_avd] only for the AVD it
    has named, and [start_emulator] for that AVD or the one just created,
    with the extra arguments of the command.  When it has named a running
    device, the run goes on with that device and its name, and makes no call
    to create, check or boot an emulator. *)
Theorem emulator_only_without_device :
  forall w fuel app passthrough device_or_avd extra shutdown_on_exit
         forward reverse st r st',
    run_app w fuel app passthrough device_or_avd extra shutdown_on_exit
            forward reverse st = (r, st') ->
    (forall c res,
       In (c, res) (added st st') -> is_emulator_call c = true ->
       exists name avd,
         target w (history st) = (None, name, avd) /\
         match c with
         | CreateEmulator => avd = None
         | VerifyAvd a => avd = Some a
         | StartEmulator a args =>
             args = extra /\
             (avd = Some a \/
              (avd = None /\
               a = new_avd w (history st ++ [ok (SelectTargetDevice device_or_avd)])))
         | _ => True
         end) /\
    (forall d name avd,
       target w (history st) = (Some d, name, avd) ->
       raises w (history st) (SelectTargetDevice device_or_avd) = None ->
       run_app w fuel app passthrough device_or_avd extra shutdown_on_exit
               forward reverse st
         = try_finally (session w fuel app passthrough d name forward reverse)
                       (shutdown w shutdown_on_exit)
                       (extend st [ok (SelectTargetDevice device_or_avd)]) /\
       Forall (fun ev : event => is_emulator_call (fst ev) = false)
              (added st st')).
Proof.
  intros w fuel app passthrough device_or_avd extra sd forward reverse
         st r st' Hrun.
  unfold run_app in Hrun.
  destruct (select_device w app device_or_avd extra st) as [rs st1] eqn:Es.
  destruct (select_device_emulator_calls _ _ _ _ _ Es) as [Hcalls Hdev].
  destruct (@steps_select_device w (fun _ => true) app device_or_avd extra
              (fun c _ => eq_refl) _ _ _ Es) as [D0 [Hst1 _]].
  assert (Hadded : exists D,
            added st st' = added st st1 ++ D /\
            Forall (fun ev : event => is_emulator_call (fst ev) = false) D).
  { destruct rs as [d0|e|].
    - rewrite (bind_returns _ Es) in Hrun.
      apply no_emulator_after_selection in Hrun. destruct Hrun as [D [HD HqD]].
      exists D. split; [|exact HqD].
      unfold added. rewrite HD. subst st1. cbn [history extend].
      rewrite <- app_assoc, !skipn_app, !skipn_all, Nat.sub_diag. reflexivity.
    - rewrite (bind_raises _ Es) in Hrun. injection Hrun as <- <-.
      exists []. rewrite app_nil_r. split; [reflexivity | constructor].
    - rewrite (bind_unfinished _ Es) in Hrun. injection Hrun as <- <-.
      exists []. rewrite app_nil_r. split; [reflexivity | constructor]. }
  destruct Hadded as [D [Hadd HqD]]. split.
  - intros c res Hin Hc. rewrite Hadd in Hin. apply in_app_or in Hin.
    destruct Hin as [Hin|Hin]; [exact (Hcalls c res Hin Hc)|].
    rewrite Forall_forall in HqD. specialize (HqD _ Hin). cbn [fst] in HqD.
    congruence.
  - intros d name avd Ht Hr. destruct (Hdev d name avd Ht Hr) as [-> ->].
    split.
    + unfold run_app. rewrite (bind_returns _ Es). reflexivity.
    + rewrite Hadd, added_extend. apply Forall_app. split; [|exact HqD].
      constructor; [reflexivity | constructor].
Qed.

Lemma emulator_only_without_device_witness :
  exists name avd,
    target (without_device (silent_device 1000000)) (history fresh)
      = (None, name, avd) /\
    avd = None.
Proof.
  assert (H : run_app (without_device (silent_device 1000000)) 9 helloworld []
                      None (Some ["-no-window"%string]) true None None fresh
              = (fst (run_app (without_device (silent_device 1000000)) 9
                              helloworld [] None (Some ["-no-window"%string])
                              true None None fresh),
                 snd (run_app (without_device (silent_device 1000000)) 9
                              helloworld [] None (Some ["-no-window"%string])
                              true None None fresh)))
    by (vm_compute; reflexivity).
  destruct (proj1 (@emulator_only_without_device _ _ _ _ _ _ _ _ _ _ _ _ H)
                  CreateEmulator None) as [name [avd [Ht Hc]]].
  - vm_compute. right. left. reflexivity.
  - reflexivity.
  - exists name, avd. split; [exact Ht | exact Hc].
Defined.

(** X25. When the pid is found and no call fails from then on, the run
    announces and opens the log of that pid and follows it, then removes
    every mapping, forwards first, then stops the emulator if asked to, and
    returns normally. *)
Theorem found_pid_follows_the_log :
  forall w fuel app passthrough device_or_avd extra shutdown_on_exit
         forward reverse st st3 dst pid st4,
    setup w app device_or_avd extra forward reverse st = (Returns tt, st3) ->
    launch w fuel (package_of app) passthrough st3 = (Returns (dst, pid), st4) ->
    truthy pid = true ->
    (forall d c, raises w (history st4 ++ d) c = None) ->
    run_app w fuel app passthrough device_or_avd extra shutdown_on_exit
            forward reverse st
      = (Returns tt,
         extend st4
           (map ok (following app pid
                      ++ removals (or_empty forward) (or_empty reverse)
                      ++ shutdown_calls shutdown_on_exit))).
Proof.
  intros w fuel app passthrough device_or_avd extra sd forward reverse
         st st3 dst pid st4 Hsetup Hlaunch Hpid Hquiet.
  apply setup_returns in Hsetup.
  destruct Hsetup as [d [st1 [st1' [st2 [D [Hs [Hc [Hi [Hb [Hadb _]]]]]]]]]].
  pose proof (launch_returns _ _ _ _ _ Hlaunch) as Hl.
  cbv zeta in Hl. destruct Hl as [_ [Hadb4 _]].
  assert (Hcmd : forall c ev,
            command w c (extend st4 ev) = (Returns tt, extend st4 (ev ++ [ok c]))).
  { intros c ev. rewrite command_returns by apply Hquiet.
    rewrite extend_extend. reflexivity. }
  assert (Hbody : launch_and_follow w fuel app passthrough st3
                  = (Returns tt, extend st4 (map ok (following app pid)))).
  { unfold launch_and_follow, wait_bar. rewrite (bind_returns _ Hlaunch).
    cbn [fst snd]. unfold follow_or_fail. rewrite Hpid.
    rewrite <- (extend_nil st4) at 1.
    rewrite (bind_returns _ (Hcmd _ _)), (bind_returns _ (Hcmd _ _)), Hcmd.
    reflexivity. }
  assert (Hdown : after_yield (forward_ports w (or_empty forward) (or_empty reverse))
                    (extend st4 (map ok (following app pid)))
                  = (Returns tt,
                     extend st4 (map ok (following app pid
                       ++ removals (or_empty forward) (or_empty reverse))))).
  { destruct (teardown_cases w (or_empty forward) (or_empty reverse)
                (extend st4 (map ok (following app pid))))
      as [Ht|[done [c [rest [e [_ [Hr _]]]]]]].
    - rewrite Ht, extend_extend, map_app. reflexivity.
    - cbn [history extend] in Hr. rewrite <- app_assoc, Hquiet in Hr.
      discriminate Hr. }
  unfold run_app. rewrite (bind_returns _ Hs). unfold try_finally, session.
  rewrite (bind_returns _ Hc).
  assert (Hbind : bind_adb (fst d) st1' =
                  (Returns tt, {| history := history st1'; adb := Some (fst d) |}))
    by reflexivity.
  rewrite (bind_returns _ Hbind), (bind_returns _ Hi).
  unfold with_. rewrite Hb, Hbody, Hdown.
  unfold shutdown, wait_bar, shutdown_calls. destruct sd.
  - unfold adb_kill. cbn [adb extend]. rewrite Hadb4, Hadb, Hcmd.
    rewrite !map_app, <- app_assoc. reflexivity.
  - cbn [ret]. rewrite !app_nil_r. reflexivity.
Qed.

Lemma found_pid_follows_the_log_witness :
  exists st4,
    run_app (starting 2 "1234" (silent_device 10000)) 600 helloworld [] None None
            true (Some [8080]) (Some [9000]) fresh
      = (Returns tt,
         extend st4
           (map ok (following helloworld (Some "1234"%string)
                      ++ removals (or_empty (Some [8080])) (or_empty (Some [9000]))
                      ++ shutdown_calls true))).
Proof.
  eexists.
  apply (@found_pid_follows_the_log (starting 2 "1234" (silent_device 10000)) 600
           helloworld [] None None true (Some [8080]) (Some [9000]) fresh
           (snd (setup (starting 2 "1234" (silent_device 10000)) helloworld None
                       None (Some [8080]) (Some [9000]) fresh))
           "01-01 00:00:00.000"%string (Some "1234"%string)).
  - vm_compute. reflexivity.
  - vm_compute. reflexivity.
  - reflexivity.
  - intros d c. reflexivity.
Defined.

End PortsSpec.

(** * The classifier, continued *)

Module LogFilterMore.
Import Re LogFilter ReFacts LogFilterFacts.
Open Scope list_scope.

(** X26. The classifier includes a line only when the line carries the
    marker of Python output: wherever [include] is true, the line is made of
    some prefix, an uppercase level letter, a slash, the tag [python.stdout]
    or [python.stderr], the separator, the returned content, and a rest. *)
Theorem included_lines_carry_python_tag :
  forall ansi line content,
    no_groups ansi = true ->
    android_log_clean_filter ansi line = (content, true) ->
    exists pre level tag post,
      line = pre ++ level :: SLASH :: tag ++ SEP ++ content ++ post /\
      is_upper level = true /\
      (tag = python_stdout \/ tag = python_stderr).
Proof.
  intros ansi line content Hg H. rewrite (@filter_scan ansi Hg) in H.
  destruct (scan ansi line) as [[t c]|] eqn:E; [|discriminate].
  cbn [fst snd] in H. injection H as -> Ht.
  destruct (scan_sound _ _ E) as [pre [level [post [Hl [Hup _]]]]].
  exists pre, level, t, post. split; [exact Hl|]. split; [exact Hup|].
  apply is_python_tag_iff. exact Ht.
Qed.

Lemma included_lines_carry_python_tag_witness :
  exists pre level tag post,
    of_string "I/python.stdout: Hello world"
      = pre ++ level :: SLASH :: tag ++ SEP ++ of_string "Hello world" ++ post /\
    is_upper level = true /\
    (tag = python_stdout \/ tag = python_stderr).
Proof.
  apply (@included_lines_carry_python_tag ansi_esc_seq
           (of_string "I/python.stdout: Hello world") (of_string "Hello world")).
  - reflexivity.
  - vm_compute. reflexivity.
Defined.

(** X27. The pattern is anchored at the start of the line: a line whose
    first character is no uppercase letter and starts no escape sequence is
    returned unchanged and not included, whatever log prefix may come
    further inside it; so is the empty line. *)
Theorem unprefixed_line_is_kept :
  forall ansi x s,
    no_groups ansi = true ->
    is_upper x = false ->
    matches ansi (x :: s) [] = [] ->
    android_log_clean_filter ansi (x :: s) = (x :: s, false) /\
    android_log_clean_filter ansi [] = ([], false).
Proof.
  intros ansi x s Hg Hup Hm. rewrite !(@filter_scan ansi Hg). split.
  - unfold scan. cbn [matches length star_aux]. rewrite Hm.
    cbn [flat_map app first_some fst]. unfold scan_line.
    destruct s as [|y s]; [reflexivity|]. rewrite Hup. reflexivity.
  - reflexivity.
Qed.

Lemma unprefixed_line_is_kept_witness :
  classify (of_string "12:00 I/python.stdout: Hello")
    = (of_string "12:00 I/python.stdout: Hello", false) /\
  classify [] = ([], false).
Proof.
  apply (@unprefixed_line_is_kept ansi_esc_seq 49%N
           (of_string "2:00 I/python.stdout: Hello")); reflexivity.
Defined.

End LogFilterMore.
